(** * A circular genome with transposable elements

    Shallow embedding of [src/genome.py]: the two implementations of the
    [Genome] interface ([ListGenome], backed by a Python list, and
    [LinkedListGenome], backed by a circular doubly linked list with a
    sentinel head), followed by the properties of the specification that
    were checked against them. *)

From Stdlib Require Import ZArith Lia Ascii String.
From stdpp Require Import base tactics option list.

Local Open Scope Z_scope.

(** ** Python prelude *)

(** Exceptions the code can raise.  [AttributeError] stands for following
    a link that is not there, [TypeError] for joining a non-string. *)
Inductive exn : Type :=
  | ValueError
  | KeyError
  | ZeroDivisionError
  | TypeError
  | AttributeError.

Inductive outcome (A : Type) : Type :=
  | Return (a : A)
  | Raise (e : exn).
Arguments Return {A} a.
Arguments Raise {A} e.

(** A method call on an object with fields [S]: it returns or raises, and
    in both cases leaves the object in some state (an exception does not
    undo the mutations made before it). *)
Definition M (S A : Type) : Type := S -> outcome A * S.

#[global] Instance M_ret {S} : MRet (M S) := fun A a s => (Return a, s).
#[global] Instance M_bind {S} : MBind (M S) := fun A B k c s =>
  match c s with
  | (Return a, s') => k a s'
  | (Raise e, s') => (Raise e, s')
  end.
Definition raise {S A} (e : exn) : M S A := fun s => (Raise e, s).
Definition get {S} : M S S := fun s => (Return s, s).
Definition gets {S A} (f : S -> A) : M S A := fun s => (Return (f s), s).
Definition modify {S} (f : S -> S) : M S unit := fun s => (Return tt, f s).

(** [for x in xs: body(x)] *)
Fixpoint for_each {S A} (xs : list A) (body : A -> M S unit) : M S unit :=
  match xs with
  | [] => mret tt
  | x :: xs' => body x;; for_each xs' body
  end.

(** [for _ in range(k): body] ([range(k)] is empty when [k <= 0]) *)
Fixpoint repeat_m {S} (k : nat) (body : M S unit) : M S unit :=
  match k with
  | O => mret tt
  | S k' => body;; repeat_m k' body
  end.
Definition for_range {S} (k : Z) (body : M S unit) : M S unit :=
  repeat_m (Z.to_nat k) body.

(** [len(l)] *)
Definition len {A} (l : list A) : Z := Z.of_nat (length l).

(** [k * [x]] (empty when [k <= 0]) *)
Definition py_repeat {A} (k : Z) (x : A) : list A := replicate (Z.to_nat k) x.

(** [a % b]: Python's remainder takes the sign of the divisor, as [Z.modulo]
    does; a zero divisor raises. *)
Definition py_mod {S} (a b : Z) : M S Z :=
  if b =? 0 then raise ZeroDivisionError else mret (a mod b).

(** Slice bounds as CPython adjusts them (step 1): a negative bound counts
    from the end, and both are clamped to [0, len]. *)
Definition slice_index (n i : Z) : Z :=
  if i <? 0 then Z.max 0 (i + n) else Z.min i n.

(** [l[:hi]], [l[lo:]] *)
Definition slice_to {A} (l : list A) (hi : Z) : list A :=
  take (Z.to_nat (slice_index (len l) hi)) l.
Definition slice_from {A} (l : list A) (lo : Z) : list A :=
  drop (Z.to_nat (slice_index (len l) lo)) l.

(** [l[lo:hi] = r]: the slice is replaced by [r], whatever its length. *)
Definition slice_assign {A} (l : list A) (lo hi : Z) (r : list A) : list A :=
  let ilow := slice_index (len l) lo in
  let ihigh := Z.max ilow (slice_index (len l) hi) in
  take (Z.to_nat ilow) l ++ r ++ drop (Z.to_nat ihigh) l.

(** *** Dictionaries

    A Python [dict] keeps its items in insertion order; assigning to a key
    that is present keeps its place, a new key goes last. *)
Section Dict.
Context {V : Type}.
Definition dict : Type := list (Z * V).

(** [list(d.keys())] *)
Definition dict_keys (d : dict) : list Z := map fst d.

(** [k in d] *)
Definition dict_mem (k : Z) (d : dict) : bool :=
  existsb (fun kv => fst kv =? k) d.

(** [d[k]] *)
Fixpoint dict_get (k : Z) (d : dict) : option V :=
  match d with
  | [] => None
  | (k', v) :: d' => if k' =? k then Some v else dict_get k d'
  end.

(** [d[k] = v] *)
Fixpoint dict_set (k : Z) (v : V) (d : dict) : dict :=
  match d with
  | [] => [(k, v)]
  | (k', v') :: d' =>
      if k' =? k then (k, v) :: d' else (k', v') :: dict_set k v d'
  end.

(** the dictionary left by [d.pop(k)] *)
Fixpoint dict_remove (k : Z) (d : dict) : dict :=
  match d with
  | [] => []
  | (k', v) :: d' => if k' =? k then d' else (k', v) :: dict_remove k d'
  end.
End Dict.
Arguments dict V : clear implicits.

(** The three cell symbols of a rendered genome. *)
Definition sym_empty : ascii := "-"%char.
Definition sym_active : ascii := "A"%char.
Definition sym_disabled : ascii := "x"%char.

(** A registered range [(start, end)]. *)
Definition te_range : Type := (Z * Z)%type.

(** ** ListGenome *)
Module ListGenome.

Record t : Type := mk {
  genome : list ascii;
  te_identities : dict te_range;
  te_count : Z
}.

Definition set_genome (f : list ascii -> list ascii) (g : t) : t :=
  mk (f (genome g)) (te_identities g) (te_count g).
Definition set_te_identities (f : dict te_range -> dict te_range) (g : t) : t :=
  mk (genome g) (f (te_identities g)) (te_count g).
Definition set_te_count (f : Z -> Z) (g : t) : t :=
  mk (genome g) (te_identities g) (f (te_count g)).

(** [self.te_identities[te]] *)
Definition lookup_te (te : Z) : M t te_range :=
  g ← get;
  match dict_get te (te_identities g) with
  | Some r => mret r
  | None => raise KeyError
  end.

(** [self.te_identities.pop(te)] *)
Definition pop_te (te : Z) : M t te_range :=
  r ← lookup_te te;
  modify (set_te_identities (dict_remove te));;
  mret r.

(** [ListGenome(n)] *)
Definition init (n : Z) : t := mk (py_repeat n sym_empty) [] 0.

(** the body of the loop of [insert_te] over the active TEs *)
Definition insert_te_body (pos length : Z) : Z * te_range -> M t unit :=
  fun '(id, (start, end_)) =>
    if (start <=? pos) && (pos <? end_) then
      modify (set_genome (fun l =>
        slice_assign l start end_ (py_repeat (end_ - start) sym_disabled)));;
      _ ← pop_te id;
      mret tt
    else if start >? pos then
      modify (set_te_identities (dict_set id (start + length, end_ + length)))
    else mret tt.

(** [insert_te]: the range check, the circularization of [pos], the loop
    over a snapshot of the registry, then the new id, its range and its
    cells. *)
Definition insert_te (pos length : Z) : M t Z :=
  g ← get;
  if pos >? len (genome g) then raise ValueError else
  pos ← py_mod pos (len (genome g));
  active_tes ← gets te_identities;
  for_each active_tes (insert_te_body pos length);;
  modify (set_te_count (fun c => c + 1));;
  c ← gets te_count;
  modify (set_te_identities (dict_set c (pos, pos + length)));;
  modify (set_genome (fun l =>
    slice_to l pos ++ py_repeat length sym_active ++ slice_from l pos));;
  gets te_count.

(** [copy_te]: [None] for an id that is not in the registry, otherwise
    [insert_te] at the start of the TE plus the offset. *)
Definition copy_te (te offset : Z) : M t (option Z) :=
  g ← get;
  if negb (dict_mem te (te_identities g)) then mret None else
  '(start, end_) ← lookup_te te;
  let copy_length := end_ - start in
  let copy_pos := start + offset in
  id ← insert_te copy_pos copy_length;
  mret (Some id).

(** [disable_te]: the test [if self.te_identities[te]:] looks the id up
    (a pair is always true), so an id that is not in the registry raises
    [KeyError]. *)
Definition disable_te (te : Z) : M t unit :=
  _ ← lookup_te te;
  '(start, end_) ← pop_te te;
  modify (set_genome (fun l =>
    slice_assign l start end_ (py_repeat (end_ - start) sym_disabled))).

(** [active_tes]: the keys of the registry, in insertion order. *)
Definition active_tes (g : t) : list Z := dict_keys (te_identities g).

(** [__len__] *)
Definition length (g : t) : Z := len (genome g).

(** [__str__] *)
Definition render (g : t) : string := string_of_list_ascii (genome g).

End ListGenome.

(** ** Doubly linked links

    [Link] objects live in a heap; a reference is the index of the object
    in the heap, or [None].  Objects are never freed. *)
Definition ref : Type := option nat.

Record Link : Type := mkLink {
  val : option ascii;
  prev : ref;
  next : ref
}.

Definition heap : Type := list Link.

(** the object behind a reference; a reference to nothing has no attributes *)
Definition deref (r : ref) : M heap Link :=
  h ← get;
  match r with
  | Some a => match h !! a with
              | Some l => mret l
              | None => raise AttributeError
              end
  | None => raise AttributeError
  end.

(** [r.val], [r.prev], [r.next] *)
Definition get_val (r : ref) : M heap (option ascii) := l ← deref r; mret (val l).
Definition get_prev (r : ref) : M heap ref := l ← deref r; mret (prev l).
Definition get_next (r : ref) : M heap ref := l ← deref r; mret (next l).

(** [r.val = v], [r.prev = p], [r.next = n] *)
Definition update (r : ref) (f : Link -> Link) : M heap unit :=
  l ← deref r;
  match r with
  | Some a => modify (fun h : heap => <[a := f l]> h)
  | None => raise AttributeError
  end.
Definition set_val (r : ref) (v : option ascii) : M heap unit :=
  update r (fun l => mkLink v (prev l) (next l)).
Definition set_prev (r : ref) (p : ref) : M heap unit :=
  update r (fun l => mkLink (val l) p (next l)).
Definition set_next (r : ref) (n : ref) : M heap unit :=
  update r (fun l => mkLink (val l) (prev l) n).

(** [Link(val, p, n)] *)
Definition new_Link (v : option ascii) (p n : ref) : M heap ref :=
  h ← get;
  modify (fun h : heap => h ++ [mkLink v p n]);;
  mret (Some (length h)).

(** [insert_after(link, val)] *)
Definition insert_after (link : ref) (v : option ascii) : M heap unit :=
  n ← get_next link;
  new_link ← new_Link v link n;
  p ← get_prev new_link;
  set_next p new_link;;
  n ← get_next new_link;
  set_prev n new_link.

(** [remove_link(link)] *)
Definition remove_link (link : ref) : M heap unit :=
  p ← get_prev link;
  n ← get_next link;
  set_next p n;;
  n ← get_next link;
  p ← get_prev link;
  set_prev n p.

(** A loop [for _ in range(k)] that threads one local variable. *)
Fixpoint iterate_m {S A} (k : nat) (body : A -> M S A) (a : A) : M S A :=
  match k with
  | O => mret a
  | S k' => a' ← body a; iterate_m k' body a'
  end.
Definition for_range_with {S A} (k : Z) (body : A -> M S A) (a : A) : M S A :=
  iterate_m (Z.to_nat k) body a.

(** [current_link = current_link.next], [k] times *)
Definition advance (k : Z) (current_link : ref) : M heap ref :=
  for_range_with k get_next current_link.

(** [string.join] of a list whose items may be [None] *)
Fixpoint join (links : list (option ascii)) : option string :=
  match links with
  | [] => Some EmptyString
  | Some c :: rest => s ← join rest; Some (String c s)
  | None :: _ => None
  end.

(** ** LinkedListGenome *)
Module LinkedListGenome.

(** The fields of the object, with the heap its links live in.
    [__len__] returns the field [length]. *)
Record t : Type := mk {
  links : heap;
  head : ref;
  length : Z;
  te_identities : dict te_range;
  te_count : Z
}.

Definition set_links (f : heap -> heap) (g : t) : t :=
  mk (f (links g)) (head g) (length g) (te_identities g) (te_count g).
Definition set_length (f : Z -> Z) (g : t) : t :=
  mk (links g) (head g) (f (length g)) (te_identities g) (te_count g).
Definition set_te_identities (f : dict te_range -> dict te_range) (g : t) : t :=
  mk (links g) (head g) (length g) (f (te_identities g)) (te_count g).
Definition set_te_count (f : Z -> Z) (g : t) : t :=
  mk (links g) (head g) (length g) (te_identities g) (f (te_count g)).

(** run a computation on the links of the genome *)
Definition on_links {A} (c : M heap A) : M t A :=
  fun g => let '(r, h) := c (links g) in (r, set_links (fun _ => h) g).

(** [self.te_identities[te]] *)
Definition lookup_te (te : Z) : M t te_range :=
  g ← get;
  match dict_get te (te_identities g) with
  | Some r => mret r
  | None => raise KeyError
  end.

(** [self.te_identities.pop(te)] *)
Definition pop_te (te : Z) : M t te_range :=
  r ← lookup_te te;
  modify (set_te_identities (dict_remove te));;
  mret r.

(** [LinkedListGenome(n)], run on an empty heap *)
Definition init_m (n : Z) : M t unit :=
  h ← on_links (new_Link None None None);
  modify (fun g => mk (links g) h (length g) (te_identities g) (te_count g));;
  on_links (set_next h h);;
  on_links (set_prev h h);;
  modify (set_length (fun _ => n));;
  modify (set_te_identities (fun _ => []));;
  modify (set_te_count (fun _ => 0));;
  for_range n (on_links (last ← get_prev h; insert_after last (Some sym_empty))).

Definition init (n : Z) : t := snd (init_m n (mk [] None 0 [] 0)).

(** [disable_te]: as in the list variant the test looks the id up and
    raises [KeyError] when it is absent; then [start] steps from the first
    cell and [end - start] cells overwritten. *)
Definition disable_te (te : Z) : M t unit :=
  _ ← lookup_te te;
  '(start, end_) ← pop_te te;
  h ← gets head;
  current_link ← on_links (get_next h);
  current_link ← on_links (advance start current_link);
  _ ← on_links (for_range_with (end_ - start) (fun current_link =>
         set_val current_link (Some sym_disabled);;
         get_next current_link) current_link);
  mret tt.

(** the body of the loop of [insert_te] over the active TEs *)
Definition insert_te_body (pos length_ : Z) : Z * te_range -> M t unit :=
  fun '(id, (start, end_)) =>
    if (start <=? pos) && (pos <? end_) then
      disable_te id
    else if start >? pos then
      modify (set_te_identities (dict_set id (start + length_, end_ + length_)))
    else mret tt.

(** [insert_te]: the range check (the position is not reduced modulo the
    length here), the loop over a snapshot of the registry, the new id and
    its range, then [pos - 1] steps from the first cell and the new cells
    inserted after the link reached. *)
Definition insert_te (pos length_ : Z) : M t Z :=
  g ← get;
  if pos >? length g then raise ValueError else
  active_tes ← gets te_identities;
  for_each active_tes (insert_te_body pos length_);;
  modify (set_te_count (fun c => c + 1));;
  c ← gets te_count;
  modify (set_te_identities (dict_set c (pos, pos + length_)));;
  h ← gets head;
  current_link ← on_links (get_next h);
  current_link ← on_links (advance (pos - 1) current_link);
  _ ← on_links (for_range_with length_ (fun current_link =>
         insert_after current_link (Some sym_active);;
         get_next current_link) current_link);
  modify (set_length (fun l => l + length_));;
  gets te_count.

(** [copy_te]: [None] for an id that is not in the registry; a target
    before index 0 is moved up by the length. *)
Definition copy_te (te offset : Z) : M t (option Z) :=
  g ← get;
  if negb (dict_mem te (te_identities g)) then mret None else
  '(start, end_) ← lookup_te te;
  let copy_length := end_ - start in
  let copy_pos := start + offset in
  if offset >? 0 then
    id ← insert_te copy_pos copy_length; mret (Some id)
  else if start + offset <? 0 then
    len_ ← gets length;
    let copy_pos := len_ + start + offset in
    id ← insert_te copy_pos copy_length; mret (Some id)
  else
    let copy_pos := start + offset in
    id ← insert_te copy_pos copy_length; mret (Some id).

(** [active_tes]: the keys of the registry, in insertion order. *)
Definition active_tes (g : t) : list Z := dict_keys (te_identities g).

(** [__str__]: the values of [length] links from the first cell, joined. *)
Definition render : M t string :=
  h ← gets head;
  pos ← on_links (get_next h);
  n ← gets length;
  '(links, _) ← on_links (for_range_with n (fun '(links, pos) =>
      v ← get_val pos;
      pos ← get_next pos;
      mret (links ++ [v], pos)) ([], pos));
  match join links with
  | Some s => mret s
  | None => raise TypeError
  end.

End LinkedListGenome.

(** Unfolding of the monad operations, for the proofs below. *)
Ltac unfold_m :=
  unfold mbind, M_bind, mret, M_ret, get, gets, modify, raise in *.

(** ** What the loop of [insert_te] computes

    The loop over the active TEs drops the entries that contain the
    insertion point, shifts the entries that start after it, and overwrites
    the cells of the dropped entries. *)
Fixpoint sweep_registry (pos length : Z) (d : dict te_range) : dict te_range :=
  match d with
  | [] => []
  | (id, (s, e)) :: d' =>
      if (s <=? pos) && (pos <? e) then sweep_registry pos length d'
      else if s >? pos then (id, (s + length, e + length)) :: sweep_registry pos length d'
      else (id, (s, e)) :: sweep_registry pos length d'
  end.

Fixpoint sweep_cells (pos : Z) (d : dict te_range) (cells : list ascii) : list ascii :=
  match d with
  | [] => cells
  | (id, (s, e)) :: d' =>
      sweep_cells pos d'
        (if (s <=? pos) && (pos <? e)
         then slice_assign cells s e (py_repeat (e - s) sym_disabled)
         else cells)
  end.

(** ** Well-formed states

    What every state reached from a constructor satisfies: the keys of the
    registry are distinct ids that were issued, and every registered range
    lies inside the genome. *)
Definition range_in (n c : Z) (kv : Z * te_range) : Prop :=
  1 <= kv.1 <= c /\ 0 <= kv.2.1 <= kv.2.2 /\ kv.2.2 <= n.

Record list_wf (g : ListGenome.t) : Prop := {
  list_wf_keys : NoDup (dict_keys (ListGenome.te_identities g));
  list_wf_ranges :
    Forall (range_in (len (ListGenome.genome g)) (ListGenome.te_count g))
           (ListGenome.te_identities g);
  list_wf_count : 0 <= ListGenome.te_count g
}.

(** ** The ring behind a LinkedListGenome

    The links reachable from the head form a ring: the head, then the
    cells in genome order, then the head again.  [nodes] are the heap
    addresses of the cells in that order and [vals] their values; position
    [length nodes] of the ring is the head itself. *)
Definition node_at (hd : nat) (nodes : list nat) (j : nat) : nat :=
  default hd (nodes !! j).

Definition succ_pos (K j : nat) : nat := if (j <? K)%nat then S j else O.
Definition pred_pos (K j : nat) : nat := if (j =? 0)%nat then K else (j - 1)%nat.

Record ring (h : heap) (hd : nat) (nodes : list nat) (vals : list ascii) : Prop := {
  ring_nodup : NoDup (hd :: nodes);
  ring_length : length vals = length nodes;
  ring_links : forall j, (j <= length nodes)%nat ->
    h !! node_at hd nodes j =
    Some (mkLink (vals !! j)
                 (Some (node_at hd nodes (pred_pos (length nodes) j)))
                 (Some (node_at hd nodes (succ_pos (length nodes) j))))
}.

(** ** What the loops of LinkedListGenome do to the cells

    [disable_te] walks [start] links from the first cell and overwrites
    [end - start] cells; [insert_te] walks [pos - 1] links from the first
    cell and inserts after the link it reaches (after the head when the
    genome is empty). *)
Definition linked_fill (s e : Z) (vals : list ascii) : list ascii :=
  take (Z.to_nat s) vals ++ replicate (Z.to_nat (e - s)) sym_disabled
    ++ drop (Z.to_nat s + Z.to_nat (e - s)) vals.

Definition linked_splice (pos length : Z) (vals : list ascii) : list ascii :=
  match vals with
  | [] => py_repeat length sym_active
  | _ => take (S (Z.to_nat (pos - 1))) vals ++ py_repeat length sym_active
           ++ drop (S (Z.to_nat (pos - 1))) vals
  end.

Fixpoint linked_sweep_cells (pos : Z) (d : dict te_range) (vals : list ascii) : list ascii :=
  match d with
  | [] => vals
  | (id, (s, e)) :: d' =>
      linked_sweep_cells pos d'
        (if (s <=? pos) && (pos <? e) then linked_fill s e vals else vals)
  end.

(** A registered range of a LinkedListGenome: [insert_te] accepts a
    negative position and registers it as it is, so a range may start
    before 0; it never ends after the last cell nor is longer than the
    genome. *)
Definition linked_range_in (n c : Z) (kv : Z * te_range) : Prop :=
  1 <= kv.1 <= c /\ kv.2.1 <= kv.2.2 /\ kv.2.2 <= n /\ kv.2.2 - kv.2.1 <= n.

(** [linked_cells g vals]: the ring of [g] holds the cells [vals]. *)
Definition linked_cells (g : LinkedListGenome.t) (vals : list ascii) : Prop :=
  exists hd nodes,
    LinkedListGenome.head g = Some hd /\ ring (LinkedListGenome.links g) hd nodes vals.

Record linked_wf (g : LinkedListGenome.t) (vals : list ascii) : Prop := {
  linked_wf_cells : linked_cells g vals;
  linked_wf_length : LinkedListGenome.length g = len vals;
  linked_wf_keys : NoDup (dict_keys (LinkedListGenome.te_identities g));
  linked_wf_ranges :
    Forall (linked_range_in (LinkedListGenome.length g) (LinkedListGenome.te_count g))
           (LinkedListGenome.te_identities g);
  linked_wf_count : 0 <= LinkedListGenome.te_count g
}.

(** ** The Genome interface and scripts of calls

    The abstract class [Genome] of the source: the methods both variants
    implement.  [ListGenome.__str__] cannot raise; it is lifted for the
    common signature. *)
Module Genome.
Class t (G : Type) : Type := mk {
  init : Z -> G;
  insert_te : Z -> Z -> M G Z;
  copy_te : Z -> Z -> M G (option Z);
  disable_te : Z -> M G unit;
  active_tes : G -> list Z;
  length : G -> Z;
  render : M G string
}.
End Genome.

#[global] Instance ListGenome_Genome : Genome.t ListGenome.t := {|
  Genome.init := ListGenome.init;
  Genome.insert_te := ListGenome.insert_te;
  Genome.copy_te := ListGenome.copy_te;
  Genome.disable_te := ListGenome.disable_te;
  Genome.active_tes := ListGenome.active_tes;
  Genome.length := ListGenome.length;
  Genome.render := gets ListGenome.render
|}.

#[global] Instance LinkedListGenome_Genome : Genome.t LinkedListGenome.t := {|
  Genome.init := LinkedListGenome.init;
  Genome.insert_te := LinkedListGenome.insert_te;
  Genome.copy_te := LinkedListGenome.copy_te;
  Genome.disable_te := LinkedListGenome.disable_te;
  Genome.active_tes := LinkedListGenome.active_tes;
  Genome.length := LinkedListGenome.length;
  Genome.render := LinkedListGenome.render
|}.

(** A mutating call, and what it gives back. *)
Inductive op : Type :=
  | InsertTe (pos length : Z)
  | CopyTe (te offset : Z)
  | DisableTe (te : Z).

Inductive value : Type :=
  | VInt (z : Z)
  | VNone
  | VUnit.

Definition run {G} `{Genome.t G} (o : op) : M G value :=
  match o with
  | InsertTe pos length => id ← Genome.insert_te pos length; mret (VInt id)
  | CopyTe te offset =>
      r ← Genome.copy_te te offset;
      mret (match r with Some id => VInt id | None => VNone end)
  | DisableTe te => Genome.disable_te te;; mret VUnit
  end.

(** The state a script of calls leaves; a call that raises leaves the
    state it had reached, and the script goes on. *)
Definition run_script {G} `{Genome.t G} (ops : list op) (g : G) : G :=
  fold_left (fun g o => (run o g).2) ops g.

(** What a caller can see of a genome. *)
Definition observe {G} `{Genome.t G} (g : G) : outcome string * list Z * Z :=
  ((Genome.render g).1, Genome.active_tes g, Genome.length g).

(** A TE has a length: scripts insert TEs of non-negative length. *)
Definition op_ok (o : op) : Prop :=
  match o with
  | InsertTe _ length => 0 <= length
  | _ => True
  end.

(** [render()] returns a string as long as [length()] says. *)
Definition render_has_length {G} `{Genome.t G} (g : G) : Prop :=
  exists s, Genome.render g = (Return s, g) /\
            Genome.length g = Z.of_nat (String.length s).

(** The character at an index of a rendered genome. *)
Definition char_at (s : string) (i : Z) : option ascii :=
  if i <? 0 then None else String.get (Z.to_nat i) s.

(** How a call changes [length()]: it never decreases; a call of
    [insert_te] that returns adds the inserted length, a call of [copy_te]
    that returns an id adds the length of the copied TE, and every other
    call (a [disable_te], a call that raises, a [copy_te] that returns
    [None]) leaves it as it is.  [ranges] reads the registry of the
    variant. *)
Definition length_law {G} `{Genome.t G} (ranges : G -> dict te_range)
    (o : op) (g : G) : Prop :=
  let '(r, g') := run o g in
  Genome.length g <= Genome.length g' /\
  match o, r with
  | InsertTe _ l, Return _ => Genome.length g' = Genome.length g + l
  | CopyTe te _, Return (VInt _) =>
      exists s e, dict_get te (ranges g) = Some (s, e) /\
                  Genome.length g' = Genome.length g + (e - s)
  | _, _ => Genome.length g' = Genome.length g
  end.

(** [same_genome gl gk]: the two variants hold the same cells, the same
    registry and the same id counter, and both are well-formed. *)
Definition same_genome (gl : ListGenome.t) (gk : LinkedListGenome.t) : Prop :=
  list_wf gl /\ linked_wf gk (ListGenome.genome gl) /\
  ListGenome.te_identities gl = LinkedListGenome.te_identities gk /\
  ListGenome.te_count gl = LinkedListGenome.te_count gk.

(** ** Active cells and registered ranges

    [covered d i]: index [i] lies in a registered range.  In the list
    variant the registered ranges are pairwise disjoint and the cells they
    cover are exactly the cells that hold 'A'. *)
Definition covered (d : dict te_range) (i : Z) : Prop :=
  exists id s e, (id, (s, e)) ∈ d /\ s <= i < e.

Definition ranges_disjoint (d : dict te_range) : Prop :=
  forall id1 s1 e1 id2 s2 e2 i,
    (id1, (s1, e1)) ∈ d -> (id2, (s2, e2)) ∈ d ->
    s1 <= i < e1 -> s2 <= i < e2 -> id1 = id2.

Definition known_symbol (c : ascii) : Prop :=
  c = sym_empty \/ c = sym_active \/ c = sym_disabled.

Record list_cells_ok (g : ListGenome.t) : Prop := {
  list_cells_wf : list_wf g;
  list_cells_disjoint : ranges_disjoint (ListGenome.te_identities g);
  list_cells_active : forall i : nat,
    ListGenome.genome g !! i = Some sym_active <->
    covered (ListGenome.te_identities g) (Z.of_nat i);
  list_cells_symbols : Forall known_symbol (ListGenome.genome g)
}.

(** [hit pos i kv]: the entry [kv] contains the insertion point [pos] and
    covers the cell [i]. *)
Definition hit (pos : Z) (i : nat) (kv : Z * te_range) : Prop :=
  kv.2.1 <= pos < kv.2.2 /\ kv.2.1 <= Z.of_nat i < kv.2.2.

(** ** Calls away from the two ends of the genome

    [interior_op o g]: on the genome [g] the call [o] inserts at a
    position [1 <= pos < length()]; for [copy_te] of an active TE the
    target [start + offset] is such a position, or a negative index that
    wraps to one.  [interior ops g]: every call of the script does, in the
    state the list variant has reached when it is made. *)
Definition interior_op (o : op) (g : ListGenome.t) : Prop :=
  match o with
  | InsertTe pos l => 1 <= pos < ListGenome.length g /\ 0 <= l
  | CopyTe te offset =>
      match dict_get te (ListGenome.te_identities g) with
      | Some (s, e) =>
          1 <= s + offset < ListGenome.length g \/
          - ListGenome.length g < s + offset < 0
      | None => True
      end
  | DisableTe _ => True
  end.

Fixpoint interior (ops : list op) (g : ListGenome.t) : Prop :=
  match ops with
  | [] => True
  | o :: ops' => interior_op o g /\ interior ops' (run o g).2
  end.

(** [increasing l]: every element of [l] is smaller than the elements
    after it. *)
Fixpoint increasing (l : list Z) : Prop :=
  match l with
  | [] => True
  | x :: l' => Forall (fun y => x < y) l' /\ increasing l'
  end.

(** [empty_cells cells]: the number of cells that hold '-'. *)
Definition empty_cells (cells : list ascii) : nat :=
  count_occ ascii_dec cells sym_empty.

(** * Properties *)

(** ** Facts about dictionaries *)


Section DictFacts.
Context {V : Type}.
Implicit Types (d : dict V) (k : Z) (v : V).

Lemma dict_get_keys k d : is_Some (dict_get k d) <-> k ∈ dict_keys d.
Proof.
  induction d as [|[k' v'] d IH]; simpl.
  - rewrite elem_of_nil. split; [intros [? ?]; discriminate | tauto].
  - rewrite elem_of_cons. destruct (Z.eqb_spec k' k); [split; eauto | rewrite IH].
    split; [auto | intros [?|?]; [congruence | done]].
Qed.

Lemma dict_mem_keys k d : dict_mem k d = true <-> k ∈ dict_keys d.
Proof.
  rewrite <- dict_get_keys.
  induction d as [|[k' v'] d IH]; simpl.
  - split; [discriminate | intros [? ?]; discriminate].
  - destruct (k' =? k); simpl; [split; eauto | exact IH].
Qed.

Lemma dict_get_None k d : dict_get k d = None <-> k ∉ dict_keys d.
Proof.
  rewrite <- dict_get_keys. destruct (dict_get k d); split.
  - discriminate.
  - intros H; destruct H; eauto.
  - intros _ [? ?]; discriminate.
  - done.
Qed.

Lemma dict_get_elem k v d : dict_get k d = Some v -> (k, v) ∈ d.
Proof.
  induction d as [|[k' v'] d IH]; simpl; [discriminate|].
  rewrite elem_of_cons.
  destruct (Z.eqb_spec k' k); [intros [= ->]; subst; auto | auto].
Qed.

Lemma elem_dict_keys k v d : (k, v) ∈ d -> k ∈ dict_keys d.
Proof. intros H. apply (list_elem_of_fmap_2 fst _ (k, v)), H. Qed.

Lemma elem_dict_get k v d :
  NoDup (dict_keys d) -> (k, v) ∈ d -> dict_get k d = Some v.
Proof.
  induction d as [|[k' v'] d IH]; simpl.
  - intros _ H. by apply elem_of_nil in H.
  - intros [Hk Hnd]%NoDup_cons [[= -> ->]|Hin]%elem_of_cons.
    + by rewrite Z.eqb_refl.
    + destruct (Z.eqb_spec k' k) as [->|]; [|auto].
      destruct Hk. eapply elem_dict_keys, Hin.
Qed.

Lemma dict_keys_app d1 d2 : dict_keys (d1 ++ d2) = dict_keys d1 ++ dict_keys d2.
Proof. apply map_app. Qed.

(** Assigning to a key that is absent appends it. *)
Lemma dict_set_fresh k v d :
  k ∉ dict_keys d -> dict_set k v d = d ++ [(k, v)].
Proof.
  induction d as [|[k' v'] d IH]; simpl; [done|].
  intros [? ?]%not_elem_of_cons. destruct (Z.eqb_spec k' k); [done|]. by rewrite IH.
Qed.

(** Reading, assigning to and popping a key that first occurs after [d1]. *)
Lemma dict_get_middle k v' d1 d2 :
  k ∉ dict_keys d1 -> dict_get k (d1 ++ (k, v') :: d2) = Some v'.
Proof.
  induction d1 as [|[k1 v1] d1 IH]; simpl.
  - by rewrite Z.eqb_refl.
  - intros [? ?]%not_elem_of_cons. destruct (Z.eqb_spec k1 k); [done|]. by rewrite IH.
Qed.

Lemma dict_set_middle k v v' d1 d2 :
  k ∉ dict_keys d1 ->
  dict_set k v (d1 ++ (k, v') :: d2) = d1 ++ (k, v) :: d2.
Proof.
  induction d1 as [|[k1 v1] d1 IH]; simpl.
  - by rewrite Z.eqb_refl.
  - intros [? ?]%not_elem_of_cons. destruct (Z.eqb_spec k1 k); [done|]. by rewrite IH.
Qed.

Lemma dict_remove_middle k v' d1 d2 :
  k ∉ dict_keys d1 ->
  dict_remove k (d1 ++ (k, v') :: d2) = d1 ++ d2.
Proof.
  induction d1 as [|[k1 v1] d1 IH]; simpl.
  - by rewrite Z.eqb_refl.
  - intros [? ?]%not_elem_of_cons. destruct (Z.eqb_spec k1 k); [done|]. by rewrite IH.
Qed.

Lemma dict_get_app k d1 d2 :
  dict_get k (d1 ++ d2) =
  match dict_get k d1 with Some v => Some v | None => dict_get k d2 end.
Proof.
  induction d1 as [|[k1 v1] d1 IH]; simpl; [done|].
  by destruct (k1 =? k).
Qed.

Lemma dict_keys_remove k k' d :
  k' ∈ dict_keys (dict_remove k d) -> k' ∈ dict_keys d.
Proof.
  induction d as [|[k1 v1] d IH]; simpl; [done|].
  rewrite elem_of_cons. destruct (k1 =? k); simpl; [tauto|].
  rewrite elem_of_cons. tauto.
Qed.

Lemma dict_remove_NoDup k d :
  NoDup (dict_keys d) -> NoDup (dict_keys (dict_remove k d)).
Proof.
  induction d as [|[k1 v1] d IH]; simpl; [done|].
  intros [Hk Hnd]%NoDup_cons. destruct (k1 =? k); [done|]. simpl.
  apply NoDup_cons. split; [|auto].
  intros H. apply Hk, (dict_keys_remove k), H.
Qed.

Lemma dict_get_remove k k' d :
  NoDup (dict_keys d) ->
  dict_get k' (dict_remove k d) = if k =? k' then None else dict_get k' d.
Proof.
  induction d as [|[k1 v1] d IH]; simpl; [by destruct (k =? k')|].
  intros [Hk Hnd]%NoDup_cons.
  destruct (Z.eqb_spec k1 k) as [->|Hne].
  - destruct (Z.eqb_spec k k') as [->|]; [|done].
    by apply dict_get_None.
  - simpl. rewrite IH by done.
    destruct (Z.eqb_spec k1 k') as [->|]; [|done].
    destruct (Z.eqb_spec k k'); [congruence | done].
Qed.
End DictFacts.

(** ** ListGenome: what each method computes *)
Section ListFacts.
Import ListGenome.

Lemma list_lookup_te_run te g :
  lookup_te te g =
  match dict_get te (te_identities g) with
  | Some r => (Return r, g)
  | None => (Raise KeyError, g)
  end.
Proof. unfold lookup_te. unfold_m. by destruct (dict_get _ _). Qed.

Lemma list_pop_te_run te g :
  pop_te te g =
  match dict_get te (te_identities g) with
  | Some r => (Return r, set_te_identities (dict_remove te) g)
  | None => (Raise KeyError, g)
  end.
Proof.
  unfold pop_te. unfold_m. rewrite list_lookup_te_run.
  by destruct (dict_get _ _).
Qed.

Lemma list_insert_te_loop pos l items : forall pre g,
  te_identities g = pre ++ items ->
  NoDup (dict_keys (pre ++ items)) ->
  for_each items (insert_te_body pos l) g =
  (Return tt, mk (sweep_cells pos items (genome g))
                 (pre ++ sweep_registry pos l items) (te_count g)).
Proof.
  induction items as [|[id [s e]] items IH]; intros pre g Hd Hnd.
  - rewrite app_nil_r in *. simpl. rewrite <- Hd. by destruct g.
  - assert (Hid : id ∉ dict_keys pre).
    { rewrite dict_keys_app in Hnd. apply NoDup_app in Hnd as (_ & Hnd & _).
      intros Hin. apply (Hnd _ Hin). simpl. left. }
    simpl. unfold_m. unfold insert_te_body at 1. unfold_m.
    destruct ((s <=? pos) && (pos <? e)) eqn:Hc.
    + rewrite list_pop_te_run. simpl. rewrite Hd, dict_get_middle by done.
      rewrite (IH pre).
      * done.
      * simpl. by rewrite Hd, dict_remove_middle.
      * rewrite dict_keys_app in *. simpl in Hnd.
        apply NoDup_app in Hnd as (Hn1 & Hn2 & [Hn3 Hn4]%NoDup_cons).
        apply NoDup_app. split_and!; [done| |done].
        intros x Hx Hx'. apply (Hn2 x Hx). by right.
    + destruct (s >? pos) eqn:Hs.
      * rewrite (IH (pre ++ [(id, (s + l, e + l))])).
        -- simpl. by rewrite <- app_assoc.
        -- simpl. rewrite Hd, dict_set_middle by done. by rewrite <- app_assoc.
        -- rewrite <- app_assoc. simpl. by rewrite dict_keys_app in *.
      * rewrite (IH (pre ++ [(id, (s, e))])).
        -- simpl. by rewrite <- app_assoc.
        -- rewrite Hd. by rewrite <- app_assoc.
        -- by rewrite <- app_assoc.
Qed.
End ListFacts.

(** ** Facts about slices *)
Section SliceFacts.
Context {A : Type}.
Implicit Types (l r : list A) (x : A).

Lemma len_nonneg l : 0 <= len l.
Proof. unfold len. lia. Qed.

Lemma len_app l r : len (l ++ r) = len l + len r.
Proof. unfold len. rewrite length_app. lia. Qed.

Lemma len_py_repeat k x : 0 <= k -> len (py_repeat k x) = k.
Proof. intros. unfold len, py_repeat. rewrite length_replicate. lia. Qed.

Lemma slice_index_in n i : 0 <= i <= n -> slice_index n i = i.
Proof. intros. unfold slice_index. destruct (Z.ltb_spec i 0); lia. Qed.

Lemma slice_to_in l i : 0 <= i <= len l -> slice_to l i = take (Z.to_nat i) l.
Proof. intros. unfold slice_to. by rewrite slice_index_in. Qed.

Lemma slice_from_in l i : 0 <= i <= len l -> slice_from l i = drop (Z.to_nat i) l.
Proof. intros. unfold slice_from. by rewrite slice_index_in. Qed.

Lemma slice_assign_in l s e r :
  0 <= s <= e -> e <= len l ->
  slice_assign l s e r = take (Z.to_nat s) l ++ r ++ drop (Z.to_nat e) l.
Proof.
  intros. unfold slice_assign. cbv zeta.
  rewrite !slice_index_in by lia. by rewrite Z.max_r by lia.
Qed.

(** Overwriting a range that lies inside the list keeps its length. *)
Lemma len_slice_assign_fill l s e x :
  0 <= s <= e -> e <= len l ->
  len (slice_assign l s e (py_repeat (e - s) x)) = len l.
Proof.
  intros. rewrite slice_assign_in by done. unfold len, py_repeat in *.
  rewrite !length_app, length_take, length_drop, length_replicate. lia.
Qed.

Lemma lookup_slice_assign_fill l s e x (i : nat) :
  0 <= s <= e -> e <= len l ->
  slice_assign l s e (py_repeat (e - s) x) !! i =
  if decide (s <= Z.of_nat i < e) then Some x else l !! i.
Proof.
  intros. rewrite slice_assign_in by done. unfold len, py_repeat in *.
  destruct (decide (Z.of_nat i < s)).
  { rewrite lookup_app_l by (rewrite length_take; lia).
    rewrite lookup_take_lt by lia. case_decide; [lia | done]. }
  rewrite lookup_app_r by (rewrite length_take; lia).
  rewrite length_take, Nat.min_l by lia.
  destruct (decide (Z.of_nat i < e)).
  { rewrite lookup_app_l by (rewrite length_replicate; lia).
    rewrite lookup_replicate_2 by lia. case_decide; [done | lia]. }
  rewrite lookup_app_r by (rewrite length_replicate; lia).
  rewrite length_replicate, lookup_drop. case_decide; [lia|].
  f_equal. lia.
Qed.

(** Splicing [r] in at [p]. *)
Lemma lookup_splice l p r (i : nat) :
  0 <= p <= len l ->
  (slice_to l p ++ r ++ slice_from l p) !! i =
  if decide (Z.of_nat i < p) then l !! i
  else if decide (Z.of_nat i < p + len r) then r !! (i - Z.to_nat p)%nat
  else l !! (i - length r)%nat.
Proof.
  intros. rewrite slice_to_in, slice_from_in by done. unfold len in *.
  case_decide.
  { rewrite lookup_app_l by (rewrite length_take; lia).
    by rewrite lookup_take_lt by lia. }
  rewrite lookup_app_r by (rewrite length_take; lia).
  rewrite length_take, Nat.min_l by lia.
  case_decide.
  { by rewrite lookup_app_l by lia. }
  rewrite lookup_app_r by lia. rewrite lookup_drop. f_equal. lia.
Qed.

Lemma len_splice l p r :
  0 <= p <= len l -> len (slice_to l p ++ r ++ slice_from l p) = len l + len r.
Proof.
  intros. rewrite slice_to_in, slice_from_in by done. unfold len in *.
  rewrite !length_app, length_take, length_drop. lia.
Qed.
End SliceFacts.

(** ** The loop of [insert_te], seen from outside *)
Section SweepFacts.
Implicit Types (d : dict te_range) (cells : list ascii).

Lemma sweep_registry_keys pos l d k :
  k ∈ dict_keys (sweep_registry pos l d) -> k ∈ dict_keys d.
Proof.
  induction d as [|[id [s e]] d IH]; simpl; [done|].
  destruct ((s <=? pos) && (pos <? e)); [|destruct (s >? pos)]; simpl;
    rewrite ?elem_of_cons; tauto.
Qed.

Lemma sweep_registry_NoDup pos l d :
  NoDup (dict_keys d) -> NoDup (dict_keys (sweep_registry pos l d)).
Proof.
  induction d as [|[id [s e]] d IH]; simpl; [done|].
  intros [Hk Hnd]%NoDup_cons.
  destruct ((s <=? pos) && (pos <? e)); [|destruct (s >? pos)]; simpl; auto;
    apply NoDup_cons; (split; [|auto]); intros H%sweep_registry_keys; done.
Qed.

(** The registry after the loop, key by key. *)
Lemma dict_get_sweep_registry pos l d k :
  NoDup (dict_keys d) ->
  dict_get k (sweep_registry pos l d) =
  match dict_get k d with
  | Some (s, e) =>
      if (s <=? pos) && (pos <? e) then None
      else if s >? pos then Some (s + l, e + l) else Some (s, e)
  | None => None
  end.
Proof.
  induction d as [|[id [s e]] d IH]; simpl; [done|].
  intros [Hk Hnd]%NoDup_cons.
  destruct (Z.eqb_spec id k) as [->|Hne].
  - destruct ((s <=? pos) && (pos <? e)); [|destruct (s >? pos)]; simpl;
      rewrite ?Z.eqb_refl; try done.
    apply dict_get_None. intros H%sweep_registry_keys. done.
  - destruct ((s <=? pos) && (pos <? e)); [|destruct (s >? pos)]; simpl;
      rewrite ?(proj2 (Z.eqb_neq _ _) Hne); auto.
Qed.

Lemma sweep_registry_ranges pos l n c d :
  0 <= l ->
  Forall (range_in n c) d ->
  Forall (range_in (n + l) (c + 1)) (sweep_registry pos l d).
Proof.
  intros Hl. induction 1 as [|[id [s e]] d (Hid & Hse & He) _ IH]; simpl; [done|].
  simpl in *.
  destruct ((s <=? pos) && (pos <? e)); [|destruct (s >? pos)]; auto;
    constructor; auto; unfold range_in; simpl; lia.
Qed.

Lemma len_sweep_cells pos c d : forall cells,
  Forall (range_in (len cells) c) d ->
  len (sweep_cells pos d cells) = len cells.
Proof.
  induction d as [|[id [s e]] d IH]; intros cells Hd; simpl; [done|].
  apply Forall_cons in Hd as [(Hid & Hse & He) Hd]. simpl in *.
  destruct ((s <=? pos) && (pos <? e)).
  - rewrite IH; rewrite len_slice_assign_fill by lia; done.
  - by rewrite IH.
Qed.

(** A disabled cell stays disabled, and the cells of an entry that
    contains the insertion point are disabled. *)
Lemma sweep_cells_keeps pos c d (i : nat) : forall cells,
  Forall (range_in (len cells) c) d ->
  cells !! i = Some sym_disabled ->
  sweep_cells pos d cells !! i = Some sym_disabled.
Proof.
  induction d as [|[id [s e]] d IH]; intros cells Hd Hi; simpl; [done|].
  apply Forall_cons in Hd as [(Hid & Hse & He) Hd]. simpl in *.
  destruct ((s <=? pos) && (pos <? e)).
  - apply IH; [by rewrite len_slice_assign_fill by lia|].
    rewrite lookup_slice_assign_fill by lia. by case_decide.
  - by apply IH.
Qed.

Lemma sweep_cells_disables pos c d id s e (i : nat) : forall cells,
  Forall (range_in (len cells) c) d ->
  (id, (s, e)) ∈ d -> s <= pos < e -> s <= Z.of_nat i < e ->
  sweep_cells pos d cells !! i = Some sym_disabled.
Proof.
  induction d as [|[id' [s' e']] d IH]; intros cells Hd Hin Hp Hi; simpl.
  { by apply elem_of_nil in Hin. }
  apply Forall_cons in Hd as [(Hid & Hse & He) Hd]. simpl in *.
  apply elem_of_cons in Hin as [[= <- <- <-]|Hin].
  - replace ((s <=? pos) && (pos <? e)) with true
      by (symmetry; apply andb_true_iff; lia).
    eapply sweep_cells_keeps; [by rewrite len_slice_assign_fill by lia|].
    rewrite lookup_slice_assign_fill by lia. by rewrite decide_True by lia.
  - destruct ((s' <=? pos) && (pos <? e')).
    + eapply IH; eauto. by rewrite len_slice_assign_fill by lia.
    + eapply IH; eauto.
Qed.

(** A cell outside every entry that contains the insertion point is
    left as it is. *)
Lemma sweep_cells_other pos c d (i : nat) : forall cells,
  Forall (range_in (len cells) c) d ->
  (forall id s e, (id, (s, e)) ∈ d -> s <= pos < e -> ~ s <= Z.of_nat i < e) ->
  sweep_cells pos d cells !! i = cells !! i.
Proof.
  induction d as [|[id' [s' e']] d IH]; intros cells Hd Hout; simpl; [done|].
  apply Forall_cons in Hd as [(Hid & Hse & He) Hd]. simpl in *.
  destruct ((s' <=? pos) && (pos <? e')) eqn:Hc.
  - rewrite IH.
    + rewrite lookup_slice_assign_fill by lia. rewrite decide_False; [done|].
      apply (Hout id'); [left | apply andb_true_iff in Hc; lia].
    + by rewrite len_slice_assign_fill by lia.
    + intros. eapply Hout; [right|]; eauto.
  - apply IH; [done|]. intros. eapply Hout; [right|]; eauto.
Qed.
End SweepFacts.

Section ListMethods.
Import ListGenome.

(** [insert_te] on a non-empty genome, at a position that passes the
    range check. *)
Lemma list_insert_te_run pos l g :
  NoDup (dict_keys (te_identities g)) ->
  pos <= len (genome g) -> len (genome g) <> 0 ->
  let p := pos mod len (genome g) in
  let cells := sweep_cells p (te_identities g) (genome g) in
  insert_te pos l g =
  (Return (te_count g + 1),
   mk (slice_to cells p ++ py_repeat l sym_active ++ slice_from cells p)
      (dict_set (te_count g + 1) (p, p + l)
                (sweep_registry p l (te_identities g)))
      (te_count g + 1)).
Proof.
  intros Hnd Hpos Hlen p cells. unfold insert_te, py_mod. unfold_m.
  destruct (Z.gtb_spec pos (len (genome g))); [lia|].
  destruct (Z.eqb_spec (len (genome g)) 0); [lia|].
  by rewrite (list_insert_te_loop _ _ _ []).
Qed.

Lemma list_insert_te_out_of_range pos l g :
  pos > len (genome g) -> insert_te pos l g = (Raise ValueError, g).
Proof.
  intros. unfold insert_te. unfold_m.
  destruct (Z.gtb_spec pos (len (genome g))); [done | lia].
Qed.

Lemma list_insert_te_empty pos l g :
  pos <= len (genome g) -> len (genome g) = 0 ->
  insert_te pos l g = (Raise ZeroDivisionError, g).
Proof.
  intros ? Hlen. unfold insert_te, py_mod. unfold_m.
  destruct (Z.gtb_spec pos (len (genome g))); [lia|]. by rewrite Hlen.
Qed.

Lemma list_disable_te_run te g :
  disable_te te g =
  match dict_get te (te_identities g) with
  | Some (s, e) =>
      (Return tt,
       mk (slice_assign (genome g) s e (py_repeat (e - s) sym_disabled))
          (dict_remove te (te_identities g)) (te_count g))
  | None => (Raise KeyError, g)
  end.
Proof.
  unfold disable_te. unfold_m. rewrite list_lookup_te_run.
  destruct (dict_get te (te_identities g)) as [[s e]|] eqn:Hget; [|done].
  rewrite list_pop_te_run, Hget. done.
Qed.

Lemma list_copy_te_run te offset g :
  copy_te te offset g =
  match dict_get te (te_identities g) with
  | Some (s, e) =>
      match insert_te (s + offset) (e - s) g with
      | (Return id, g') => (Return (Some id), g')
      | (Raise ex, g') => (Raise ex, g')
      end
  | None => (Return None, g)
  end.
Proof.
  unfold copy_te. unfold_m.
  destruct (dict_mem te (te_identities g)) eqn:Hmem; simpl.
  - apply dict_mem_keys, dict_get_keys in Hmem as [[s e] Hget].
    by rewrite list_lookup_te_run, Hget.
  - destruct (dict_get te (te_identities g)) as [[s e]|] eqn:Hget; [|done].
    assert (dict_mem te (te_identities g) = true); [|congruence].
    apply dict_mem_keys, dict_get_keys. eauto.
Qed.

(** *** Well-formedness is kept *)

Lemma list_wf_init n : list_wf (init n).
Proof. split; simpl; [constructor | constructor | lia]. Qed.

Lemma list_wf_insert_te pos l g :
  0 <= l -> list_wf g -> list_wf (insert_te pos l g).2.
Proof.
  intros Hl [Hnd Hr Hc].
  destruct (Z.gtb_spec pos (len (genome g))).
  { rewrite list_insert_te_out_of_range by lia. done. }
  destruct (Z.eqb_spec (len (genome g)) 0).
  { rewrite list_insert_te_empty by lia. done. }
  rewrite list_insert_te_run by done. simpl.
  pose proof (len_nonneg (genome g)).
  assert (0 <= pos `mod` len (genome g) < len (genome g)) by (apply Z.mod_pos_bound; lia).
  assert (Hfresh : te_count g + 1 ∉ dict_keys (sweep_registry (pos `mod` len (genome g)) l (te_identities g))).
  { intros Hin%sweep_registry_keys.
    apply list_elem_of_fmap in Hin as ([k r] & Heq & Hin).
    rewrite Forall_forall in Hr. apply Hr in Hin as [? _]. simpl in *. lia. }
  rewrite dict_set_fresh by done.
  split; simpl.
  - rewrite dict_keys_app. apply NoDup_app. split_and!.
    + by apply sweep_registry_NoDup.
    + intros x Hx [->|[]%elem_of_nil]%elem_of_cons. done.
    + apply NoDup_singleton.
  - rewrite len_splice by (erewrite len_sweep_cells by done; lia).
    erewrite len_sweep_cells by done. rewrite len_py_repeat by done.
    apply Forall_app. split; [by apply sweep_registry_ranges|].
    apply Forall_singleton. unfold range_in. simpl. lia.
  - lia.
Qed.

Lemma list_wf_disable_te te g : list_wf g -> list_wf (disable_te te g).2.
Proof.
  intros [Hnd Hr Hc]. rewrite list_disable_te_run.
  destruct (dict_get te (te_identities g)) as [[s e]|] eqn:Hget; [|done].
  pose proof Hr as Hr'. rewrite Forall_forall in Hr'.
  destruct (Hr' _ (dict_get_elem _ _ _ Hget)) as (? & ? & ?). simpl in *.
  split; simpl.
  - by apply dict_remove_NoDup.
  - rewrite len_slice_assign_fill by lia.
    apply Forall_forall. intros [k r] Hin. apply Hr'.
    apply dict_get_elem. 
    pose proof (dict_get_remove te k (te_identities g) Hnd) as Hrem.
    rewrite (elem_dict_get k r) in Hrem; [|by apply dict_remove_NoDup|done].
    destruct (te =? k); [done | by symmetry].
  - done.
Qed.

Lemma list_wf_copy_te te offset g : list_wf g -> list_wf (copy_te te offset g).2.
Proof.
  intros Hwf. rewrite list_copy_te_run.
  destruct (dict_get te (te_identities g)) as [[s e]|] eqn:Hget; [|done].
  assert (0 <= e - s).
  { destruct Hwf as [_ Hr _]. rewrite Forall_forall in Hr.
    destruct (Hr _ (dict_get_elem _ _ _ Hget)) as (? & ? & ?). simpl in *. lia. }
  pose proof (list_wf_insert_te (s + offset) (e - s) g) as Hins.
  destruct (insert_te (s + offset) (e - s) g) as [[id|ex] g']; simpl in *; auto.
Qed.
End ListMethods.

(** ** Running a sequence of calls *)
Lemma bind_run {S A B} (c : M S A) (k : A -> M S B) s a s' :
  c s = (Return a, s') -> (c ≫= k) s = k a s'.
Proof. intros Hc. unfold mbind, M_bind. by rewrite Hc. Qed.

Lemma bind_raise {S A B} (c : M S A) (k : A -> M S B) s e s' :
  c s = (Raise e, s') -> (c ≫= k) s = (Raise e, s').
Proof. intros Hc. unfold mbind, M_bind. by rewrite Hc. Qed.

(** ** Links: what the primitives compute *)
Section HeapFacts.
Implicit Types (h : heap) (a : nat) (l : Link).

Lemma deref_run h a l :
  h !! a = Some l -> deref (Some a) h = (Return l, h).
Proof. intros Hl. unfold deref. unfold_m. by rewrite Hl. Qed.

Lemma get_val_run h a l :
  h !! a = Some l -> get_val (Some a) h = (Return (val l), h).
Proof. intros Hl. unfold get_val, mbind, M_bind. by rewrite (deref_run _ _ l). Qed.

Lemma get_prev_run h a l :
  h !! a = Some l -> get_prev (Some a) h = (Return (prev l), h).
Proof. intros Hl. unfold get_prev, mbind, M_bind. by rewrite (deref_run _ _ l). Qed.

Lemma get_next_run h a l :
  h !! a = Some l -> get_next (Some a) h = (Return (next l), h).
Proof. intros Hl. unfold get_next, mbind, M_bind. by rewrite (deref_run _ _ l). Qed.

Lemma update_run h a l f :
  h !! a = Some l -> update (Some a) f h = (Return tt, <[a := f l]> h).
Proof. intros Hl. unfold update, mbind, M_bind. by rewrite (deref_run _ _ l). Qed.

Lemma new_Link_run h v p n :
  new_Link v p n h = (Return (Some (length h)), h ++ [mkLink v p n]).
Proof. done. Qed.
End HeapFacts.

(** ** Rings *)
Section RingFacts.
Implicit Types (h : heap) (hd : nat) (nodes : list nat) (vals : list ascii).

Lemma node_at_head hd nodes : node_at hd nodes (length nodes) = hd.
Proof. unfold node_at. by rewrite lookup_ge_None_2. Qed.

Lemma node_at_lookup hd nodes j :
  (j < length nodes)%nat -> nodes !! j = Some (node_at hd nodes j).
Proof.
  intros Hj. unfold node_at.
  by destruct (lookup_lt_is_Some_2 nodes j Hj) as [a ->].
Qed.

(** Distinct positions of a ring are distinct links. *)
Lemma node_at_inj hd nodes i j :
  NoDup (hd :: nodes) -> (i <= length nodes)%nat -> (j <= length nodes)%nat ->
  node_at hd nodes i = node_at hd nodes j -> i = j.
Proof.
  intros [Hhd Hnd]%NoDup_cons Hi Hj Heq.
  destruct (decide (i = length nodes)) as [->|], (decide (j = length nodes)) as [->|];
    [done| | |].
  - rewrite node_at_head in Heq. destruct Hhd.
    apply list_elem_of_lookup. exists j. rewrite Heq. apply node_at_lookup. lia.
  - rewrite node_at_head in Heq. destruct Hhd.
    apply list_elem_of_lookup. exists i. rewrite <- Heq. apply node_at_lookup. lia.
  - eapply NoDup_lookup; [done| |]; [apply node_at_lookup; lia|].
    rewrite Heq. apply node_at_lookup. lia.
Qed.

Lemma ring_next h hd nodes vals j :
  ring h hd nodes vals -> (j <= length nodes)%nat ->
  get_next (Some (node_at hd nodes j)) h =
  (Return (Some (node_at hd nodes (succ_pos (length nodes) j))), h).
Proof. intros Hr Hj. by erewrite get_next_run by (by apply Hr). Qed.

Lemma ring_prev h hd nodes vals j :
  ring h hd nodes vals -> (j <= length nodes)%nat ->
  get_prev (Some (node_at hd nodes j)) h =
  (Return (Some (node_at hd nodes (pred_pos (length nodes) j))), h).
Proof. intros Hr Hj. by erewrite get_prev_run by (by apply Hr). Qed.

Lemma succ_pos_lt K j : (j < K)%nat -> succ_pos K j = S j.
Proof. intros. unfold succ_pos. by destruct (Nat.ltb_spec j K); [|lia]. Qed.

(** Walking forward inside the ring. *)
Lemma ring_iterate_next h hd nodes vals (k : nat) : forall j,
  ring h hd nodes vals -> (j + k <= length nodes)%nat ->
  iterate_m k get_next (Some (node_at hd nodes j)) h =
  (Return (Some (node_at hd nodes (j + k))), h).
Proof.
  induction k as [|k IH]; intros j Hr Hj; simpl.
  - by rewrite Nat.add_0_r.
  - erewrite bind_run by (eapply ring_next; [done | lia]).
    rewrite succ_pos_lt by lia. rewrite IH by (done || lia).
    by replace (S j + k)%nat with (j + S k)%nat by lia.
Qed.

Lemma ring_advance h hd nodes vals (k : Z) (j : nat) :
  ring h hd nodes vals -> (j + Z.to_nat k <= length nodes)%nat ->
  advance k (Some (node_at hd nodes j)) h =
  (Return (Some (node_at hd nodes (j + Z.to_nat k))), h).
Proof. intros. unfold advance, for_range_with. by eapply ring_iterate_next. Qed.

(** Overwriting the value of a cell. *)
Lemma ring_set_val h hd nodes vals j v :
  ring h hd nodes vals -> (j < length nodes)%nat ->
  exists h',
    set_val (Some (node_at hd nodes j)) (Some v) h = (Return tt, h') /\
    ring h' hd nodes (<[j := v]> vals).
Proof.
  intros Hr Hj. pose proof Hr as [Hnd Hlen Hlinks].
  eexists. split.
  { unfold set_val. erewrite update_run by (apply Hlinks; lia). done. }
  split; [done | by rewrite length_insert |].
  intros i Hi. destruct (decide (i = j)) as [->|Hne].
  - rewrite (list_lookup_insert_eq h) by (eapply lookup_lt_Some, Hlinks; lia).
    simpl. by rewrite list_lookup_insert_eq by lia.
  - rewrite (list_lookup_insert_ne h).
    + rewrite (list_lookup_insert_ne vals) by done. by apply Hlinks.
    + intros Heq. apply node_at_inj in Heq; [done| |lia|done]. done.
Qed.

(** The loop that disables cells: from position [j], [m] cells. *)
Lemma ring_fill h hd nodes (m : nat) : forall vals j,
  ring h hd nodes vals -> (j + m <= length nodes)%nat ->
  exists h',
    iterate_m m (fun current_link =>
        set_val current_link (Some sym_disabled);; get_next current_link)
      (Some (node_at hd nodes j)) h =
    (Return (Some (node_at hd nodes (j + m))), h') /\
    ring h' hd nodes (take j vals ++ replicate m sym_disabled ++ drop (j + m) vals).
Proof.
  revert h. induction m as [|m IH]; intros h vals j Hr Hj; simpl.
  - exists h. rewrite Nat.add_0_r, take_drop. done.
  - destruct (ring_set_val h hd nodes vals j sym_disabled) as (h1 & Hset & Hr1);
      [done | lia |].
    destruct (IH h1 (<[j := sym_disabled]> vals) (S j)) as (h2 & Hit & Hr2);
      [done | lia |].
    exists h2. split.
    + erewrite bind_run.
      2:{ erewrite bind_run by exact Hset. eapply ring_next; [done | lia]. }
      rewrite succ_pos_lt by lia.
      rewrite Hit. by replace (S j + m)%nat with (j + S m)%nat by lia.
    + replace (take j vals ++ sym_disabled :: replicate m sym_disabled ++ drop (j + S m) vals)
        with (take (S j) (<[j:=sym_disabled]> vals) ++
              replicate m sym_disabled ++ drop (S j + m) (<[j:=sym_disabled]> vals)); [done|].
      pose proof (ring_length _ _ _ _ Hr).
      rewrite drop_insert_lt by lia.
      replace (S j + m)%nat with (j + S m)%nat by lia.
      rewrite (take_S_r _ _ sym_disabled) by (apply list_lookup_insert_eq; lia).
      rewrite take_insert_ge by lia. by rewrite <- app_assoc.
Qed.
End RingFacts.

(** Case analysis on the positions of a ring. *)
Ltac ring_cases :=
  unfold succ_pos, pred_pos in *;
  repeat match goal with
    | |- context [(?x <? ?y)%nat] => destruct (Nat.ltb_spec x y)
    | |- context [(?x =? ?y)%nat] => destruct (Nat.eqb_spec x y)
    | |- context [decide ?P] => destruct (decide P)
    end;
  try lia; repeat f_equal; try lia.

Section RingInsert.
Implicit Types (h : heap) (hd : nat) (nodes : list nat) (vals : list ascii).

Lemma lookup_insert_at {A} (l : list A) (s : nat) (x : A) (i : nat) :
  (s <= length l)%nat ->
  (take s l ++ x :: drop s l) !! i =
  if decide (i < s)%nat then l !! i
  else if decide (i = s) then Some x else l !! (i - 1)%nat.
Proof.
  intros Hs. case_decide.
  - rewrite lookup_app_l by (rewrite length_take; lia).
    by rewrite lookup_take_lt by lia.
  - rewrite lookup_app_r by (rewrite length_take; lia).
    rewrite length_take, Nat.min_l by lia.
    case_decide.
    + subst. by rewrite Nat.sub_diag.
    + destruct (i - s)%nat as [|k] eqn:Hk; [lia|]. simpl.
      rewrite lookup_drop. f_equal. lia.
Qed.

Lemma length_insert_at {A} (l : list A) (s : nat) (x : A) :
  length (take s l ++ x :: drop s l) = S (length l).
Proof.
  rewrite length_app, length_take. simpl. rewrite length_drop. lia.
Qed.

Lemma node_at_insert hd nodes s a i :
  (s <= length nodes)%nat ->
  node_at hd (take s nodes ++ a :: drop s nodes) i =
  if decide (i < s)%nat then node_at hd nodes i
  else if decide (i = s) then a else node_at hd nodes (i - 1).
Proof.
  intros Hs. unfold node_at. rewrite lookup_insert_at by done.
  by repeat case_decide.
Qed.

(** Every link of a ring is in the heap. *)
Lemma ring_node_lt h hd nodes vals j :
  ring h hd nodes vals -> (j <= length nodes)%nat ->
  (node_at hd nodes j < length h)%nat.
Proof. intros Hr Hj. eapply lookup_lt_Some. by apply Hr. Qed.

Lemma succ_pos_le K j : (j <= K)%nat -> (succ_pos K j <= K)%nat.
Proof. unfold succ_pos. destruct (Nat.ltb_spec j K); lia. Qed.

Lemma pred_pos_le K j : (j <= K)%nat -> (pred_pos K j <= K)%nat.
Proof. unfold pred_pos. destruct (Nat.eqb_spec j 0); lia. Qed.

(** [insert_after] the link at position [j] puts the new link at the
    next position of the ring. *)
Lemma ring_insert_after h hd nodes vals j v :
  ring h hd nodes vals -> (j <= length nodes)%nat ->
  let s := succ_pos (length nodes) j in
  exists h',
    insert_after (Some (node_at hd nodes j)) (Some v) h = (Return tt, h') /\
    ring h' hd (take s nodes ++ length h :: drop s nodes)
               (take s vals ++ v :: drop s vals).
Proof.
  intros Hr Hj s. pose proof Hr as [Hnd Hlen Hlinks].
  set (K := length nodes) in *.
  assert (Hs : (s <= K)%nat) by (by apply succ_pos_le).
  set (aj := node_at hd nodes j). set (an := node_at hd nodes s).
  set (a := length h).
  assert (Haj : (aj < a)%nat) by (by eapply ring_node_lt).
  assert (Han : (an < a)%nat) by (by eapply ring_node_lt).
  set (L := mkLink (Some v) (Some aj) (Some an)).
  set (h1 := h ++ [L]).
  assert (Hh1 : forall x, (x < a)%nat -> h1 !! x = h !! x).
  { intros x Hx. unfold h1. by rewrite lookup_app_l. }
  assert (Hh1a : h1 !! a = Some L).
  { unfold h1, a. by rewrite list_lookup_middle. }
  pose proof (Hlinks j Hj) as Hlj. fold aj an in Hlj.
  set (Lj := mkLink (vals !! j) (Some (node_at hd nodes (pred_pos K j))) (Some a)).
  set (h2 := <[aj := Lj]> h1).
  assert (Hlen1 : length h1 = S a) by (unfold h1; rewrite length_app; simpl; lia).
  assert (Hh2 : forall x, h2 !! x = if decide (x = aj) then Some Lj else h1 !! x).
  { intros x. unfold h2. case_decide as Hx.
    - subst x. apply list_lookup_insert_eq. lia.
    - by apply list_lookup_insert_ne. }
  destruct (h2 !! an) as [Ln|] eqn:Hln.
  2:{ apply lookup_ge_None in Hln. unfold h2 in Hln.
      rewrite length_insert in Hln. lia. }
  set (Ln' := mkLink (val Ln) (Some a) (next Ln)).
  set (h3 := <[an := Ln']> h2).
  assert (Hh3 : forall x, h3 !! x = if decide (x = an) then Some Ln' else h2 !! x).
  { intros x. unfold h3. case_decide as Hx.
    - subst x. apply list_lookup_insert_eq. unfold h2. rewrite length_insert. lia.
    - by apply list_lookup_insert_ne. }
  exists h3. split.
  { unfold insert_after.
    erewrite bind_run by (eapply get_next_run, Hlj). simpl.
    erewrite bind_run by apply new_Link_run. fold a L h1.
    erewrite bind_run by (eapply get_prev_run, Hh1a). simpl.
    erewrite bind_run.
    2:{ unfold set_next. eapply update_run. rewrite Hh1 by done. apply Hlj. }
    simpl. fold Lj h2.
    erewrite bind_run.
    2:{ eapply get_next_run. rewrite Hh2, decide_False by lia. exact Hh1a. }
    simpl. unfold set_prev. erewrite update_run by exact Hln. done. }
  split.
  - (* the new address is fresh *)
    apply NoDup_cons in Hnd as [Hhd Hnd].
    assert (Hfresh : forall x, x ∈ hd :: nodes -> (x < a)%nat).
    { intros x [->|Hx]%elem_of_cons.
      - rewrite <- (node_at_head hd nodes). by eapply ring_node_lt.
      - apply list_elem_of_lookup in Hx as [i Hi].
        pose proof (lookup_lt_Some _ _ _ Hi).
        erewrite node_at_lookup in Hi by done. injection Hi as <-.
        eapply ring_node_lt; [done | lia]. }
    assert (Ha : a ∉ nodes).
    { intros Hx. assert (a < a)%nat; [|lia]. apply Hfresh. by right. }
    apply NoDup_cons. split.
    + rewrite elem_of_app, elem_of_cons. intros [Hin|[->|Hin]].
      * by apply Hhd, (subseteq_take s nodes).
      * assert (a < a)%nat; [|lia]. apply Hfresh. by left.
      * by apply Hhd, (subseteq_drop s nodes).
    + rewrite <- (take_drop s nodes) in Hnd.
      apply NoDup_app in Hnd as (Hn1 & Hn2 & Hn3).
      apply NoDup_app. split_and!; [done| |].
      * intros x Hx [->|Hx']%elem_of_cons; [|by eapply Hn2].
        by apply Ha, (subseteq_take s nodes).
      * apply NoDup_cons. split; [|done]. intros Hx.
        by apply Ha, (subseteq_drop s nodes).
  - rewrite !length_insert_at. lia.
  - rewrite length_insert_at. fold K. intros i Hi.
    rewrite (lookup_insert_at vals) by lia.
    rewrite !node_at_insert by done. fold a.
    (* which link of the old ring (if any) sits at position [i]? *)
    assert (Hinj : forall x y, (x <= K)%nat -> (y <= K)%nat ->
              node_at hd nodes x = node_at hd nodes y -> x = y).
    { intros. by eapply node_at_inj. }
    assert (Hold : forall x, (x <= K)%nat ->
              h3 !! node_at hd nodes x =
              Some (mkLink (vals !! x)
                (Some (if decide (x = s) then a
                       else node_at hd nodes (pred_pos K x)))
                (Some (if decide (x = j) then a
                       else node_at hd nodes (succ_pos K x))))).
    { intros x Hx. rewrite Hh3. case_decide as Hxs.
      - apply Hinj in Hxs; [|done..]. subst x. rewrite decide_True by done.
        unfold Ln'. rewrite Hh2 in Hln. case_decide as Hsj.
        + apply Hinj in Hsj; [|done..]. rewrite decide_True by done.
          injection Hln as <-. simpl. by rewrite Hsj.
        + rewrite Hh1 in Hln by done. unfold an in Hln.
          rewrite (Hlinks s Hs) in Hln. injection Hln as <-. simpl.
          rewrite decide_False; [done|]. intros ->. by apply Hsj.
      - rewrite decide_False by (intros ->; by apply Hxs).
        rewrite Hh2. case_decide as Hxj.
        + apply Hinj in Hxj; [|done..]. subst x. by rewrite decide_True.
        + rewrite decide_False by (intros ->; by apply Hxj).
          rewrite Hh1 by (by eapply ring_node_lt). by apply Hlinks. }
    destruct (decide (i < s)%nat) as [His|His].
    + rewrite Hold by lia. unfold s in *. ring_cases.
    + destruct (decide (i = s)) as [->|His'].
      * rewrite Hh3, decide_False by lia. rewrite Hh2, decide_False by lia.
        rewrite Hh1a. unfold L, aj, an, s in *. ring_cases.
        all: try (rewrite <- (node_at_head hd nodes); f_equal; lia).
      * rewrite Hold by lia. unfold s in *. ring_cases.
Qed.
End RingInsert.

Section RingLoops.
Implicit Types (h : heap) (hd : nat) (nodes : list nat) (vals : list ascii).

(** One round of the loop that inserts cells: the new link goes after
    the current one and becomes the current one. *)
Lemma ring_insert_step h hd nodes vals j v :
  ring h hd nodes vals -> (j <= length nodes)%nat ->
  let s := succ_pos (length nodes) j in
  exists h' nodes',
    (insert_after (Some (node_at hd nodes j)) (Some v);;
     get_next (Some (node_at hd nodes j))) h =
    (Return (Some (node_at hd nodes' s)), h') /\
    length nodes' = S (length nodes) /\
    ring h' hd nodes' (take s vals ++ v :: drop s vals).
Proof.
  intros Hr Hj s.
  destruct (ring_insert_after h hd nodes vals j v Hr Hj) as (h' & Hrun & Hr').
  fold s in Hr'. set (nodes' := take s nodes ++ length h :: drop s nodes) in *.
  assert (Hs : (s <= length nodes)%nat) by (by apply succ_pos_le).
  assert (Hlen : length nodes' = S (length nodes)) by apply length_insert_at.
  exists h', nodes'. split_and!; [|done..].
  erewrite bind_run by exact Hrun.
  (* where the old current link sits in the new ring *)
  destruct (decide (j < length nodes)%nat) as [Hlt|Hge].
  - assert (Hj' : node_at hd nodes j = node_at hd nodes' j).
    { unfold nodes'. rewrite node_at_insert by done. unfold s.
      rewrite succ_pos_lt by done. by rewrite decide_True by lia. }
    rewrite Hj'. erewrite ring_next; [|done|lia].
    rewrite Hlen. unfold s. rewrite !succ_pos_lt by lia. done.
  - assert (j = length nodes) as -> by lia.
    rewrite node_at_head. rewrite <- (node_at_head hd nodes') at 1.
    erewrite ring_next; [|done|lia]. rewrite Hlen.
    unfold s, succ_pos. by rewrite !Nat.ltb_irrefl.
Qed.

(** The loop that inserts [m] cells after a cell. *)
Lemma ring_insert_loop_cell (m : nat) v : forall h hd nodes vals j,
  ring h hd nodes vals -> (j < length nodes)%nat ->
  exists h' nodes',
    iterate_m m (fun current_link =>
        insert_after current_link (Some v);; get_next current_link)
      (Some (node_at hd nodes j)) h =
    (Return (Some (node_at hd nodes' (j + m))), h') /\
    ring h' hd nodes' (take (S j) vals ++ replicate m v ++ drop (S j) vals).
Proof.
  induction m as [|m IH]; intros h hd nodes vals j Hr Hj; simpl.
  - exists h, nodes. rewrite Nat.add_0_r, take_drop. done.
  - destruct (ring_insert_step h hd nodes vals j v Hr) as (h1 & nodes1 & Hrun & Hlen & Hr1);
      [lia|].
    rewrite succ_pos_lt in Hrun, Hr1 by done.
    destruct (IH h1 hd nodes1 _ (S j) Hr1) as (h2 & nodes2 & Hrun2 & Hr2); [lia|].
    exists h2, nodes2. split.
    + erewrite bind_run by exact Hrun. rewrite Hrun2.
      by replace (S j + m)%nat with (j + S m)%nat by lia.
    + pose proof (ring_length _ _ _ _ Hr).
      rewrite (take_app_ge _ _ (S (S j))) in Hr2 by (rewrite length_take; lia).
      rewrite (drop_app_ge _ _ (S (S j))) in Hr2 by (rewrite length_take; lia).
      rewrite length_take, Nat.min_l in Hr2 by lia.
      replace (S (S j) - S j)%nat with 1%nat in Hr2 by lia.
      simpl in Hr2. rewrite <- app_assoc in Hr2. exact Hr2.
Qed.

(** The same loop started at the head of an empty ring. *)
Lemma ring_insert_loop_empty (m : nat) v h hd :
  ring h hd [] [] ->
  exists h' nodes',
    iterate_m m (fun current_link =>
        insert_after current_link (Some v);; get_next current_link)
      (Some hd) h =
    (Return (Some (node_at hd nodes' (m - 1))), h') /\
    ring h' hd nodes' (replicate m v).
Proof.
  intros Hr. destruct m as [|m]; simpl.
  - by exists h, [].
  - destruct (ring_insert_step h hd [] [] 0 v Hr) as (h1 & nodes1 & Hrun & Hlen & Hr1);
      [simpl; lia|].
    simpl in *. change (succ_pos 0 0) with 0%nat in *. simpl in *.
    destruct (ring_insert_loop_cell m v h1 hd nodes1 [v] 0 Hr1) as (h2 & nodes2 & Hrun2 & Hr2);
      [lia|].
    exists h2, nodes2. split.
    + erewrite bind_run by exact Hrun. rewrite Hrun2.
      by replace (m - 0)%nat with (0 + m)%nat by lia.
    + simpl in Hr2. by rewrite app_nil_r in Hr2.
Qed.

(** The loop of [__str__]. *)
Lemma ring_collect h hd nodes vals (n : nat) : forall j acc,
  ring h hd nodes vals -> (j + n <= length nodes)%nat ->
  iterate_m n (fun '(links, pos) =>
      v ← get_val pos; pos ← get_next pos; mret (links ++ [v], pos))
    (acc, Some (node_at hd nodes j)) h =
  (Return (acc ++ (Some <$> take n (drop j vals)), Some (node_at hd nodes (j + n))), h).
Proof.
  induction n as [|n IH]; intros j acc Hr Hj; simpl.
  - by rewrite Nat.add_0_r, app_nil_r.
  - pose proof (ring_length _ _ _ _ Hr) as Hlen.
    destruct (lookup_lt_is_Some_2 vals j) as [v Hv]; [lia|].
    erewrite bind_run.
    2:{ erewrite bind_run by (eapply get_val_run, Hr; lia).
        erewrite bind_run by (eapply ring_next; [done | lia]). done. }
    simpl. rewrite succ_pos_lt by lia. rewrite IH by (done || lia).
    rewrite Hv, <- app_assoc. simpl.
    rewrite (drop_S _ v j) by done. simpl.
    by replace (S (j + n))%nat with (j + S n)%nat by lia.
Qed.

Lemma join_Some (l : list ascii) : join (Some <$> l) = Some (string_of_list_ascii l).
Proof.
  induction l as [|c l IH]; [done|].
  rewrite fmap_cons. cbn [join]. by rewrite IH.
Qed.
End RingLoops.

(** ** LinkedListGenome: what each method computes *)
Section LinkedMethods.
Import LinkedListGenome.
Implicit Types (g : t) (vals : list ascii).

Lemma on_links_run {A} (c : M heap A) g r h' :
  c (links g) = (r, h') -> on_links c g = (r, set_links (fun _ => h') g).
Proof. intros Hc. unfold on_links. by rewrite Hc. Qed.

Lemma linked_lookup_te_run te g :
  lookup_te te g =
  match dict_get te (te_identities g) with
  | Some r => (Return r, g)
  | None => (Raise KeyError, g)
  end.
Proof. unfold lookup_te. unfold_m. by destruct (dict_get _ _). Qed.

Lemma linked_pop_te_run te g :
  pop_te te g =
  match dict_get te (te_identities g) with
  | Some r => (Return r, set_te_identities (dict_remove te) g)
  | None => (Raise KeyError, g)
  end.
Proof.
  unfold pop_te. unfold_m. rewrite linked_lookup_te_run.
  by destruct (dict_get _ _).
Qed.

Lemma len_linked_fill s e vals :
  (Z.to_nat s + Z.to_nat (e - s) <= Datatypes.length vals)%nat ->
  len (linked_fill s e vals) = len vals.
Proof.
  intros. unfold linked_fill, len.
  rewrite !length_app, length_take, length_drop, length_replicate. lia.
Qed.

Lemma linked_range_fits n c id s e vals :
  linked_range_in n c (id, (s, e)) -> n = len vals ->
  (Z.to_nat s + Z.to_nat (e - s) <= Datatypes.length vals)%nat.
Proof. unfold linked_range_in, len. simpl. lia. Qed.

Lemma linked_disable_te_unknown te g :
  dict_get te (te_identities g) = None -> disable_te te g = (Raise KeyError, g).
Proof.
  intros Hget. unfold disable_te.
  erewrite bind_raise; [done|]. by rewrite linked_lookup_te_run, Hget.
Qed.

Lemma linked_disable_te_run te g hd nodes vals s e :
  head g = Some hd -> ring (links g) hd nodes vals ->
  dict_get te (te_identities g) = Some (s, e) ->
  (Z.to_nat s + Z.to_nat (e - s) <= Datatypes.length vals)%nat ->
  exists h',
    disable_te te g =
    (Return tt, mk h' (head g) (length g)
                   (dict_remove te (te_identities g)) (te_count g)) /\
    ring h' hd nodes (linked_fill s e vals).
Proof.
  intros Hhd Hr Hget Hfit. pose proof (ring_length _ _ _ _ Hr) as Hlen.
  destruct (ring_fill (links g) hd nodes (Z.to_nat (e - s)) vals (Z.to_nat s) Hr)
    as (h' & Hfill & Hr'); [lia|].
  exists h'. split; [|done]. unfold disable_te.
  erewrite bind_run by (by rewrite linked_lookup_te_run, Hget).
  erewrite bind_run by (by rewrite linked_pop_te_run, Hget).
  cbv beta iota.
  erewrite bind_run by done. simpl. rewrite Hhd.
  erewrite bind_run.
  2:{ eapply on_links_run. simpl. rewrite <- (node_at_head hd nodes) at 1.
      eapply ring_next; [done | lia]. }
  erewrite bind_run.
  2:{ eapply on_links_run. simpl.
      replace (succ_pos (Datatypes.length nodes) (Datatypes.length nodes)) with 0%nat
        by (unfold succ_pos; by rewrite Nat.ltb_irrefl).
      eapply ring_advance; [done | lia]. }
  erewrite bind_run.
  2:{ eapply on_links_run. simpl. unfold for_range_with. exact Hfill. }
  unfold mret, M_ret, set_links, set_te_identities. simpl. by rewrite Hhd.
Qed.
End LinkedMethods.

Section LinkedInsert.
Import LinkedListGenome.
Implicit Types (g : t) (vals : list ascii).

Lemma len_linked_sweep_cells pos c d : forall vals,
  Forall (linked_range_in (len vals) c) d ->
  len (linked_sweep_cells pos d vals) = len vals.
Proof.
  induction d as [|[id [s e]] d IH]; intros vals Hd; simpl; [done|].
  apply Forall_cons in Hd as [Hr Hd].
  destruct ((s <=? pos) && (pos <? e)); [|by apply IH].
  pose proof (linked_range_fits _ _ _ _ _ vals Hr eq_refl).
  rewrite IH; rewrite len_linked_fill by done; done.
Qed.

Lemma linked_insert_te_loop pos l hd nodes items : forall pre g vals,
  head g = Some hd -> ring (links g) hd nodes vals ->
  te_identities g = pre ++ items ->
  NoDup (dict_keys (pre ++ items)) ->
  Forall (linked_range_in (len vals) (te_count g)) items ->
  exists h',
    for_each items (insert_te_body pos l) g =
    (Return tt, mk h' (head g) (length g)
                   (pre ++ sweep_registry pos l items) (te_count g)) /\
    ring h' hd nodes (linked_sweep_cells pos items vals).
Proof.
  induction items as [|[id [s e]] items IH]; intros pre g vals Hhd Hr Hd Hnd Hin.
  - exists (links g). rewrite app_nil_r in *. simpl. rewrite <- Hd.
    split; [by destruct g | done].
  - assert (Hid : id ∉ dict_keys pre).
    { rewrite dict_keys_app in Hnd. apply NoDup_app in Hnd as (_ & Hnd & _).
      intros Hx. apply (Hnd _ Hx). simpl. left. }
    apply Forall_cons in Hin as [Hrange Hin].
    simpl. unfold insert_te_body at 1.
    destruct ((s <=? pos) && (pos <? e)) eqn:Hc.
    + pose proof (linked_range_fits _ _ _ _ _ vals Hrange eq_refl) as Hfit.
      destruct (linked_disable_te_run id g hd nodes vals s e) as (h1 & Hrun & Hr1);
        [done | done | by rewrite Hd, dict_get_middle | done |].
      rewrite Hd, dict_remove_middle in Hrun by done.
      destruct (IH pre (mk h1 (head g) (length g) (pre ++ items) (te_count g))
                  (linked_fill s e vals)) as (h2 & Hrun2 & Hr2); simpl; try done.
      * rewrite dict_keys_app in *. simpl in Hnd.
        apply NoDup_app in Hnd as (Hn1 & Hn2 & [Hn3 Hn4]%NoDup_cons).
        apply NoDup_app. split_and!; [done| |done].
        intros x Hx Hx'. apply (Hn2 x Hx). by right.
      * by rewrite len_linked_fill.
      * exists h2. split; [|done]. erewrite bind_run by exact Hrun. exact Hrun2.
    + destruct (s >? pos) eqn:Hs.
      * destruct (IH (pre ++ [(id, (s + l, e + l))])
                    (set_te_identities (dict_set id (s + l, e + l)) g) vals)
          as (h2 & Hrun2 & Hr2); simpl; try done.
        -- rewrite Hd, dict_set_middle by done. by rewrite <- app_assoc.
        -- rewrite <- app_assoc. simpl. by rewrite dict_keys_app in *.
        -- exists h2. split; [|done]. erewrite bind_run by done.
           etrans; [exact Hrun2|]. simpl. by rewrite <- app_assoc.
      * destruct (IH (pre ++ [(id, (s, e))]) g vals) as (h2 & Hrun2 & Hr2);
          simpl; try done.
        -- rewrite Hd. by rewrite <- app_assoc.
        -- by rewrite <- app_assoc.
        -- exists h2. split; [|done]. erewrite bind_run by done.
           etrans; [exact Hrun2|]. simpl. by rewrite <- app_assoc.
Qed.

Lemma linked_insert_te_out_of_range pos l g :
  pos > length g -> insert_te pos l g = (Raise ValueError, g).
Proof.
  intros. unfold insert_te. unfold_m.
  destruct (Z.gtb_spec pos (length g)); [done | lia].
Qed.

(** [insert_te] at a position that passes the range check. *)
Lemma linked_insert_te_run pos l g vals :
  linked_wf g vals -> pos <= length g -> 0 <= l ->
  exists h',
    insert_te pos l g =
    (Return (te_count g + 1),
     mk h' (head g) (length g + l)
        (dict_set (te_count g + 1) (pos, pos + l)
                  (sweep_registry pos l (te_identities g)))
        (te_count g + 1)) /\
    linked_cells (mk h' (head g) (length g + l) [] 0)
      (linked_splice pos l (linked_sweep_cells pos (te_identities g) vals)).
Proof.
  intros [(hd & nodes & Hhd & Hr) Hlen Hnd Hranges Hc] Hpos Hl.
  rewrite Hlen in Hranges.
  destruct (linked_insert_te_loop pos l hd nodes (te_identities g) [] g vals)
    as (h1 & Hloop & Hr1); try done.
  remember (linked_sweep_cells pos (te_identities g) vals) as vals1 eqn:Hv1.
  assert (Hlen1 : len vals1 = len vals) by (subst vals1; by eapply len_linked_sweep_cells).
  pose proof (ring_length _ _ _ _ Hr1) as Hnodes.
  (* the loop that inserts the cells *)
  assert (exists h' nodes' last,
    iterate_m (Z.to_nat l) (fun current_link =>
        insert_after current_link (Some sym_active);; get_next current_link)
      (Some (node_at hd nodes (Z.to_nat (pos - 1)))) h1 = (Return last, h') /\
    ring h' hd nodes' (linked_splice pos l vals1)) as (h' & nodes' & last & Hins & Hr').
  { clear Hv1. unfold linked_splice. destruct vals1 as [|v vals2].
    - destruct nodes; [|done].
      destruct (ring_insert_loop_empty (Z.to_nat l) sym_active h1 hd Hr1)
        as (h' & nodes' & Hins & Hr').
      exists h', nodes', (Some (node_at hd nodes' (Z.to_nat l - 1))). split; [|done].
      unfold node_at. by rewrite lookup_nil.
    - destruct (ring_insert_loop_cell (Z.to_nat l) sym_active h1 hd nodes
                  (v :: vals2) (Z.to_nat (pos - 1)) Hr1)
        as (h' & nodes' & Hins & Hr').
      { unfold len in *. simpl in *. lia. }
      by exists h', nodes', (Some (node_at hd nodes' (Z.to_nat (pos - 1) + Z.to_nat l))). }
  exists h'. split; [|by exists hd, nodes'].
  unfold insert_te.
  erewrite bind_run by done.
  destruct (Z.gtb_spec pos (length g)); [lia|].
  erewrite bind_run by done.
  erewrite bind_run by exact Hloop.
  erewrite bind_run by done.
  erewrite bind_run by done.
  erewrite bind_run by done.
  erewrite bind_run by done. simpl. rewrite Hhd.
  erewrite bind_run.
  2:{ eapply on_links_run. simpl. rewrite <- (node_at_head hd nodes) at 1.
      eapply ring_next; [done | lia]. }
  erewrite bind_run.
  2:{ eapply on_links_run. simpl.
      replace (succ_pos (Datatypes.length nodes) (Datatypes.length nodes)) with 0%nat
        by (unfold succ_pos; by rewrite Nat.ltb_irrefl).
      eapply ring_advance; [done|]. unfold len in *. lia. }
  erewrite bind_run.
  2:{ eapply on_links_run. simpl. unfold for_range_with. exact Hins. }
  erewrite bind_run by done. done.
Qed.
End LinkedInsert.

Section LinkedOther.
Import LinkedListGenome.
Implicit Types (g : t) (vals : list ascii).

Lemma linked_copy_te_run te offset g :
  copy_te te offset g =
  match dict_get te (te_identities g) with
  | Some (s, e) =>
      let p := if offset >? 0 then s + offset
               else if s + offset <? 0 then length g + s + offset
               else s + offset in
      match insert_te p (e - s) g with
      | (Return id, g') => (Return (Some id), g')
      | (Raise ex, g') => (Raise ex, g')
      end
  | None => (Return None, g)
  end.
Proof.
  unfold copy_te. unfold_m.
  destruct (dict_mem te (te_identities g)) eqn:Hmem; simpl.
  - apply dict_mem_keys, dict_get_keys in Hmem as [[s e] Hget].
    rewrite linked_lookup_te_run, Hget.
    by destruct (offset >? 0), (s + offset <? 0).
  - destruct (dict_get te (te_identities g)) as [[s e]|] eqn:Hget; [|done].
    assert (dict_mem te (te_identities g) = true); [|congruence].
    apply dict_mem_keys, dict_get_keys. eauto.
Qed.

(** [__str__] returns the cells of the ring. *)
Lemma linked_render_run g vals :
  linked_wf g vals -> render g = (Return (string_of_list_ascii vals), g).
Proof.
  intros [(hd & nodes & Hhd & Hr) Hlen _ _ _].
  pose proof (ring_length _ _ _ _ Hr) as Hnodes.
  assert (Hg : set_links (fun _ => links g) g = g) by (by destruct g).
  unfold render.
  erewrite bind_run by done. rewrite Hhd.
  erewrite bind_run.
  2:{ eapply on_links_run. rewrite <- (node_at_head hd nodes) at 1.
      eapply ring_next; [done | lia]. }
  rewrite Hg.
  replace (succ_pos (Datatypes.length nodes) (Datatypes.length nodes)) with 0%nat
    by (unfold succ_pos; by rewrite Nat.ltb_irrefl).
  erewrite bind_run by done.
  erewrite bind_run.
  2:{ eapply on_links_run. unfold for_range_with.
      eapply ring_collect; [done|]. unfold len in *. lia. }
  rewrite Hg. cbv beta iota. simpl. rewrite drop_0.
  rewrite take_ge by (unfold len in *; lia).
  by rewrite join_Some.
Qed.

Lemma succ_pred_pos_head K : succ_pos K (pred_pos K K) = K.
Proof.
  unfold succ_pos, pred_pos. destruct (Nat.eqb_spec K 0) as [->|]; [done|].
  destruct (Nat.ltb_spec (K - 1) K); lia.
Qed.

(** The loop of the constructor appends cells. *)
Lemma linked_init_loop hd (m : nat) : forall g nodes vals,
  ring (links g) hd nodes vals ->
  exists h' nodes',
    repeat_m m (on_links (last ← get_prev (Some hd);
                          insert_after last (Some sym_empty))) g =
    (Return tt, set_links (fun _ => h') g) /\
    ring h' hd nodes' (vals ++ replicate m sym_empty).
Proof.
  induction m as [|m IH]; intros g nodes vals Hr; simpl.
  - exists (links g), nodes. rewrite app_nil_r. split; [by destruct g | done].
  - pose proof (ring_length _ _ _ _ Hr) as Hlen.
    set (K := Datatypes.length nodes) in *.
    destruct (ring_insert_after (links g) hd nodes vals (pred_pos K K) sym_empty Hr)
      as (h1 & Hrun & Hr1); [by apply pred_pos_le|].
    fold K in Hr1.
    rewrite succ_pred_pos_head in Hr1.
    rewrite !take_ge, !drop_ge in Hr1 by lia.
    destruct (IH (set_links (fun _ => h1) g) _ _ Hr1) as (h2 & nodes2 & Hrun2 & Hr2).
    exists h2, nodes2. split.
    + erewrite bind_run.
      2:{ eapply on_links_run. erewrite bind_run; [exact Hrun|].
          rewrite <- (node_at_head hd nodes) at 1.
          eapply ring_prev; [done | lia]. }
      rewrite Hrun2. reflexivity.
    + rewrite <- app_assoc in Hr2. exact Hr2.
Qed.

Lemma linked_wf_init n : 0 <= n -> linked_wf (init n) (py_repeat n sym_empty).
Proof.
  intros Hn. unfold init, init_m.
  set (g0 := mk [mkLink None (Some 0%nat) (Some 0%nat)] (Some 0%nat) n [] 0).
  assert (Hr0 : ring (links g0) 0 [] []).
  { split; [apply NoDup_singleton | done |].
    intros j Hj. simpl in Hj. by assert (j = 0%nat) as -> by lia. }
  destruct (linked_init_loop 0 (Z.to_nat n) g0 [] [] Hr0) as (h' & nodes' & Hrun & Hr').
  unfold for_range. unfold_m. simpl.
  match goal with
  | |- linked_wf (repeat_m _ _ ?s).2 _ => change s with g0
  end.
  rewrite Hrun. simpl. split; simpl.
  - by exists 0%nat, nodes'.
  - rewrite len_py_repeat; done.
  - constructor.
  - constructor.
  - done.
Qed.
End LinkedOther.

(** ** LinkedListGenome: well-formedness is kept *)
Section LinkedWf.
Import LinkedListGenome.
Implicit Types (g : t) (vals : list ascii).

Lemma linked_sweep_registry_ranges pos l n c d :
  0 <= l -> 0 <= n ->
  Forall (linked_range_in n c) d ->
  Forall (linked_range_in (n + l) (c + 1)) (sweep_registry pos l d).
Proof.
  intros Hl Hn. induction 1 as [|[id [s e]] d (Hid & Hse & He & Hlen) _ IH]; simpl; [done|].
  simpl in *.
  destruct ((s <=? pos) && (pos <? e)); [|destruct (s >? pos)]; auto;
    constructor; auto; unfold linked_range_in; simpl; lia.
Qed.

Lemma len_linked_splice pos l vals :
  pos <= len vals -> 0 <= l -> len (linked_splice pos l vals) = len vals + l.
Proof.
  intros Hpos Hl. unfold linked_splice. destruct vals as [|v vals].
  - by rewrite len_py_repeat.
  - unfold len in *. rewrite !length_app, length_take, length_drop.
    unfold py_repeat. rewrite length_replicate. simpl in *. lia.
Qed.

Lemma linked_cells_ext g g' vals :
  links g = links g' -> head g = head g' ->
  linked_cells g vals -> linked_cells g' vals.
Proof. intros Hl Hh (hd & nodes & ? & ?). exists hd, nodes. by rewrite <- Hl, <- Hh. Qed.

(** [insert_te] at a position that passes the range check: the state
    it leaves. *)
Lemma linked_insert_te_spec pos l g vals :
  linked_wf g vals -> pos <= length g -> 0 <= l ->
  exists g',
    insert_te pos l g = (Return (te_count g + 1), g') /\
    length g' = length g + l /\
    te_identities g' =
      dict_set (te_count g + 1) (pos, pos + l)
               (sweep_registry pos l (te_identities g)) /\
    te_count g' = te_count g + 1 /\
    linked_wf g' (linked_splice pos l (linked_sweep_cells pos (te_identities g) vals)).
Proof.
  intros Hwf Hpos Hl.
  destruct (linked_insert_te_run pos l g vals Hwf Hpos Hl) as (h' & Hrun & Hcells).
  destruct Hwf as [Hc Hlen Hnd Hranges Hcount].
  eexists. split; [exact Hrun|]. simpl. split_and!; try done.
  assert (Hfresh : te_count g + 1 ∉ dict_keys (sweep_registry pos l (te_identities g))).
  { intros Hin%sweep_registry_keys.
    apply list_elem_of_fmap in Hin as ([k r] & Heq & Hin).
    rewrite Forall_forall in Hranges. apply Hranges in Hin as [? _]. simpl in *. lia. }
  pose proof (len_nonneg vals).
  split; simpl.
  - by eapply linked_cells_ext, Hcells.
  - rewrite len_linked_splice; [|erewrite len_linked_sweep_cells|done].
    + erewrite len_linked_sweep_cells; [lia|]. by rewrite <- Hlen.
    + lia.
    + by rewrite <- Hlen.
  - rewrite dict_set_fresh by done.
    rewrite dict_keys_app. apply NoDup_app. split_and!.
    + by apply sweep_registry_NoDup.
    + intros x Hx [->|[]%elem_of_nil]%elem_of_cons. done.
    + apply NoDup_singleton.
  - rewrite dict_set_fresh by done.
    apply Forall_app. split; [apply linked_sweep_registry_ranges; (done || lia)|].
    apply Forall_singleton. unfold linked_range_in. simpl. lia.
  - lia.
Qed.

Lemma linked_disable_te_spec te g vals s e :
  linked_wf g vals -> dict_get te (te_identities g) = Some (s, e) ->
  exists g',
    disable_te te g = (Return tt, g') /\
    length g' = length g /\
    te_identities g' = dict_remove te (te_identities g) /\
    te_count g' = te_count g /\
    linked_wf g' (linked_fill s e vals).
Proof.
  intros [(hd & nodes & Hhd & Hr) Hlen Hnd Hranges Hcount] Hget.
  pose proof Hranges as Hr'. rewrite Forall_forall in Hr'.
  pose proof (Hr' _ (dict_get_elem _ _ _ Hget)) as Hrange.
  pose proof (linked_range_fits _ _ _ _ _ vals Hrange Hlen) as Hfit.
  destruct (linked_disable_te_run te g hd nodes vals s e Hhd Hr Hget Hfit)
    as (h' & Hrun & Hring).
  eexists. split; [exact Hrun|]. simpl. split_and!; try done.
  split; simpl.
  - by exists hd, nodes.
  - by rewrite len_linked_fill.
  - by apply dict_remove_NoDup.
  - apply Forall_forall. intros [k r] Hin. apply Hr'.
    apply dict_get_elem.
    pose proof (dict_get_remove te k (te_identities g) Hnd) as Hrem.
    rewrite (elem_dict_get k r) in Hrem; [|by apply dict_remove_NoDup|done].
    destruct (te =? k); [done | by symmetry].
  - done.
Qed.

Lemma linked_wf_insert_te pos l g vals :
  0 <= l -> linked_wf g vals -> exists vals', linked_wf (insert_te pos l g).2 vals'.
Proof.
  intros Hl Hwf. destruct (Z.gtb_spec pos (length g)).
  - rewrite linked_insert_te_out_of_range by lia. by exists vals.
  - destruct (linked_insert_te_spec pos l g vals) as (g' & -> & _ & _ & _ & Hwf'); eauto.
Qed.

Lemma linked_wf_disable_te te g vals :
  linked_wf g vals -> exists vals', linked_wf (disable_te te g).2 vals'.
Proof.
  intros Hwf. destruct (dict_get te (te_identities g)) as [[s e]|] eqn:Hget.
  - destruct (linked_disable_te_spec te g vals s e) as (g' & -> & _ & _ & _ & Hwf'); eauto.
  - rewrite linked_disable_te_unknown by done. by exists vals.
Qed.

Lemma linked_wf_copy_te te offset g vals :
  linked_wf g vals -> exists vals', linked_wf (copy_te te offset g).2 vals'.
Proof.
  intros Hwf. rewrite linked_copy_te_run.
  destruct (dict_get te (te_identities g)) as [[s e]|] eqn:Hget; [|by exists vals].
  assert (0 <= e - s).
  { destruct Hwf as [_ _ _ Hr _]. rewrite Forall_forall in Hr.
    destruct (Hr _ (dict_get_elem _ _ _ Hget)) as (? & ? & ?). simpl in *. lia. }
  cbv zeta.
  match goal with |- context [insert_te ?p ?l g] =>
    pose proof (linked_wf_insert_te p l g vals) as Hins;
    destruct (insert_te p l g) as [[id|ex] g'] end; simpl in *; auto.
Qed.
End LinkedWf.

(** ** Rendered strings *)
Section StringFacts.
Lemma length_string_of_list (l : list ascii) :
  String.length (string_of_list_ascii l) = Datatypes.length l.
Proof. induction l as [|c l IH]; simpl; [done | by rewrite IH]. Qed.

Lemma get_string_of_list (l : list ascii) (i : nat) :
  String.get i (string_of_list_ascii l) = l !! i.
Proof.
  revert i. induction l as [|c l IH]; intros [|i]; simpl; auto.
Qed.

Lemma char_at_string_of_list (l : list ascii) (i : Z) :
  0 <= i -> char_at (string_of_list_ascii l) i = l !! Z.to_nat i.
Proof.
  intros. unfold char_at. destruct (Z.ltb_spec i 0); [lia|].
  apply get_string_of_list.
Qed.
End StringFacts.

(** * The claims of the specification *)

(** C1 (cross-implementation equivalence) fails on the code: on a genome
    of two cells, [insert_te(0, 1)] makes the list variant render ["A--"]
    and the linked variant render ["-A-"], although both register the new
    TE at [(0, 1)]. *)
Theorem C1_variants_render_differently :
  let script := [InsertTe 0 1] in
  observe (run_script script (ListGenome.init 2)) = (Return "A--"%string, [1], 3) /\
  observe (run_script script (LinkedListGenome.init 2)) = (Return "-A-"%string, [1], 3) /\
  ListGenome.te_identities (run_script script (ListGenome.init 2)) = [(1, (0, 1))] /\
  LinkedListGenome.te_identities (run_script script (LinkedListGenome.init 2)) = [(1, (0, 1))].
Proof. vm_compute. done. Qed.

(** C2 (disabling an unknown or inactive TE is a no-op) fails on the
    code: in both variants [disable_te] of an id that was never issued
    raises [KeyError], and so does the second of two [disable_te] calls on
    the same id. *)
Theorem C2_disable_te_raises_KeyError :
  (ListGenome.disable_te 1 (ListGenome.init 3)).1 = Raise KeyError /\
  (LinkedListGenome.disable_te 1 (LinkedListGenome.init 3)).1 = Raise KeyError /\
  (let g := run_script [InsertTe 1 2; DisableTe 1] (ListGenome.init 3) in
   (ListGenome.disable_te 1 g).1 = Raise KeyError) /\
  (let g := run_script [InsertTe 1 2; DisableTe 1] (LinkedListGenome.init 3) in
   (LinkedListGenome.disable_te 1 g).1 = Raise KeyError).
Proof. vm_compute. done. Qed.

(** C4 (copy_te never fails for an active TE) fails on the code: on a
    genome of length 10 with the active TE 1 at [(1, 3)], the copy at offset
    [-5] goes to position 6 as the claim says, but the copy at offset [10]
    (target 11, past the end) raises [ValueError] in both variants instead
    of wrapping around. *)
Theorem C4_copy_te_past_the_end_raises :
  let gl := run_script [InsertTe 1 2] (ListGenome.init 8) in
  let gk := run_script [InsertTe 1 2] (LinkedListGenome.init 8) in
  (ListGenome.length gl = 10 /\ ListGenome.te_identities gl = [(1, (1, 3))] /\
   LinkedListGenome.length gk = 10 /\ LinkedListGenome.te_identities gk = [(1, (1, 3))]) /\
  ((ListGenome.copy_te 1 (-5) gl).1 = Return (Some 2) /\
   ListGenome.te_identities (ListGenome.copy_te 1 (-5) gl).2 = [(1, (1, 3)); (2, (6, 8))] /\
   (LinkedListGenome.copy_te 1 (-5) gk).1 = Return (Some 2) /\
   LinkedListGenome.te_identities (LinkedListGenome.copy_te 1 (-5) gk).2
     = [(1, (1, 3)); (2, (6, 8))]) /\
  ((ListGenome.copy_te 1 10 gl).1 = Raise ValueError /\
   (LinkedListGenome.copy_te 1 10 gk).1 = Raise ValueError).
Proof. vm_compute. done. Qed.

(** C5 (the cells rendered 'A' are exactly the registered ranges) fails on
    the code in the linked variant: after [insert_te(0, 1)] on two cells
    the only active TE is registered at [(0, 1)], but index 0 renders '-'
    and index 1, which no range covers, renders 'A'. *)
Theorem C5_linked_active_cells_off_by_one :
  let g := run_script [InsertTe 0 1] (LinkedListGenome.init 2) in
  LinkedListGenome.active_tes g = [1] /\
  LinkedListGenome.te_identities g = [(1, (0, 1))] /\
  exists s, (LinkedListGenome.render g).1 = Return s /\
    char_at s 0 = Some sym_empty /\ char_at s 1 = Some sym_active.
Proof. vm_compute. split_and!; try done. by eexists. Qed.

(** ** Scripts keep the genome well-formed *)
Section Scripts.
Lemma bind_mret_state {S A B} (c : M S A) (f : A -> B) (s : S) :
  ((x ← c; mret (f x)) s).2 = (c s).2.
Proof. unfold mbind, M_bind, mret, M_ret. by destruct (c s) as [[a|e] s']. Qed.

Lemma run_state_list (o : op) (g : ListGenome.t) :
  (run o g).2 =
  match o with
  | InsertTe pos l => (ListGenome.insert_te pos l g).2
  | CopyTe te offset => (ListGenome.copy_te te offset g).2
  | DisableTe te => (ListGenome.disable_te te g).2
  end.
Proof. destruct o; apply bind_mret_state. Qed.

Lemma run_state_linked (o : op) (g : LinkedListGenome.t) :
  (run o g).2 =
  match o with
  | InsertTe pos l => (LinkedListGenome.insert_te pos l g).2
  | CopyTe te offset => (LinkedListGenome.copy_te te offset g).2
  | DisableTe te => (LinkedListGenome.disable_te te g).2
  end.
Proof. destruct o; apply bind_mret_state. Qed.

Lemma list_wf_run o g : op_ok o -> list_wf g -> list_wf (run o g).2.
Proof.
  intros Hok Hwf. rewrite run_state_list. destruct o; simpl in Hok.
  - by apply list_wf_insert_te.
  - by apply list_wf_copy_te.
  - by apply list_wf_disable_te.
Qed.

Lemma linked_wf_run o g vals :
  op_ok o -> linked_wf g vals -> exists vals', linked_wf (run o g).2 vals'.
Proof.
  intros Hok Hwf. rewrite run_state_linked. destruct o; simpl in Hok.
  - by eapply linked_wf_insert_te.
  - by eapply linked_wf_copy_te.
  - by eapply linked_wf_disable_te.
Qed.

Lemma list_wf_run_script ops : forall g,
  Forall op_ok ops -> list_wf g -> list_wf (run_script ops g).
Proof.
  induction ops as [|o ops IH]; intros g Hok Hwf; [done|].
  apply Forall_cons in Hok as [Ho Hok]. simpl.
  apply IH; [done|]. by apply list_wf_run.
Qed.

Lemma linked_wf_run_script ops : forall g vals,
  Forall op_ok ops -> linked_wf g vals ->
  exists vals', linked_wf (run_script ops g) vals'.
Proof.
  induction ops as [|o ops IH]; intros g vals Hok Hwf; [by exists vals|].
  apply Forall_cons in Hok as [Ho Hok]. simpl.
  destruct (linked_wf_run o g vals Ho Hwf) as [vals1 Hwf1]. by eapply IH.
Qed.

(** Every state a script reaches from a constructor is well-formed. *)
Lemma list_wf_reachable n ops :
  Forall op_ok ops -> list_wf (run_script ops (ListGenome.init n)).
Proof. intros. apply list_wf_run_script; [done | apply list_wf_init]. Qed.

Lemma linked_wf_reachable n ops :
  0 <= n -> Forall op_ok ops ->
  exists vals, linked_wf (run_script ops (LinkedListGenome.init n)) vals.
Proof. intros. eapply linked_wf_run_script; [done | by apply linked_wf_init]. Qed.
End Scripts.

(** In a well-formed state only issued ids are active. *)
Lemma list_active_issued g te :
  list_wf g -> te ∈ ListGenome.active_tes g -> 1 <= te <= ListGenome.te_count g.
Proof.
  intros [_ Hr _] Hin. apply list_elem_of_fmap in Hin as ([k r] & -> & Hin).
  rewrite Forall_forall in Hr. by apply Hr in Hin as [? _].
Qed.

Lemma linked_active_issued g vals te :
  linked_wf g vals -> te ∈ LinkedListGenome.active_tes g ->
  1 <= te <= LinkedListGenome.te_count g.
Proof.
  intros [_ _ _ Hr _] Hin. apply list_elem_of_fmap in Hin as ([k r] & -> & Hin).
  rewrite Forall_forall in Hr. by apply Hr in Hin as [? _].
Qed.

(** C8: in both variants, [copy_te] of an id that was never issued (it is
    not among the ids [1 .. te_count] handed out so far) or that is no
    longer active returns [None] and leaves the genome as it is, so that
    [render()], [active_tes()] and [length()] are unchanged. *)
Theorem C8_copy_te_of_inactive_is_noop
    (gl : ListGenome.t) (gk : LinkedListGenome.t) (vals : list ascii)
    (te offset : Z) :
  list_wf gl -> linked_wf gk vals ->
  (te < 1 \/ ListGenome.te_count gl < te \/ te ∉ ListGenome.active_tes gl) ->
  (te < 1 \/ LinkedListGenome.te_count gk < te \/ te ∉ LinkedListGenome.active_tes gk) ->
  (ListGenome.copy_te te offset gl = (Return None, gl) /\
   observe (ListGenome.copy_te te offset gl).2 = observe gl) /\
  (LinkedListGenome.copy_te te offset gk = (Return None, gk) /\
   observe (LinkedListGenome.copy_te te offset gk).2 = observe gk).
Proof.
  intros Hwfl Hwfk Hl Hk.
  assert (Hnl : dict_get te (ListGenome.te_identities gl) = None).
  { apply dict_get_None. intros Hin.
    pose proof (list_active_issued gl te Hwfl Hin).
    destruct Hl as [?|[?|?]]; [lia | lia | done]. }
  assert (Hnk : dict_get te (LinkedListGenome.te_identities gk) = None).
  { apply dict_get_None. intros Hin.
    pose proof (linked_active_issued gk vals te Hwfk Hin).
    destruct Hk as [?|[?|?]]; [lia | lia | done]. }
  rewrite list_copy_te_run, linked_copy_te_run, Hnl, Hnk. done.
Qed.

Lemma C8_copy_te_of_inactive_is_noop_witness :
  let gl := run_script [InsertTe 1 2; DisableTe 1] (ListGenome.init 3) in
  let gk := run_script [InsertTe 1 2; DisableTe 1] (LinkedListGenome.init 3) in
  (ListGenome.copy_te 1 2 gl = (Return None, gl) /\
   observe (ListGenome.copy_te 1 2 gl).2 = observe gl) /\
  (LinkedListGenome.copy_te 1 2 gk = (Return None, gk) /\
   observe (LinkedListGenome.copy_te 1 2 gk).2 = observe gk).
Proof.
  intros gl gk.
  assert (Hok : Forall op_ok [InsertTe 1 2; DisableTe 1]).
  { repeat constructor. simpl. lia. }
  assert (Hwfl : list_wf gl) by (by apply list_wf_reachable).
  destruct (linked_wf_reachable 3 _ ltac:(lia) Hok) as [v2 H2].
  apply (C8_copy_te_of_inactive_is_noop gl gk v2 1 2 Hwfl H2).
  - right; right. vm_compute. by intros []%elem_of_nil.
  - right; right. vm_compute. by intros []%elem_of_nil.
Defined.


Lemma dict_get_set {V} (k k' : Z) (v : V) (d : dict V) :
  dict_get k' (dict_set k v d) = if k =? k' then Some v else dict_get k' d.
Proof.
  induction d as [|[k1 v1] d IH]; simpl.
  - by destruct (k =? k').
  - destruct (Z.eqb_spec k1 k) as [->|Hne]; simpl.
    + by destruct (k =? k').
    + rewrite IH. destruct (Z.eqb_spec k1 k') as [->|]; [|done].
      by destruct (Z.eqb_spec k k'); [congruence|].
Qed.

(** An entry that is not overwritten by the new id goes through the loop
    of [insert_te] as follows. *)
Lemma dict_get_after_insert (d : dict te_range) (c p l te s e : Z) :
  NoDup (dict_keys d) -> te <> c + 1 ->
  dict_get te d = Some (s, e) ->
  (p < s -> dict_get te (dict_set (c + 1) (p, p + l) (sweep_registry p l d))
            = Some (s + l, e + l)) /\
  (s <= p -> e <= p ->
   dict_get te (dict_set (c + 1) (p, p + l) (sweep_registry p l d)) = Some (s, e)).
Proof.
  intros Hnd Hne Hget.
  rewrite dict_get_set, (proj2 (Z.eqb_neq _ _)) by lia.
  rewrite dict_get_sweep_registry, Hget by done.
  split.
  - intros. destruct (Z.leb_spec s p), (Z.ltb_spec p e), (Z.gtb_spec s p); simpl; (done || lia).
  - intros. destruct (Z.leb_spec s p), (Z.ltb_spec p e), (Z.gtb_spec s p); simpl; (done || lia).
Qed.

(** C10: in the list variant, [insert_te] at a negative position [pos]
    with [-length() <= pos < 0] is not rejected: the range check lets it
    pass and the modulo maps it to [p = length() + pos].  The call returns
    the next id, registers it at [(p, p + len)] after the loop over the
    active TEs has run for the insertion point [p], splices the new cells
    in at index [p], so that the indices [p .. p + len - 1] render 'A' in a
    genome that is [len] cells longer, and it does exactly what
    [insert_te(pos + length(), len)] does. *)
Theorem C10_list_insert_te_negative_position (g : ListGenome.t) (pos l : Z) :
  list_wf g -> - ListGenome.length g <= pos < 0 ->
  let p := ListGenome.length g + pos in
  let cells := sweep_cells p (ListGenome.te_identities g) (ListGenome.genome g) in
  exists g',
    ListGenome.insert_te pos l g = (Return (ListGenome.te_count g + 1), g') /\
    ListGenome.insert_te (pos + ListGenome.length g) l g
      = (Return (ListGenome.te_count g + 1), g') /\
    0 <= p < ListGenome.length g /\
    ListGenome.te_count g' = ListGenome.te_count g + 1 /\
    ListGenome.te_identities g' =
      dict_set (ListGenome.te_count g + 1) (p, p + l)
               (sweep_registry p l (ListGenome.te_identities g)) /\
    dict_get (ListGenome.te_count g + 1) (ListGenome.te_identities g') = Some (p, p + l) /\
    ListGenome.genome g' =
      take (Z.to_nat p) cells ++ py_repeat l sym_active ++ drop (Z.to_nat p) cells /\
    ListGenome.length g' = ListGenome.length g + Z.max 0 l /\
    (forall i, p <= i < p + l -> char_at (ListGenome.render g') i = Some sym_active).
Proof.
  intros Hwf Hpos p cells. pose proof Hwf as [Hnd Hr _].
  unfold ListGenome.length in *.
  assert (Hlen : len (ListGenome.genome g) <> 0) by lia.
  assert (Hp : 0 <= p < len (ListGenome.genome g)) by (unfold p; lia).
  assert (Hmod : pos mod len (ListGenome.genome g) = p).
  { symmetry. apply (Z.mod_unique_pos _ _ (-1)); [done | unfold p; lia]. }
  assert (Hmod' : (pos + len (ListGenome.genome g)) mod len (ListGenome.genome g) = p).
  { replace (pos + len (ListGenome.genome g)) with p by (unfold p; lia).
    by apply Z.mod_small. }
  assert (Hcells : len cells = len (ListGenome.genome g)).
  { eapply len_sweep_cells, Hr. }
  rewrite !list_insert_te_run by (done || lia). rewrite Hmod, Hmod'. fold cells.
  eexists. split; [done|]. split; [done|]. split; [done|]. simpl.
  split; [done|]. split; [done|]. split; [|split; [|split]].
  - rewrite dict_get_set. by rewrite Z.eqb_refl.
  - by rewrite slice_to_in, slice_from_in by lia.
  - rewrite len_splice by lia.
    assert (Hl : len (py_repeat l sym_active) = Z.max 0 l).
    { unfold len, py_repeat. rewrite length_replicate. lia. }
    lia.
  - intros i Hi. unfold ListGenome.render. simpl.
    rewrite char_at_string_of_list by lia.
    rewrite lookup_splice by lia.
    assert (Hl : len (py_repeat l sym_active) = l) by (apply len_py_repeat; lia).
    rewrite decide_False by lia. rewrite decide_True by lia.
    apply lookup_replicate_2. lia.
Qed.

Lemma C10_list_insert_te_negative_position_witness :
  exists g',
    ListGenome.insert_te (-3) 2 (ListGenome.init 10) = (Return 1, g') /\
    ListGenome.insert_te 7 2 (ListGenome.init 10) = (Return 1, g') /\
    ListGenome.te_identities g' = [(1, (7, 9))] /\
    ListGenome.length g' = 12 /\
    char_at (ListGenome.render g') 7 = Some sym_active /\
    char_at (ListGenome.render g') 8 = Some sym_active.
Proof.
  destruct (C10_list_insert_te_negative_position (ListGenome.init 10) (-3) 2)
    as (g' & Hrun & Hrun' & _ & _ & Hd & _ & _ & Hlen & Hc).
  - apply list_wf_init.
  - vm_compute. split; [discriminate | reflexivity].
  - exists g'. split; [exact Hrun|]. split; [exact Hrun'|]. split; [exact Hd|].
    split; [exact Hlen|]. split; apply Hc; by vm_compute.
Defined.

(** The shift of the registry as each variant carries it out.  The
    concrete scenario (a genome of 10 cells, [insert_te(5, 3)] then
    [insert_te(2, 2)]) goes the same way in both variants.  In general the
    loop of [insert_te] shifts every registered range that starts after
    the position it compares with by the inserted length, and leaves every
    range that ends at or before it as it is; that position is [pos]
    reduced modulo the length in the list variant and [pos] as it is given
    in the linked variant. *)
Theorem registry_shift_of_each_variant
    (gl : ListGenome.t) (gk : LinkedListGenome.t) (vals : list ascii)
    (pos l : Z) :
  list_wf gl -> linked_wf gk vals -> 0 <= l ->
  pos <= ListGenome.length gl -> 0 < ListGenome.length gl ->
  pos <= LinkedListGenome.length gk ->
  (let l1 := run_script [InsertTe 5 3] (ListGenome.init 10) in
   let l2 := run_script [InsertTe 5 3; InsertTe 2 2] (ListGenome.init 10) in
   let k1 := run_script [InsertTe 5 3] (LinkedListGenome.init 10) in
   let k2 := run_script [InsertTe 5 3; InsertTe 2 2] (LinkedListGenome.init 10) in
   (ListGenome.insert_te 5 3 (ListGenome.init 10)).1 = Return 1 /\
   (ListGenome.insert_te 2 2 l1).1 = Return 2 /\
   (LinkedListGenome.insert_te 5 3 (LinkedListGenome.init 10)).1 = Return 1 /\
   (LinkedListGenome.insert_te 2 2 k1).1 = Return 2 /\
   observe l1 = (Return "-----AAA-----"%string, [1], 13) /\
   observe k1 = (Return "-----AAA-----"%string, [1], 13) /\
   ListGenome.te_identities l1 = [(1, (5, 8))] /\
   LinkedListGenome.te_identities k1 = [(1, (5, 8))] /\
   observe l2 = (Return "--AA---AAA-----"%string, [1; 2], 15) /\
   observe k2 = (Return "--AA---AAA-----"%string, [1; 2], 15) /\
   ListGenome.te_identities l2 = [(1, (7, 10)); (2, (2, 4))] /\
   LinkedListGenome.te_identities k2 = [(1, (7, 10)); (2, (2, 4))]) /\
  (exists id g',
     ListGenome.insert_te pos l gl = (Return id, g') /\
     forall te s e,
       dict_get te (ListGenome.te_identities gl) = Some (s, e) ->
       let p := pos mod ListGenome.length gl in
       (p < s -> dict_get te (ListGenome.te_identities g') = Some (s + l, e + l)) /\
       (s <= p -> e <= p -> dict_get te (ListGenome.te_identities g') = Some (s, e))) /\
  (exists id g',
     LinkedListGenome.insert_te pos l gk = (Return id, g') /\
     forall te s e,
       dict_get te (LinkedListGenome.te_identities gk) = Some (s, e) ->
       (pos < s -> dict_get te (LinkedListGenome.te_identities g') = Some (s + l, e + l)) /\
       (s <= pos -> e <= pos ->
        dict_get te (LinkedListGenome.te_identities g') = Some (s, e))).
Proof.
  intros Hwfl Hwfk Hl Hposl Hlen Hposk. split_and!.
  - vm_compute. done.
  - unfold ListGenome.length in *.
    rewrite list_insert_te_run by (apply Hwfl || lia). cbv zeta.
    eexists _, _. split; [done|]. simpl. intros te s e Hget.
    apply dict_get_after_insert; [apply Hwfl | | done].
    assert (te ∈ ListGenome.active_tes gl) as Hin%(list_active_issued _ _ Hwfl); [|lia].
    apply dict_get_keys. eauto.
  - destruct (linked_insert_te_spec pos l gk vals Hwfk Hposk Hl)
      as (g' & Hrun & _ & Hd & _).
    exists (LinkedListGenome.te_count gk + 1), g'. split; [done|].
    rewrite Hd. intros te s e Hget.
    apply dict_get_after_insert; [apply Hwfk | | done].
    assert (te ∈ LinkedListGenome.active_tes gk) as Hin%(linked_active_issued _ _ _ Hwfk); [|lia].
    apply dict_get_keys. eauto.
Qed.

Lemma registry_shift_of_each_variant_witness :
  let gl := run_script [InsertTe 5 3] (ListGenome.init 10) in
  let gk := run_script [InsertTe 5 3] (LinkedListGenome.init 10) in
  (exists id g',
     ListGenome.insert_te 2 2 gl = (Return id, g') /\
     dict_get 1 (ListGenome.te_identities g') = Some (5 + 2, 8 + 2)) /\
  (exists id g',
     LinkedListGenome.insert_te 2 2 gk = (Return id, g') /\
     dict_get 1 (LinkedListGenome.te_identities g') = Some (5 + 2, 8 + 2)).
Proof.
  intros gl gk.
  assert (Hok : Forall op_ok [InsertTe 5 3]) by (repeat constructor; simpl; lia).
  assert (Hwfl : list_wf gl) by (by apply list_wf_reachable).
  destruct (linked_wf_reachable 10 _ ltac:(lia) Hok) as [vals Hwfk].
  destruct (registry_shift_of_each_variant gl gk vals 2 2 Hwfl Hwfk)
    as (_ & (idl & gl' & Hrunl & Hl) & (idk & gk' & Hrunk & Hk));
    [lia | by vm_compute | by vm_compute | by vm_compute |].
  split.
  - exists idl, gl'. split; [done|].
    apply (Hl 1 5 8); [by vm_compute | by vm_compute].
  - exists idk, gk'. split; [done|].
    apply (Hk 1 5 8); [by vm_compute | lia].
Defined.

(** C7 (on insertion every active entry that starts after the insertion
    point is shifted forward by the inserted length) fails on the code in
    the linked variant, which never reduces the position modulo the
    length.  The concrete scenario of the claim goes as stated in both
    variants.  But on the genome of 13 cells that [insert_te(5, 3)] leaves,
    [insert_te(13, 2)] has its position equal to the length, so the
    insertion point is [13 mod 13 = 0] and TE 1, which starts at 5, lies
    after it: the list variant moves TE 1 to [(7, 10)] and puts the new
    cells at indices 0 and 1, whereas the linked variant leaves TE 1 at
    [(5, 8)], registers the new TE at [(13, 15)] and appends its cells. *)
Theorem C7_linked_insert_at_length_shifts_nothing :
  let l1 := run_script [InsertTe 5 3] (ListGenome.init 10) in
  let k1 := run_script [InsertTe 5 3] (LinkedListGenome.init 10) in
  let l2 := run_script [InsertTe 5 3; InsertTe 2 2] (ListGenome.init 10) in
  let k2 := run_script [InsertTe 5 3; InsertTe 2 2] (LinkedListGenome.init 10) in
  let l3 := (ListGenome.insert_te 13 2 l1).2 in
  let k3 := (LinkedListGenome.insert_te 13 2 k1).2 in
  (observe l1 = (Return "-----AAA-----"%string, [1], 13) /\
   observe k1 = (Return "-----AAA-----"%string, [1], 13) /\
   ListGenome.te_identities l1 = [(1, (5, 8))] /\
   LinkedListGenome.te_identities k1 = [(1, (5, 8))] /\
   observe l2 = (Return "--AA---AAA-----"%string, [1; 2], 15) /\
   observe k2 = (Return "--AA---AAA-----"%string, [1; 2], 15) /\
   ListGenome.te_identities l2 = [(1, (7, 10)); (2, (2, 4))] /\
   LinkedListGenome.te_identities k2 = [(1, (7, 10)); (2, (2, 4))]) /\
  (13 <= ListGenome.length l1 /\ 13 <= LinkedListGenome.length k1 /\
   13 mod ListGenome.length l1 = 0 /\ 13 mod LinkedListGenome.length k1 = 0) /\
  ((ListGenome.insert_te 13 2 l1).1 = Return 2 /\
   dict_get 1 (ListGenome.te_identities l3) = Some (5 + 2, 8 + 2) /\
   ListGenome.te_identities l3 = [(1, (7, 10)); (2, (0, 2))] /\
   observe l3 = (Return "AA-----AAA-----"%string, [1; 2], 15)) /\
  ((LinkedListGenome.insert_te 13 2 k1).1 = Return 2 /\
   dict_get 1 (LinkedListGenome.te_identities k3) = Some (5, 8) /\
   dict_get 1 (LinkedListGenome.te_identities k3) <> Some (5 + 2, 8 + 2) /\
   LinkedListGenome.te_identities k3 = [(1, (5, 8)); (2, (13, 15))] /\
   observe k3 = (Return "-----AAA-----AA"%string, [1; 2], 15)).
Proof.
  vm_compute. split_and!; try done; try (intros ?; discriminate).
Qed.

(** C3 ([insert_te] circularizes the position in both variants, so that
    [pos == length()] inserts the new TE at position 0) fails on the code
    in the linked variant, which has no modulo.  On two cells
    [insert_te(2, 1)] (position equal to the length) makes the list variant
    register the new TE at [(0, 1)] and render ["A--"], as the claim says;
    the linked variant registers it at [(2, 3)] and appends its cell after
    the last one, rendering ["--A"]. *)
Theorem C3_linked_insert_at_length_appends :
  let gl := ListGenome.init 2 in
  let gl' := (ListGenome.insert_te 2 1 gl).2 in
  let g := LinkedListGenome.init 2 in
  let g' := (LinkedListGenome.insert_te 2 1 g).2 in
  (0 <= 2 <= ListGenome.length gl /\
   (ListGenome.insert_te 2 1 gl).1 = Return 1 /\
   ListGenome.te_identities gl' = [(1, (2 mod 2, 2 mod 2 + 1))] /\
   dict_get 1 (ListGenome.te_identities gl') = Some (0, 1) /\
   observe gl' = (Return "A--"%string, [1], 3)) /\
  0 <= 2 <= LinkedListGenome.length g /\
  (LinkedListGenome.insert_te 2 1 g).1 = Return 1 /\
  dict_get 1 (LinkedListGenome.te_identities g') = Some (2, 3) /\
  dict_get 1 (LinkedListGenome.te_identities g') <> Some (2 mod 2, 2 mod 2 + 1) /\
  (LinkedListGenome.render g').1 = Return "--A"%string /\
  (LinkedListGenome.render g').1 <> Return "A--"%string /\
  observe g' = (Return "--A"%string, [1], 3).
Proof. vm_compute. split_and!; try done; split; discriminate. Qed.

(** On an empty genome the list variant divides by zero. *)
Example list_insert_te_on_empty_genome :
  (ListGenome.insert_te 0 1 (ListGenome.init 0)).1 = Raise ZeroDivisionError.
Proof. reflexivity. Qed.

(** The range check and the insertion point of each variant.  In both
    variants [insert_te] raises [ValueError] exactly when
    [pos > length()].  Otherwise the list variant, on a
    genome that is not empty, reduces the position to [p = pos mod
    length()] (so [pos = length()] gives [p = 0]) before the loop over
    the active TEs, registers the new id at [(p, p + len)], splices the
    new cells in at index [p] and returns; the linked variant keeps the
    position as it is given: it registers the new id at [(pos, pos + len)],
    splices the new cells in at index [pos] when [1 <= pos] (after the last
    cell when [pos = length()]) and returns. *)
Theorem insert_te_range_check_and_position
    (gl : ListGenome.t) (gk : LinkedListGenome.t) (vals : list ascii)
    (pos l : Z) :
  list_wf gl -> linked_wf gk vals -> 0 <= l ->
  ((ListGenome.insert_te pos l gl).1 = Raise ValueError <-> pos > ListGenome.length gl) /\
  (pos <= ListGenome.length gl -> 0 < ListGenome.length gl ->
   let p := pos mod ListGenome.length gl in
   let cells := sweep_cells p (ListGenome.te_identities gl) (ListGenome.genome gl) in
   exists g',
     ListGenome.insert_te pos l gl = (Return (ListGenome.te_count gl + 1), g') /\
     0 <= p < ListGenome.length gl /\
     (pos = ListGenome.length gl -> p = 0) /\
     dict_get (ListGenome.te_count gl + 1) (ListGenome.te_identities g') = Some (p, p + l) /\
     ListGenome.render g' =
       string_of_list_ascii
         (take (Z.to_nat p) cells ++ py_repeat l sym_active ++ drop (Z.to_nat p) cells)) /\
  ((LinkedListGenome.insert_te pos l gk).1 = Raise ValueError
     <-> pos > LinkedListGenome.length gk) /\
  (pos <= LinkedListGenome.length gk ->
   let cells := linked_sweep_cells pos (LinkedListGenome.te_identities gk) vals in
   exists g',
     LinkedListGenome.insert_te pos l gk = (Return (LinkedListGenome.te_count gk + 1), g') /\
     dict_get (LinkedListGenome.te_count gk + 1) (LinkedListGenome.te_identities g')
       = Some (pos, pos + l) /\
     (1 <= pos ->
      LinkedListGenome.render g' =
        (Return (string_of_list_ascii
           (take (Z.to_nat pos) cells ++ py_repeat l sym_active ++ drop (Z.to_nat pos) cells)),
         g')) /\
     (pos = LinkedListGenome.length gk ->
      LinkedListGenome.render g' =
        (Return (string_of_list_ascii (cells ++ py_repeat l sym_active)), g'))).
Proof.
  intros Hwfl Hwfk Hl. unfold ListGenome.length.
  pose proof (len_nonneg (ListGenome.genome gl)) as Hlen0.
  split; [|split; [|split]].
  - split.
    + intros Hraise. destruct (Z.gtb_spec pos (len (ListGenome.genome gl))); [lia|].
      destruct (Z.eqb_spec (len (ListGenome.genome gl)) 0).
      * rewrite list_insert_te_empty in Hraise by lia. discriminate.
      * rewrite list_insert_te_run in Hraise by (apply Hwfl || lia). discriminate.
    + intros. by rewrite list_insert_te_out_of_range.
  - intros Hpos Hlen.
    set (p := pos mod len (ListGenome.genome gl)).
    set (cells := sweep_cells p (ListGenome.te_identities gl) (ListGenome.genome gl)).
    assert (Hp : 0 <= p < len (ListGenome.genome gl)) by (apply Z.mod_pos_bound; lia).
    assert (Hcells : len cells = len (ListGenome.genome gl)).
    { eapply len_sweep_cells, Hwfl. }
    rewrite list_insert_te_run by (apply Hwfl || lia). fold p cells.
    eexists. split; [done|]. simpl. split_and!; try lia.
    + intros ->. apply Z_mod_same_full.
    + rewrite dict_get_set. by rewrite Z.eqb_refl.
    + unfold ListGenome.render. simpl.
      by rewrite slice_to_in, slice_from_in by lia.
  - split.
    + intros Hraise. destruct (Z.gtb_spec pos (LinkedListGenome.length gk)); [lia|].
      destruct (linked_insert_te_spec pos l gk vals) as (g' & Hrun & _); [done..|].
      rewrite Hrun in Hraise. discriminate.
    + intros. by rewrite linked_insert_te_out_of_range.
  - intros Hpos.
    set (cells := linked_sweep_cells pos (LinkedListGenome.te_identities gk) vals).
    destruct (linked_insert_te_spec pos l gk vals) as (g' & Hrun & _ & Hd & _ & Hwf');
      [done..|].
    fold cells in Hwf'. exists g'. split; [done|].
    assert (Hcells : len cells = len vals).
    { destruct Hwfk as [_ Hlen _ Hr _]. rewrite Hlen in Hr.
      eapply len_linked_sweep_cells, Hr. }
    pose proof (linked_wf_length _ _ Hwfk) as Hlenk.
    split_and!.
    + rewrite Hd, dict_get_set. by rewrite Z.eqb_refl.
    + intros Hpos1. rewrite (linked_render_run g' _ Hwf'). do 2 f_equal.
      unfold linked_splice. destruct cells as [|c cells'] eqn:Hc.
      { unfold len in *. simpl in *. lia. }
      by replace (S (Z.to_nat (pos - 1))) with (Z.to_nat pos) by lia.
    + intros Hpos1. rewrite (linked_render_run g' _ Hwf'). do 2 f_equal.
      unfold linked_splice. destruct cells as [|c cells'] eqn:Hc; [done|].
      rewrite take_ge, drop_ge by (unfold len in *; simpl in *; lia).
      by rewrite app_nil_r.
Qed.

Lemma insert_te_range_check_and_position_witness :
  let gl := ListGenome.init 2 in
  let gk := LinkedListGenome.init 2 in
  (exists g', ListGenome.insert_te 2 1 gl = (Return 1, g') /\
              ListGenome.render g' = "A--"%string) /\
  (exists g', LinkedListGenome.insert_te 2 1 gk = (Return 1, g') /\
              LinkedListGenome.render g' = (Return "--A"%string, g')).
Proof.
  intros gl gk.
  destruct (insert_te_range_check_and_position gl gk (py_repeat 2 sym_empty) 2 1)
    as (_ & Hlist & _ & Hlinked).
  - apply list_wf_init.
  - apply linked_wf_init. lia.
  - lia.
  - split.
    + destruct Hlist as (g' & Hrun & _ & _ & _ & Hrender); [by vm_compute..|].
      by exists g'.
    + destruct Hlinked as (g' & Hrun & _ & _ & Hrender); [by vm_compute|].
      exists g'. split; [done|]. by apply Hrender.
Defined.

(** ** Disabled cells in the linked variant *)
Lemma lookup_linked_fill (s e : Z) (vals : list ascii) (i : nat) :
  (Z.to_nat s + Z.to_nat (e - s) <= Datatypes.length vals)%nat ->
  linked_fill s e vals !! i =
  if decide (Z.to_nat s <= i < Z.to_nat s + Z.to_nat (e - s))%nat
  then Some sym_disabled else vals !! i.
Proof.
  intros Hfit. unfold linked_fill.
  destruct (decide (i < Z.to_nat s)%nat).
  { rewrite lookup_app_l by (rewrite length_take; lia).
    rewrite lookup_take_lt by lia. case_decide; [lia | done]. }
  rewrite lookup_app_r by (rewrite length_take; lia).
  rewrite length_take, Nat.min_l by lia.
  destruct (decide (i < Z.to_nat s + Z.to_nat (e - s))%nat).
  { rewrite lookup_app_l by (rewrite length_replicate; lia).
    rewrite lookup_replicate_2 by lia. case_decide; [done | lia]. }
  rewrite lookup_app_r by (rewrite length_replicate; lia).
  rewrite length_replicate, lookup_drop. case_decide; [lia|].
  f_equal. lia.
Qed.

Lemma linked_sweep_cells_keeps pos c d (i : nat) : forall vals,
  Forall (linked_range_in (len vals) c) d ->
  vals !! i = Some sym_disabled ->
  linked_sweep_cells pos d vals !! i = Some sym_disabled.
Proof.
  induction d as [|[id [s e]] d IH]; intros vals Hd Hi; simpl; [done|].
  apply Forall_cons in Hd as [Hr Hd].
  pose proof (linked_range_fits _ _ _ _ _ vals Hr eq_refl) as Hfit.
  destruct ((s <=? pos) && (pos <? e)).
  - apply IH; [by rewrite len_linked_fill|].
    rewrite lookup_linked_fill by done. by case_decide.
  - by apply IH.
Qed.

Lemma linked_sweep_cells_disables pos c d id s e (i : nat) : forall vals,
  Forall (linked_range_in (len vals) c) d ->
  (id, (s, e)) ∈ d -> s <= pos < e -> s <= Z.of_nat i < e ->
  linked_sweep_cells pos d vals !! i = Some sym_disabled.
Proof.
  induction d as [|[id' [s' e']] d IH]; intros vals Hd Hin Hp Hi; simpl.
  { by apply elem_of_nil in Hin. }
  apply Forall_cons in Hd as [Hr Hd].
  pose proof (linked_range_fits _ _ _ _ _ vals Hr eq_refl) as Hfit.
  apply elem_of_cons in Hin as [[= <- <- <-]|Hin].
  - replace ((s <=? pos) && (pos <? e)) with true
      by (symmetry; apply andb_true_iff; lia).
    eapply linked_sweep_cells_keeps; [by rewrite len_linked_fill|].
    rewrite lookup_linked_fill by done. by rewrite decide_True by lia.
  - destruct ((s' <=? pos) && (pos <? e')).
    + eapply IH; eauto. by rewrite len_linked_fill.
    + eapply IH; eauto.
Qed.

(** The cells around a splice at [p]. *)
Lemma lookup_spliced_fill (cells : list ascii) (p l s e i : Z) :
  0 <= p <= len cells -> 0 <= l -> 0 <= i -> s <= p <= e ->
  (forall j : nat, s <= Z.of_nat j < e -> cells !! j = Some sym_disabled) ->
  ((s <= i < p \/ p + l <= i < e + l) ->
   (take (Z.to_nat p) cells ++ py_repeat l sym_active ++ drop (Z.to_nat p) cells)
     !! Z.to_nat i = Some sym_disabled) /\
  (p <= i < p + l ->
   (take (Z.to_nat p) cells ++ py_repeat l sym_active ++ drop (Z.to_nat p) cells)
     !! Z.to_nat i = Some sym_active).
Proof.
  intros Hp Hl Hi Hse Hx.
  rewrite <- slice_to_in, <- slice_from_in by done.
  rewrite lookup_splice by done. rewrite len_py_repeat by done.
  unfold py_repeat. rewrite length_replicate. split.
  - intros [?|?].
    + rewrite decide_True by lia. apply Hx. lia.
    + rewrite !decide_False by lia. apply Hx. lia.
  - intros ?. rewrite decide_False, decide_True by lia.
    apply lookup_replicate_2. lia.
Qed.

(** C6, as stated, fails on the code: the new TE is spliced in at the
    insertion point, inside the former span of the TE it disables, so an
    index of that span renders 'A' afterwards.  With the TE 1 at [(2, 5)],
    [insert_te(3, 1)] gives ["--xAxx-----"]: index 3 is 'A'. *)
Lemma C6_index_of_former_span_renders_A :
  let g := run_script [InsertTe 2 3] (ListGenome.init 7) in
  let g' := (ListGenome.insert_te 3 1 g).2 in
  dict_get 1 (ListGenome.te_identities g) = Some (2, 5) /\
  2 <= 3 mod ListGenome.length g < 5 /\
  ListGenome.active_tes g' = [2] /\
  ListGenome.render g' = "--xAxx-----"%string /\
  2 <= 3 < 5 /\
  char_at (ListGenome.render g') 3 = Some sym_active /\
  char_at (ListGenome.render g') 3 <> Some sym_disabled.
Proof. vm_compute. split_and!; try done; try discriminate. Qed.

(** The registry after an insertion that hits an active TE. *)
Lemma registry_after_collision (d : dict te_range) (c p l te s e : Z) :
  NoDup (dict_keys d) -> te <> c + 1 ->
  dict_get te d = Some (s, e) -> s <= p < e ->
  let d' := dict_set (c + 1) (p, p + l) (sweep_registry p l d) in
  (te ∉ dict_keys d') /\ (c + 1 ∈ dict_keys d') /\ dict_get (c + 1) d' = Some (p, p + l).
Proof.
  intros Hnd Hne Hget Hp d'.
  assert (Hnew : dict_get (c + 1) d' = Some (p, p + l)).
  { unfold d'. rewrite dict_get_set. by rewrite Z.eqb_refl. }
  split_and!; [|apply dict_get_keys; eauto|done].
  apply dict_get_None. unfold d'.
  rewrite dict_get_set, (proj2 (Z.eqb_neq _ _)) by lia.
  rewrite dict_get_sweep_registry, Hget by done.
  by replace ((s <=? p) && (p <? e)) with true by (symmetry; apply andb_true_iff; lia).
Qed.

(** C6 (amended): when the insertion point [p] (the position reduced
    modulo the length in the list variant; the position itself, at least
    1, in the linked variant) lies in the range [[s, e)] of an active TE,
    that TE is disabled entirely: it is no longer active and every cell of
    its former span renders 'x'.  The new cells are spliced in at [p],
    between those cells: afterwards the indices [[s, p)] and
    [[p + len, e + len)] render 'x', the indices [[p, p + len)] render 'A',
    and the new TE is active with range [(p, p + len)]. *)
Theorem C6_collision_disables_the_whole_te
    (gl : ListGenome.t) (gk : LinkedListGenome.t) (vals : list ascii)
    (pos l te s e : Z) :
  list_wf gl -> linked_wf gk vals -> 0 <= l ->
  (dict_get te (ListGenome.te_identities gl) = Some (s, e) ->
   pos <= ListGenome.length gl ->
   let p := pos mod ListGenome.length gl in
   s <= p < e ->
   exists id g',
     ListGenome.insert_te pos l gl = (Return id, g') /\
     (te ∉ ListGenome.active_tes g') /\
     (id ∈ ListGenome.active_tes g') /\
     dict_get id (ListGenome.te_identities g') = Some (p, p + l) /\
     forall i,
       ((s <= i < p \/ p + l <= i < e + l) ->
        char_at (ListGenome.render g') i = Some sym_disabled) /\
       (p <= i < p + l -> char_at (ListGenome.render g') i = Some sym_active)) /\
  (dict_get te (LinkedListGenome.te_identities gk) = Some (s, e) ->
   1 <= pos <= LinkedListGenome.length gk ->
   s <= pos < e ->
   exists id g' str,
     LinkedListGenome.insert_te pos l gk = (Return id, g') /\
     (te ∉ LinkedListGenome.active_tes g') /\
     (id ∈ LinkedListGenome.active_tes g') /\
     dict_get id (LinkedListGenome.te_identities g') = Some (pos, pos + l) /\
     LinkedListGenome.render g' = (Return str, g') /\
     forall i, 0 <= i ->
       ((s <= i < pos \/ pos + l <= i < e + l) -> char_at str i = Some sym_disabled) /\
       (pos <= i < pos + l -> char_at str i = Some sym_active)).
Proof.
  intros Hwfl Hwfk Hl. split.
  - unfold ListGenome.length. intros Hget Hpos.
    set (p := pos mod len (ListGenome.genome gl)). intros Hp.
    pose proof (list_wf_ranges _ Hwfl) as Hranges.
    pose proof Hranges as Hr. rewrite Forall_forall in Hr.
    destruct (Hr _ (dict_get_elem _ _ _ Hget)) as (Hid & Hse & He). simpl in *.
    assert (Hlen : len (ListGenome.genome gl) <> 0) by lia.
    set (cells := sweep_cells p (ListGenome.te_identities gl) (ListGenome.genome gl)).
    assert (Hcells : len cells = len (ListGenome.genome gl)) by (by eapply len_sweep_cells).
    destruct (registry_after_collision (ListGenome.te_identities gl)
                (ListGenome.te_count gl) p l te s e) as (Hgone & Hin & Hnew);
      [apply Hwfl | lia | done | done |].
    rewrite list_insert_te_run by (apply Hwfl || lia). fold p cells.
    eexists _, _. split; [done|]. unfold ListGenome.active_tes. simpl.
    split_and!; try done.
    intros i. unfold ListGenome.render. simpl.
    rewrite slice_to_in, slice_from_in by lia.
    destruct (decide (0 <= i)) as [Hi|Hi]; [|split; lia].
    rewrite char_at_string_of_list by done.
    apply lookup_spliced_fill with (s := s) (e := e); try lia.
    intros j Hj. eapply sweep_cells_disables; eauto. by apply dict_get_elem.
  - intros Hget Hpos Hp.
    destruct (linked_insert_te_spec pos l gk vals) as (g' & Hrun & _ & Hd & _ & Hwf');
      [done | lia | done |].
    remember (linked_sweep_cells pos (LinkedListGenome.te_identities gk) vals)
      as cells eqn:Hc.
    pose proof (linked_wf_length _ _ Hwfk) as Hlenk.
    pose proof (linked_wf_ranges _ _ Hwfk) as Hranges. rewrite Hlenk in Hranges.
    pose proof (linked_wf_ranges _ _ Hwfk) as Hr. rewrite Forall_forall in Hr.
    destruct (Hr _ (dict_get_elem _ _ _ Hget)) as (Hid & Hse & He & _). simpl in *.
    assert (Hcells : len cells = len vals) by (subst cells; by eapply len_linked_sweep_cells).
    assert (Hx : forall j : nat, s <= Z.of_nat j < e -> cells !! j = Some sym_disabled).
    { intros j Hj. subst cells.
      eapply linked_sweep_cells_disables; eauto. by apply dict_get_elem. }
    destruct (registry_after_collision (LinkedListGenome.te_identities gk)
                (LinkedListGenome.te_count gk) pos l te s e) as (Hgone & Hin & Hnew);
      [apply Hwfk | lia | done | done |].
    eexists _, g', _. split; [done|]. unfold LinkedListGenome.active_tes.
    rewrite Hd. split_and!; try done.
    { apply (linked_render_run g' _ Hwf'). }
    intros i Hi. rewrite char_at_string_of_list by done.
    assert (Hsplice : linked_splice pos l cells =
      take (Z.to_nat pos) cells ++ py_repeat l sym_active ++ drop (Z.to_nat pos) cells).
    { unfold linked_splice. clear Hc Hx Hwf'. destruct cells as [|c0 cells'].
      - unfold len in *. simpl in *. lia.
      - by replace (S (Z.to_nat (pos - 1))) with (Z.to_nat pos) by lia. }
    rewrite Hsplice.
    apply lookup_spliced_fill with (s := s) (e := e); (done || lia).
Qed.

Lemma C6_collision_disables_the_whole_te_witness :
  let gl := run_script [InsertTe 2 3] (ListGenome.init 7) in
  let gk := run_script [InsertTe 2 3] (LinkedListGenome.init 7) in
  (exists id g',
     ListGenome.insert_te 3 1 gl = (Return id, g') /\
     (1 ∉ ListGenome.active_tes g') /\
     char_at (ListGenome.render g') 2 = Some sym_disabled /\
     char_at (ListGenome.render g') 3 = Some sym_active /\
     char_at (ListGenome.render g') 5 = Some sym_disabled) /\
  (exists id g' str,
     LinkedListGenome.insert_te 3 1 gk = (Return id, g') /\
     (1 ∉ LinkedListGenome.active_tes g') /\
     LinkedListGenome.render g' = (Return str, g') /\
     char_at str 2 = Some sym_disabled /\
     char_at str 3 = Some sym_active /\
     char_at str 5 = Some sym_disabled).
Proof.
  intros gl gk.
  assert (Hok : Forall op_ok [InsertTe 2 3]) by (repeat constructor; simpl; lia).
  assert (Hwfl : list_wf gl) by (by apply list_wf_reachable).
  destruct (linked_wf_reachable 7 _ ltac:(lia) Hok) as [vals Hwfk].
  destruct (C6_collision_disables_the_whole_te gl gk vals 3 1 1 2 5 Hwfl Hwfk)
    as [Hlist Hlinked]; [lia|].
  split.
  - destruct Hlist as (id & g' & Hrun & Hgone & _ & _ & Hcells);
      [by vm_compute | by vm_compute | by vm_compute |].
    exists id, g'. split_and!; [done | done | | |].
    + apply (Hcells 2). left. vm_compute. split; [discriminate | reflexivity].
    + apply (Hcells 3). vm_compute. split; [discriminate | reflexivity].
    + apply (Hcells 5). right. vm_compute. split; [discriminate | reflexivity].
  - destruct Hlinked as (id & g' & str & Hrun & Hgone & _ & _ & Hrender & Hcells);
      [by vm_compute | by vm_compute | lia |].
    exists id, g', str. split_and!; [done | done | done | | |].
    + apply (Hcells 2); lia.
    + apply (Hcells 3); lia.
    + apply (Hcells 5); lia.
Defined.

(** ** Lengths *)
Lemma list_render_has_length (g : ListGenome.t) : render_has_length g.
Proof.
  exists (ListGenome.render g). split; [done|]. simpl.
  unfold ListGenome.length, ListGenome.render, len.
  by rewrite length_string_of_list.
Qed.

Lemma linked_render_has_length (g : LinkedListGenome.t) (vals : list ascii) :
  linked_wf g vals -> render_has_length g.
Proof.
  intros Hwf. exists (string_of_list_ascii vals). split.
  - by apply linked_render_run.
  - simpl. rewrite (linked_wf_length _ _ Hwf). unfold len.
    by rewrite length_string_of_list.
Qed.

Lemma list_insert_te_length pos l g :
  list_wf g -> 0 <= l ->
  match ListGenome.insert_te pos l g with
  | (Return _, g') => ListGenome.length g' = ListGenome.length g + l
  | (Raise _, g') => g' = g
  end.
Proof.
  intros Hwf Hl. unfold ListGenome.length.
  pose proof (len_nonneg (ListGenome.genome g)).
  destruct (Z.gtb_spec pos (len (ListGenome.genome g))).
  { by rewrite list_insert_te_out_of_range by lia. }
  destruct (Z.eqb_spec (len (ListGenome.genome g)) 0).
  { by rewrite list_insert_te_empty by lia. }
  rewrite list_insert_te_run by (apply Hwf || lia). simpl.
  assert (0 <= pos `mod` len (ListGenome.genome g) < len (ListGenome.genome g))
    by (apply Z.mod_pos_bound; lia).
  rewrite len_splice by (erewrite len_sweep_cells by apply Hwf; lia).
  erewrite len_sweep_cells by apply Hwf. by rewrite len_py_repeat.
Qed.

Lemma list_disable_te_length te g :
  list_wf g ->
  ListGenome.length (ListGenome.disable_te te g).2 = ListGenome.length g.
Proof.
  intros Hwf. rewrite list_disable_te_run. unfold ListGenome.length.
  destruct (dict_get te (ListGenome.te_identities g)) as [[s e]|] eqn:Hget; [|done].
  simpl. pose proof (list_wf_ranges _ Hwf) as Hr. rewrite Forall_forall in Hr.
  destruct (Hr _ (dict_get_elem _ _ _ Hget)) as (? & ? & ?). simpl in *.
  by rewrite len_slice_assign_fill by lia.
Qed.

Lemma list_length_law o g :
  list_wf g -> op_ok o -> length_law ListGenome.te_identities o g.
Proof.
  intros Hwf Hok. unfold length_law. destruct o as [pos l|te offset|te]; simpl in *.
  - pose proof (list_insert_te_length pos l g Hwf Hok) as Hins.
    unfold mbind, M_bind, mret, M_ret.
    destruct (ListGenome.insert_te pos l g) as [[id|ex] g']; [lia|]. subst g'. lia.
  - unfold mbind, M_bind, mret, M_ret. rewrite list_copy_te_run.
    destruct (dict_get te (ListGenome.te_identities g)) as [[s e]|] eqn:Hget; [|lia].
    assert (0 <= e - s).
    { pose proof (list_wf_ranges _ Hwf) as Hr. rewrite Forall_forall in Hr.
      destruct (Hr _ (dict_get_elem _ _ _ Hget)) as (? & ? & ?). simpl in *. lia. }
    pose proof (list_insert_te_length (s + offset) (e - s) g Hwf ltac:(lia)) as Hins.
    destruct (ListGenome.insert_te (s + offset) (e - s) g) as [[id|ex] g'].
    + split; [lia|]. by exists s, e.
    + subst g'. lia.
  - unfold mbind, M_bind, mret, M_ret.
    pose proof (list_disable_te_length te g Hwf) as Hdis.
    destruct (ListGenome.disable_te te g) as [[[]|ex] g']; simpl in *; lia.
Qed.

Lemma linked_insert_te_length pos l g vals :
  linked_wf g vals -> 0 <= l ->
  match LinkedListGenome.insert_te pos l g with
  | (Return _, g') => LinkedListGenome.length g' = LinkedListGenome.length g + l
  | (Raise _, g') => g' = g
  end.
Proof.
  intros Hwf Hl. destruct (Z.gtb_spec pos (LinkedListGenome.length g)).
  { by rewrite linked_insert_te_out_of_range by lia. }
  by destruct (linked_insert_te_spec pos l g vals) as (g' & -> & Hlen & _).
Qed.

Lemma linked_disable_te_length te g vals :
  linked_wf g vals ->
  LinkedListGenome.length (LinkedListGenome.disable_te te g).2 = LinkedListGenome.length g.
Proof.
  intros Hwf.
  destruct (dict_get te (LinkedListGenome.te_identities g)) as [[s e]|] eqn:Hget.
  - by destruct (linked_disable_te_spec te g vals s e) as (g' & -> & Hlen & _).
  - by rewrite linked_disable_te_unknown.
Qed.

Lemma linked_length_law o g vals :
  linked_wf g vals -> op_ok o -> length_law LinkedListGenome.te_identities o g.
Proof.
  intros Hwf Hok. unfold length_law. destruct o as [pos l|te offset|te]; simpl in *.
  - pose proof (linked_insert_te_length pos l g vals Hwf Hok) as Hins.
    unfold mbind, M_bind, mret, M_ret.
    destruct (LinkedListGenome.insert_te pos l g) as [[id|ex] g']; [lia|]. subst g'. lia.
  - unfold mbind, M_bind, mret, M_ret. rewrite linked_copy_te_run.
    destruct (dict_get te (LinkedListGenome.te_identities g)) as [[s e]|] eqn:Hget; [|lia].
    assert (0 <= e - s).
    { pose proof (linked_wf_ranges _ _ Hwf) as Hr. rewrite Forall_forall in Hr.
      destruct (Hr _ (dict_get_elem _ _ _ Hget)) as (? & ? & ?). simpl in *. lia. }
    cbv zeta.
    match goal with |- context [LinkedListGenome.insert_te ?p ?len g] =>
      pose proof (linked_insert_te_length p len g vals Hwf ltac:(lia)) as Hins;
      destruct (LinkedListGenome.insert_te p len g) as [[id|ex] g'] end.
    + split; [lia|]. by exists s, e.
    + subst g'. lia.
  - unfold mbind, M_bind, mret, M_ret.
    pose proof (linked_disable_te_length te g vals Hwf) as Hdis.
    destruct (LinkedListGenome.disable_te te g) as [[[]|ex] g']; simpl in *; lia.
Qed.

(** C9: in both variants, in every state that a script of calls reaches
    from a genome constructed with [n >= 0] cells, [length()] is the length
    of the string [render()] returns, and this still holds after one more
    call; that call never decreases [length()]: an [insert_te] that
    returns adds exactly the inserted length (a [copy_te] that returns an
    id adds the length of the copied TE, through [insert_te]), and a
    [disable_te], a call that raises and a [copy_te] that returns [None]
    leave it unchanged. *)
Theorem C9_length_is_render_length_and_only_grows (n : Z) (script : list op) (o : op) :
  0 <= n -> Forall op_ok script -> op_ok o ->
  (let g := run_script script (ListGenome.init n) in
   render_has_length g /\ render_has_length (run o g).2 /\
   length_law ListGenome.te_identities o g) /\
  (let g := run_script script (LinkedListGenome.init n) in
   render_has_length g /\ render_has_length (run o g).2 /\
   length_law LinkedListGenome.te_identities o g).
Proof.
  intros Hn Hscript Ho. split.
  - pose proof (list_wf_reachable n script Hscript) as Hwf.
    split_and!; [apply list_render_has_length.. | by apply list_length_law].
  - destruct (linked_wf_reachable n script Hn Hscript) as [vals Hwf].
    destruct (linked_wf_run o _ vals Ho Hwf) as [vals' Hwf'].
    split_and!.
    + by eapply linked_render_has_length.
    + by eapply linked_render_has_length.
    + by eapply linked_length_law.
Qed.

Lemma C9_length_is_render_length_and_only_grows_witness :
  (let g := run_script [InsertTe 5 3; DisableTe 1] (ListGenome.init 10) in
   render_has_length g /\ render_has_length (run (InsertTe 2 2) g).2 /\
   length_law ListGenome.te_identities (InsertTe 2 2) g) /\
  (let g := run_script [InsertTe 5 3; DisableTe 1] (LinkedListGenome.init 10) in
   render_has_length g /\ render_has_length (run (InsertTe 2 2) g).2 /\
   length_law LinkedListGenome.te_identities (InsertTe 2 2) g).
Proof.
  apply (C9_length_is_render_length_and_only_grows 10 [InsertTe 5 3; DisableTe 1]
           (InsertTe 2 2)).
  - lia.
  - repeat constructor. simpl. lia.
  - simpl. lia.
Defined.

(** ** Where the two variants agree

    Away from the two ends of the genome ([1 <= pos < length()]) an
    insertion does the same in both variants, and so does [disable_te]. *)
Lemma linked_fill_slice_assign (vals : list ascii) (s e : Z) :
  0 <= s <= e -> e <= len vals ->
  linked_fill s e vals = slice_assign vals s e (py_repeat (e - s) sym_disabled).
Proof.
  intros. rewrite slice_assign_in by done. unfold linked_fill, py_repeat.
  by replace (Z.to_nat s + Z.to_nat (e - s))%nat with (Z.to_nat e) by lia.
Qed.

Lemma linked_sweep_cells_sweep_cells pos c d : forall vals,
  Forall (range_in (len vals) c) d ->
  linked_sweep_cells pos d vals = sweep_cells pos d vals.
Proof.
  induction d as [|[id [s e]] d IH]; intros vals Hd; simpl; [done|].
  apply Forall_cons in Hd as [(Hid & Hse & He) Hd]. simpl in *.
  destruct ((s <=? pos) && (pos <? e)); [|by apply IH].
  rewrite linked_fill_slice_assign by lia.
  apply IH. by rewrite len_slice_assign_fill by lia.
Qed.

Lemma same_genome_observe gl gk : same_genome gl gk -> observe gl = observe gk.
Proof.
  intros (Hwfl & Hwfk & Hd & Hc). unfold observe. simpl.
  rewrite (linked_render_run gk _ Hwfk). simpl.
  unfold ListGenome.active_tes, LinkedListGenome.active_tes, ListGenome.length.
  by rewrite Hd, (linked_wf_length _ _ Hwfk).
Qed.

Lemma variants_agree_on_interior_insert gl gk pos l :
  same_genome gl gk -> 1 <= pos < ListGenome.length gl -> 0 <= l ->
  exists id gl' gk',
    ListGenome.insert_te pos l gl = (Return id, gl') /\
    LinkedListGenome.insert_te pos l gk = (Return id, gk') /\
    same_genome gl' gk'.
Proof.
  intros (Hwfl & Hwfk & Hd & Hc) Hpos Hl. unfold ListGenome.length in Hpos.
  pose proof (linked_wf_length _ _ Hwfk) as Hlenk.
  destruct (linked_insert_te_spec pos l gk _ Hwfk) as (gk' & Hrunk & _ & Hdk & Hck & Hwfk');
    [lia | done |].
  pose proof (list_wf_insert_te pos l gl Hl Hwfl) as Hwfl'.
  rewrite list_insert_te_run in * by (apply Hwfl || lia).
  rewrite Z.mod_small in * by lia. simpl in Hwfl'.
  eexists _, _, gk'. split; [done|]. split; [by rewrite Hrunk, Hc|].
  split_and!; simpl; [done | | by rewrite Hdk, Hd, Hc | by rewrite Hck, Hc].
  rewrite <- Hd in Hwfk'.
  rewrite (linked_sweep_cells_sweep_cells _ (ListGenome.te_count gl)) in Hwfk'
    by apply Hwfl.
  set (cells := sweep_cells pos (ListGenome.te_identities gl) (ListGenome.genome gl)) in *.
  assert (Hcells : len cells = len (ListGenome.genome gl)) by (by eapply len_sweep_cells, Hwfl).
  rewrite slice_to_in, slice_from_in by lia.
  replace (take (Z.to_nat pos) cells ++ py_repeat l sym_active ++ drop (Z.to_nat pos) cells)
    with (linked_splice pos l cells); [done|].
  unfold linked_splice. clearbody cells. destruct cells as [|c0 cells'].
  - unfold len in *. simpl in *. lia.
  - by replace (S (Z.to_nat (pos - 1))) with (Z.to_nat pos) by lia.
Qed.

Lemma variants_agree_on_disable gl gk te :
  same_genome gl gk ->
  (ListGenome.disable_te te gl).1 = (LinkedListGenome.disable_te te gk).1 /\
  same_genome (ListGenome.disable_te te gl).2 (LinkedListGenome.disable_te te gk).2.
Proof.
  intros (Hwfl & Hwfk & Hd & Hc).
  pose proof (list_wf_disable_te te gl Hwfl) as Hwfl'.
  rewrite list_disable_te_run in *.
  destruct (dict_get te (ListGenome.te_identities gl)) as [[s e]|] eqn:Hget.
  - pose proof (list_wf_ranges _ Hwfl) as Hr. rewrite Forall_forall in Hr.
    destruct (Hr _ (dict_get_elem _ _ _ Hget)) as (? & ? & ?). simpl in *.
    destruct (linked_disable_te_spec te gk _ s e Hwfk) as (gk' & -> & _ & Hdk & Hck & Hwfk');
      [by rewrite <- Hd|].
    split; [done|]. simpl. rewrite linked_fill_slice_assign in Hwfk' by lia.
    split_and!; [done | done | by rewrite Hdk, Hd | by rewrite Hck].
  - rewrite linked_disable_te_unknown by (by rewrite <- Hd). done.
Qed.

Lemma linked_init_registry n :
  LinkedListGenome.te_identities (LinkedListGenome.init n) = [] /\
  LinkedListGenome.te_count (LinkedListGenome.init n) = 0.
Proof.
  unfold LinkedListGenome.init, LinkedListGenome.init_m.
  set (g0 := LinkedListGenome.mk [mkLink None (Some 0%nat) (Some 0%nat)] (Some 0%nat) n [] 0).
  assert (Hr0 : ring (LinkedListGenome.links g0) 0 [] []).
  { split; [apply NoDup_singleton | done |].
    intros j Hj. simpl in Hj. by assert (j = 0%nat) as -> by lia. }
  destruct (linked_init_loop 0 (Z.to_nat n) g0 [] [] Hr0) as (h' & nodes' & Hrun & Hr').
  unfold for_range. unfold_m. simpl.
  match goal with
  | |- context [(repeat_m _ _ ?s).2] => change s with g0
  end.
  by rewrite Hrun.
Qed.

Lemma same_genome_init n :
  0 <= n -> same_genome (ListGenome.init n) (LinkedListGenome.init n).
Proof.
  intros Hn. destruct (linked_init_registry n) as [Hd Hc].
  split_and!; [apply list_wf_init | by apply linked_wf_init | by rewrite Hd | by rewrite Hc].
Qed.

(** ** The list variant keeps cells and registry in step *)
Lemma elem_sweep_registry pos l (d : dict te_range) id s' e' :
  (id, (s', e')) ∈ sweep_registry pos l d <->
  exists s e, (id, (s, e)) ∈ d /\ (s <=? pos) && (pos <? e) = false /\
              (s', e') = if s >? pos then (s + l, e + l) else (s, e).
Proof.
  induction d as [|[id0 [s0 e0]] d IH]; simpl.
  - split; [by intros ?%elem_of_nil | by intros (? & ? & ?%elem_of_nil & _)].
  - destruct ((s0 <=? pos) && (pos <? e0)) eqn:Hc; [|destruct (s0 >? pos) eqn:Hs].
    + rewrite IH. split.
      * intros (s & e & Hin & ?). exists s, e. split; [by right | done].
      * intros (s & e & [[= -> -> ->]|Hin]%elem_of_cons & Hc' & Heq).
        -- congruence.
        -- by exists s, e.
    + rewrite elem_of_cons, IH. split.
      * intros [[= -> -> ->]|(s & e & Hin & ?)].
        -- exists s0, e0. rewrite Hc, Hs. split_and!; [by left | done | done].
        -- exists s, e. split; [by right | done].
      * intros (s & e & [[= -> -> ->]|Hin]%elem_of_cons & Hc' & Heq).
        -- left. rewrite Hs in Heq. by injection Heq as -> ->.
        -- right. by exists s, e.
    + rewrite elem_of_cons, IH. split.
      * intros [[= -> -> ->]|(s & e & Hin & ?)].
        -- exists s0, e0. rewrite Hc, Hs. split_and!; [by left | done | done].
        -- exists s, e. split; [by right | done].
      * intros (s & e & [[= -> -> ->]|Hin]%elem_of_cons & Hc' & Heq).
        -- left. rewrite Hs in Heq. by injection Heq as -> ->.
        -- right. by exists s, e.
Qed.

Lemma elem_dict_remove {V} (te k : Z) (r : V) (d : dict V) :
  NoDup (dict_keys d) ->
  (k, r) ∈ dict_remove te d <-> (k, r) ∈ d /\ k <> te.
Proof.
  intros Hnd. split.
  - intros Hin.
    pose proof (elem_dict_get k r _ (dict_remove_NoDup te d Hnd) Hin) as Hget.
    rewrite dict_get_remove in Hget by done. revert Hget.
    destruct (Z.eqb_spec te k); [done|]. intros Hget.
    split; [by apply dict_get_elem | done].
  - intros [Hin Hne]. apply dict_get_elem. rewrite dict_get_remove by done.
    destruct (Z.eqb_spec te k); [congruence|]. by apply elem_dict_get.
Qed.

(** The cells after the loop of [insert_te]: disabled where an entry that
    contains the insertion point covers them, untouched elsewhere. *)
Lemma lookup_sweep_cells pos c d cells (i : nat) :
  Forall (range_in (len cells) c) d ->
  sweep_cells pos d cells !! i =
  if decide (Exists (hit pos i) d) then Some sym_disabled else cells !! i.
Proof.
  intros Hd. case_decide as Hex.
  - apply Exists_exists in Hex as ([id [s e]] & Hin & Hp & Hi). simpl in *.
    by eapply sweep_cells_disables.
  - eapply sweep_cells_other; [done|]. intros id s e Hin Hp Hi.
    apply Hex, Exists_exists. by exists (id, (s, e)).
Qed.

Lemma known_symbol_slice_assign (l r : list ascii) (s e : Z) :
  Forall known_symbol l -> Forall known_symbol r ->
  Forall known_symbol (slice_assign l s e r).
Proof.
  intros Hl Hr. unfold slice_assign.
  repeat apply Forall_app_2; [by apply Forall_take | done | by apply Forall_drop].
Qed.

Lemma known_symbol_py_repeat (k : Z) (c : ascii) :
  known_symbol c -> Forall known_symbol (py_repeat k c).
Proof. intros. by apply Forall_replicate. Qed.

Lemma known_symbol_sweep_cells pos (d : dict te_range) : forall cells,
  Forall known_symbol cells -> Forall known_symbol (sweep_cells pos d cells).
Proof.
  induction d as [|[id [s e]] d IH]; intros cells Hc; simpl; [done|].
  apply IH. destruct ((s <=? pos) && (pos <? e)); [|done].
  apply known_symbol_slice_assign; [done|].
  apply known_symbol_py_repeat. right; by right.
Qed.

(** In a registry without duplicate keys an id has one range. *)
Lemma dict_range_unique {V} (d : dict V) k (r1 r2 : V) :
  NoDup (dict_keys d) -> (k, r1) ∈ d -> (k, r2) ∈ d -> r1 = r2.
Proof.
  intros Hnd H1 H2.
  pose proof (elem_dict_get _ _ _ Hnd H1) as G1.
  pose proof (elem_dict_get _ _ _ Hnd H2) as G2. congruence.
Qed.

Lemma list_cells_ok_init n : list_cells_ok (ListGenome.init n).
Proof.
  split; simpl.
  - apply list_wf_init.
  - intros ? ? ? ? ? ? ? []%elem_of_nil.
  - intros i. split.
    + intros [Hc _]%lookup_replicate. discriminate.
    + intros (? & ? & ? & []%elem_of_nil & _).
  - apply known_symbol_py_repeat. by left.
Qed.

Lemma list_cells_ok_disable_te te g :
  list_cells_ok g -> list_cells_ok (ListGenome.disable_te te g).2.
Proof.
  intros [Hwf Hdis Hact Hsym].
  pose proof (list_wf_disable_te te g Hwf) as Hwf'.
  rewrite list_disable_te_run in *.
  destruct (dict_get te (ListGenome.te_identities g)) as [[s e]|] eqn:Hget; [|done].
  simpl in *. pose proof (list_wf_keys _ Hwf) as Hnd.
  pose proof (list_wf_ranges _ Hwf) as Hr. rewrite Forall_forall in Hr.
  pose proof (dict_get_elem _ _ _ Hget) as Hin.
  destruct (Hr _ Hin) as (Hid & Hse & He). simpl in *.
  split; simpl; [done | | |].
  - intros id1 s1 e1 id2 s2 e2 i [Hin1 _]%elem_dict_remove [Hin2 _]%elem_dict_remove; [|done..].
    by eapply Hdis.
  - intros i. rewrite lookup_slice_assign_fill by lia. case_decide as Hi.
    + split; [discriminate|].
      intros (id & s1 & e1 & [Hin1 Hne]%elem_dict_remove & Hi1); [|done].
      destruct Hne. by eapply (Hdis id s1 e1 te s e).
    + rewrite Hact. split.
      * intros (id & s1 & e1 & Hin1 & Hi1). exists id, s1, e1. split; [|done].
        apply elem_dict_remove; [done|]. split; [done|]. intros ->.
        assert ((s1, e1) = (s, e)) as [= -> ->] by (by eapply dict_range_unique). lia.
      * intros (id & s1 & e1 & [Hin1 Hne]%elem_dict_remove & Hi1); [|done].
        by exists id, s1, e1.
  - apply known_symbol_slice_assign; [done|].
    apply known_symbol_py_repeat. right; by right.
Qed.

(** An entry of the registry after the loop of [insert_te] comes from
    an entry that started after the insertion point (shifted) or that
    ended at or before it (kept). *)
Lemma sweep_entry pos l n c (d : dict te_range) id s' e' :
  Forall (range_in n c) d ->
  (id, (s', e')) ∈ sweep_registry pos l d <->
  exists s e, (id, (s, e)) ∈ d /\
    ((pos < s /\ s' = s + l /\ e' = e + l) \/ (e <= pos /\ s' = s /\ e' = e)).
Proof.
  intros Hd. rewrite Forall_forall in Hd. rewrite elem_sweep_registry. split.
  - intros (s & e & Hin & Hc & Heq). exists s, e. split; [done|].
    destruct (Hd _ Hin) as (_ & Hse & _). simpl in *.
    apply andb_false_iff in Hc.
    destruct (Z.gtb_spec s pos); injection Heq as -> ->; [left; lia|].
    right. destruct Hc as [?%Z.leb_gt|?%Z.ltb_ge]; lia.
  - intros (s & e & Hin & Hcase). exists s, e. split; [done|].
    destruct (Hd _ Hin) as (_ & Hse & _). simpl in *.
    destruct Hcase as [(? & -> & ->)|(? & -> & ->)].
    + split; [apply andb_false_iff; left; apply Z.leb_gt; lia|].
      by destruct (Z.gtb_spec s pos); [|lia].
    + split; [apply andb_false_iff; right; apply Z.ltb_ge; lia|].
      by destruct (Z.gtb_spec s pos); [lia|].
Qed.

(** The cells that still hold 'A' after the loop of [insert_te]. *)
Lemma active_after_sweep g p (j : nat) :
  list_cells_ok g ->
  sweep_cells p (ListGenome.te_identities g) (ListGenome.genome g) !! j = Some sym_active <->
  exists id s e, (id, (s, e)) ∈ ListGenome.te_identities g /\
                 s <= Z.of_nat j < e /\ ~ s <= p < e.
Proof.
  intros [Hwf Hdis Hact Hsym].
  rewrite (lookup_sweep_cells _ (ListGenome.te_count g)) by apply Hwf.
  case_decide as Hex.
  - apply Exists_exists in Hex as ([id2 [s2 e2]] & Hin2 & Hp2 & Hj2). simpl in *.
    split; [discriminate|]. intros (id & s & e & Hin & Hj & Hp).
    assert (id = id2) as -> by (by eapply (Hdis id s e id2 s2 e2)).
    assert ((s, e) = (s2, e2)) as [= -> ->]
      by (eapply dict_range_unique; [apply Hwf|done..]).
    done.
  - rewrite Hact. split.
    + intros (id & s & e & Hin & Hj). exists id, s, e. split; [done|]. split; [done|].
      intros Hp. apply Hex, Exists_exists. by exists (id, (s, e)).
    + intros (id & s & e & Hin & Hj & _). by exists id, s, e.
Qed.

Lemma list_cells_ok_insert_te pos l g :
  0 <= l -> list_cells_ok g -> list_cells_ok (ListGenome.insert_te pos l g).2.
Proof.
  intros Hl Hok. pose proof Hok as [Hwf Hdis Hact Hsym].
  pose proof (list_wf_insert_te pos l g Hl Hwf) as Hwf'.
  pose proof (len_nonneg (ListGenome.genome g)) as Hn.
  destruct (Z.gtb_spec pos (len (ListGenome.genome g))).
  { by rewrite list_insert_te_out_of_range by lia. }
  destruct (Z.eqb_spec (len (ListGenome.genome g)) 0).
  { by rewrite list_insert_te_empty by lia. }
  rewrite list_insert_te_run in * by (apply Hwf || lia). simpl in *.
  set (p := pos mod len (ListGenome.genome g)) in *.
  assert (Hp : 0 <= p < len (ListGenome.genome g)) by (apply Z.mod_pos_bound; lia).
  set (d := ListGenome.te_identities g) in *.
  set (cells := sweep_cells p d (ListGenome.genome g)) in *.
  assert (Hcells : len cells = len (ListGenome.genome g)) by (by eapply len_sweep_cells, Hwf).
  pose proof (list_wf_ranges _ Hwf) as Hranges. fold d in Hranges.
  pose proof Hranges as Hr. rewrite Forall_forall in Hr.
  assert (Hfresh : ListGenome.te_count g + 1 ∉ dict_keys (sweep_registry p l d)).
  { intros Hin%sweep_registry_keys.
    apply list_elem_of_fmap in Hin as ([k r] & Heq & Hin).
    apply Hr in Hin as [? _]. simpl in *. lia. }
  rewrite dict_set_fresh in * by done.
  (* the entries of the new registry *)
  assert (Hentry : forall id s' e',
    (id, (s', e')) ∈ sweep_registry p l d ++ [(ListGenome.te_count g + 1, (p, p + l))] <->
    (exists s e, (id, (s, e)) ∈ d /\
       ((p < s /\ s' = s + l /\ e' = e + l) \/ (e <= p /\ s' = s /\ e' = e))) \/
    (id = ListGenome.te_count g + 1 /\ s' = p /\ e' = p + l)).
  { intros id s' e'. rewrite elem_of_app, list_elem_of_singleton.
    rewrite (sweep_entry _ _ _ _ _ _ _ _ Hranges). split.
    - intros [?|[= -> -> ->]]; [by left | by right].
    - intros [?|(-> & -> & ->)]; [by left | by right]. }
  split; simpl; [done | | |].
  - intros id1 s1 e1 id2 s2 e2 i [(a1 & b1 & Hin1 & H1)|H1]%Hentry
      [(a2 & b2 & Hin2 & H2)|H2]%Hentry Hi1 Hi2; [| lia | lia | lia].
    destruct H1 as [H1|H1], H2 as [H2|H2]; try lia.
    + apply (Hdis id1 a1 b1 id2 a2 b2 (i - l)); (done || lia).
    + apply (Hdis id1 a1 b1 id2 a2 b2 i); (done || lia).
  - intros i. rewrite lookup_splice by lia. rewrite len_py_repeat by done.
    unfold py_repeat. rewrite length_replicate.
    case_decide as Hi1; [|case_decide as Hi2].
    + unfold cells, d. rewrite (active_after_sweep g p i Hok). fold d. split.
      * intros (id & s & e & Hin & Hi & Hnc). exists id, s, e. split; [|done].
        apply Hentry. left. exists s, e. split; [done|]. right.
        destruct (Hr _ Hin) as (_ & ? & _). simpl in *. lia.
      * intros (id & s' & e' & [(s & e & Hin & Hc)|Hc]%Hentry & Hi); [|lia].
        exists id, s, e. split; [done|]. lia.
    + rewrite lookup_replicate_2 by lia. split; [|done]. intros _.
      exists (ListGenome.te_count g + 1), p, (p + l). split; [|lia].
      apply Hentry. by right.
    + unfold cells, d. rewrite (active_after_sweep g p _ Hok). fold d. split.
      * intros (id & s & e & Hin & Hi & Hnc). exists id, (s + l), (e + l). split; [|lia].
        apply Hentry. left. exists s, e. split; [done|]. left. lia.
      * intros (id & s' & e' & [(s & e & Hin & Hc)|Hc]%Hentry & Hi); [|lia].
        exists id, s, e. split; [done|]. lia.
  - repeat apply Forall_app_2.
    + apply Forall_take. by apply known_symbol_sweep_cells.
    + apply known_symbol_py_repeat. right; by left.
    + apply Forall_drop. by apply known_symbol_sweep_cells.
Qed.

Lemma list_cells_ok_copy_te te offset g :
  list_cells_ok g -> list_cells_ok (ListGenome.copy_te te offset g).2.
Proof.
  intros Hok. rewrite list_copy_te_run.
  destruct (dict_get te (ListGenome.te_identities g)) as [[s e]|] eqn:Hget; [|done].
  assert (0 <= e - s).
  { pose proof (list_wf_ranges _ (list_cells_wf _ Hok)) as Hr. rewrite Forall_forall in Hr.
    destruct (Hr _ (dict_get_elem _ _ _ Hget)) as (? & ? & ?). simpl in *. lia. }
  pose proof (list_cells_ok_insert_te (s + offset) (e - s) g) as Hins.
  destruct (ListGenome.insert_te (s + offset) (e - s) g) as [[id|ex] g']; simpl in *; auto.
Qed.

Lemma list_cells_ok_run o g : op_ok o -> list_cells_ok g -> list_cells_ok (run o g).2.
Proof.
  intros Ho Hok. rewrite run_state_list. destruct o; simpl in Ho.
  - by apply list_cells_ok_insert_te.
  - by apply list_cells_ok_copy_te.
  - by apply list_cells_ok_disable_te.
Qed.

Lemma list_cells_ok_run_script ops : forall g,
  Forall op_ok ops -> list_cells_ok g -> list_cells_ok (run_script ops g).
Proof.
  induction ops as [|o ops IH]; intros g Hops Hok; [done|].
  apply Forall_cons in Hops as [Ho Hops]. simpl.
  apply IH; [done|]. by apply list_cells_ok_run.
Qed.

(** X12: in the list variant the property of C5 holds in every state a
    script reaches: the registered ranges are pairwise disjoint, the indices that
    render 'A' are exactly the indices they cover, and every other cell
    renders '-' or 'x'. *)
Lemma list_active_cells_are_the_registered_ranges (n : Z) (script : list op) :
  Forall op_ok script ->
  let g := run_script script (ListGenome.init n) in
  ranges_disjoint (ListGenome.te_identities g) /\
  forall i,
    (char_at (ListGenome.render g) i = Some sym_active <->
     covered (ListGenome.te_identities g) i) /\
    (forall c, char_at (ListGenome.render g) i = Some c ->
       ~ covered (ListGenome.te_identities g) i ->
       c = sym_empty \/ c = sym_disabled).
Proof.
  intros Hscript g.
  destruct (list_cells_ok_run_script script (ListGenome.init n) Hscript
              (list_cells_ok_init n)) as [Hwf Hdis Hact Hsym].
  fold g in Hwf, Hdis, Hact, Hsym. split; [done|]. intros i.
  unfold ListGenome.render.
  destruct (decide (0 <= i)) as [Hi|Hi].
  - rewrite char_at_string_of_list by done. rewrite Hact, Z2Nat.id by done.
    split; [done|]. intros c Hc Hnc.
    rewrite Forall_forall in Hsym.
    destruct (Hsym c) as [-> | [-> | ->] ]; [by eapply list_elem_of_lookup_2 | by left | | by right].
    destruct Hnc. apply Hact in Hc. by rewrite Z2Nat.id in Hc.
  - unfold char_at. destruct (Z.ltb_spec i 0); [|lia]. split; [|done]. split; [done|].
    intros (id & s & e & Hin & Hse).
    pose proof (list_wf_ranges _ Hwf) as Hr. rewrite Forall_forall in Hr.
    destruct (Hr _ Hin) as (_ & ? & _). simpl in *. lia.
Qed.

(** * Further properties of the code *)

(** ** Unlinking a cell *)
Lemma node_at_delete hd (nodes : list nat) j i :
  node_at hd (delete j nodes) i =
  node_at hd nodes (if decide (i < j)%nat then i else S i).
Proof.
  unfold node_at. rewrite list_lookup_delete. by case_decide.
Qed.

(** [remove_link] of the cell at position [j] takes it out of the ring. *)
Lemma ring_remove_link h hd (nodes : list nat) (vals : list ascii) j :
  ring h hd nodes vals -> (j < Datatypes.length nodes)%nat ->
  exists h',
    remove_link (Some (node_at hd nodes j)) h = (Return tt, h') /\
    ring h' hd (delete j nodes) (delete j vals).
Proof.
  intros Hr Hj. pose proof Hr as [Hnd Hlen Hlinks].
  set (K := Datatypes.length nodes) in *.
  set (pj := pred_pos K j). set (nj := succ_pos K j).
  assert (Hpj : (pj <= K)%nat) by (apply pred_pos_le; lia).
  assert (Hnj : (nj <= K)%nat) by (apply succ_pos_le; lia).
  set (aj := node_at hd nodes j). set (ap := node_at hd nodes pj).
  set (an := node_at hd nodes nj).
  assert (Hinj : forall x y, (x <= K)%nat -> (y <= K)%nat ->
            node_at hd nodes x = node_at hd nodes y -> x = y).
  { intros. by eapply node_at_inj. }
  pose proof (Hlinks j ltac:(lia)) as Hlj. fold pj nj aj ap an in Hlj.
  pose proof (Hlinks pj Hpj) as Hlp. fold ap in Hlp.
  set (Lp := mkLink (vals !! pj) (Some (node_at hd nodes (pred_pos K pj))) (Some an)).
  set (h1 := <[ap := Lp]> h).
  assert (Hap : (ap < Datatypes.length h)%nat) by (by eapply ring_node_lt).
  assert (Han : (an < Datatypes.length h)%nat) by (by eapply ring_node_lt).
  assert (Hh1 : forall x, h1 !! x = if decide (x = ap) then Some Lp else h !! x).
  { intros x. unfold h1. case_decide as Hx.
    - subst x. by apply list_lookup_insert_eq.
    - by apply list_lookup_insert_ne. }
  assert (Hjp : aj <> ap).
  { intros Heq. apply Hinj in Heq; [|lia|done]. unfold pj, pred_pos in Heq.
    destruct (Nat.eqb_spec j 0); lia. }
  assert (Hlen1 : Datatypes.length h1 = Datatypes.length h) by apply length_insert.
  destruct (h1 !! an) as [Ln|] eqn:Hln.
  2:{ apply lookup_ge_None in Hln. lia. }
  set (Ln' := mkLink (val Ln) (Some ap) (next Ln)).
  set (h2 := <[an := Ln']> h1).
  assert (Hh2 : forall x, h2 !! x = if decide (x = an) then Some Ln' else h1 !! x).
  { intros x. unfold h2. case_decide as Hx.
    - subst x. apply list_lookup_insert_eq. lia.
    - by apply list_lookup_insert_ne. }
  exists h2. split.
  { unfold remove_link.
    erewrite bind_run by (eapply get_prev_run, Hlj). simpl.
    erewrite bind_run by (eapply get_next_run, Hlj). simpl.
    erewrite bind_run.
    2:{ unfold set_next. eapply update_run, Hlp. }
    simpl. fold Lp h1.
    erewrite bind_run.
    2:{ eapply get_next_run. rewrite Hh1, decide_False by done. exact Hlj. }
    erewrite bind_run.
    2:{ eapply get_prev_run. rewrite Hh1, decide_False by done. exact Hlj. }
    simpl. unfold set_prev. erewrite update_run by exact Hln. done. }
  assert (Hsome : is_Some (nodes !! j)) by (apply lookup_lt_is_Some; lia).
  assert (Hsomev : is_Some (vals !! j)) by (apply lookup_lt_is_Some; lia).
  split.
  - apply NoDup_cons in Hnd as [Hhd Hnd]. apply NoDup_cons. split.
    + intros Hin. apply Hhd. eapply elem_of_sublist; [done | apply sublist_delete].
    + eapply sublist_NoDup; [done | apply sublist_delete].
  - rewrite !length_delete by done. lia.
  - rewrite length_delete by done. fold K. intros i Hi.
    rewrite !node_at_delete, (list_lookup_delete vals).
    assert (Hold : forall x, (x <= K)%nat -> x <> j ->
              h2 !! node_at hd nodes x =
              Some (mkLink (vals !! x)
                (Some (if decide (x = nj) then ap
                       else node_at hd nodes (pred_pos K x)))
                (Some (if decide (x = pj) then an
                       else node_at hd nodes (succ_pos K x))))).
    { intros x Hx Hxj. rewrite Hh2. case_decide as Hxn.
      - apply Hinj in Hxn; [|done..]. subst x. rewrite decide_True by done.
        unfold Ln'. rewrite Hh1 in Hln. case_decide as Hnp.
        + apply Hinj in Hnp; [|done..]. rewrite decide_True by done.
          injection Hln as <-. simpl. by rewrite Hnp.
        + unfold an in Hln. rewrite (Hlinks nj Hnj) in Hln. injection Hln as <-. simpl.
          rewrite decide_False; [done|]. intros ->. by apply Hnp.
      - rewrite decide_False by (intros ->; by apply Hxn).
        rewrite Hh1. case_decide as Hxp.
        + apply Hinj in Hxp; [|done..]. subst x. by rewrite decide_True.
        + rewrite decide_False by (intros ->; by apply Hxp). by apply Hlinks. }
    destruct (decide (i < j)%nat) as [Hij|Hij].
    + rewrite Hold by lia. unfold ap, an, pj, nj in *. ring_cases.
    + rewrite Hold by lia. unfold ap, an, pj, nj in *. ring_cases.
Qed.

Lemma delete_insert_at {A} (l : list A) (s : nat) (x : A) :
  (s <= Datatypes.length l)%nat -> delete s (take s l ++ x :: drop s l) = l.
Proof.
  intros Hs. rewrite <- (take_drop s l) at 3.
  rewrite <- (delete_middle (take s l) (drop s l) x).
  by rewrite length_take, Nat.min_l by lia.
Qed.

(** ** What a call that returns has done to the heap *)
Lemma bind_inv {S A B} (c : M S A) (k : A -> M S B) s b s'' :
  (c ≫= k) s = (Return b, s'') ->
  exists a s', c s = (Return a, s') /\ k a s' = (Return b, s'').
Proof.
  unfold mbind, M_bind. destruct (c s) as [[a|e] s']; [eauto | discriminate].
Qed.

Lemma deref_inv r (h h' : heap) l : deref r h = (Return l, h') -> h' = h.
Proof.
  unfold deref. unfold_m. destruct r as [a|]; [|discriminate].
  destruct (h !! a); [by intros [= _ <-] | discriminate].
Qed.

Lemma get_next_inv r (h h' : heap) n : get_next r h = (Return n, h') -> h' = h.
Proof.
  intros (l & h1 & Hd%deref_inv & Hret)%bind_inv. unfold_m. by simplify_eq.
Qed.

Lemma get_prev_inv r (h h' : heap) n : get_prev r h = (Return n, h') -> h' = h.
Proof.
  intros (l & h1 & Hd%deref_inv & Hret)%bind_inv. unfold_m. by simplify_eq.
Qed.

Lemma update_length r f (h h' : heap) :
  update r f h = (Return tt, h') -> Datatypes.length h' = Datatypes.length h.
Proof.
  intros (l & h1 & Hd%deref_inv & Hret)%bind_inv. subst h1.
  destruct r as [a|]; [|discriminate]. unfold_m. simplify_eq.
  apply length_insert.
Qed.

(** A call of [insert_after] that returns has allocated exactly one link;
    a call of [remove_link] that returns has allocated none. *)
Lemma insert_after_length link v (h h' : heap) :
  insert_after link v h = (Return tt, h') ->
  Datatypes.length h' = S (Datatypes.length h).
Proof.
  unfold insert_after.
  intros (n & h1 & ->%get_next_inv & Hrun)%bind_inv.
  apply bind_inv in Hrun as (nl & h2 & Hnew & Hrun).
  rewrite new_Link_run in Hnew. injection Hnew as <- <-.
  apply bind_inv in Hrun as (p & h3 & ->%get_prev_inv & Hrun).
  apply bind_inv in Hrun as ([] & h4 & Hl4%update_length & Hrun).
  apply bind_inv in Hrun as (n' & h5 & ->%get_next_inv & Hl5%update_length).
  rewrite Hl5, Hl4, length_app. simpl. lia.
Qed.

Lemma remove_link_length link (h h' : heap) :
  remove_link link h = (Return tt, h') ->
  Datatypes.length h' = Datatypes.length h.
Proof.
  unfold remove_link.
  intros (p & h1 & ->%get_prev_inv & Hrun)%bind_inv.
  apply bind_inv in Hrun as (n & h2 & ->%get_next_inv & Hrun).
  apply bind_inv in Hrun as ([] & h3 & Hl3%update_length & Hrun).
  apply bind_inv in Hrun as (n' & h4 & ->%get_next_inv & Hrun).
  apply bind_inv in Hrun as (p' & h5 & ->%get_prev_inv & Hl5%update_length).
  by rewrite Hl5, Hl3.
Qed.

(** The ring of a genome of two cells, for the examples below. *)
Lemma ring_of_two_cells :
  ring (LinkedListGenome.links (LinkedListGenome.init 2)) 0 [1; 2]%nat
       [sym_empty; sym_empty].
Proof.
  split.
  - repeat (apply NoDup_cons; split; [rewrite ?elem_of_cons, ?elem_of_nil; lia|]).
    apply NoDup_nil_2.
  - done.
  - intros [|[|[|j]]] Hj; simpl in Hj; [by vm_compute.. | lia].
Qed.

(** X1: [insert_after(link, val)] on a well-formed ring allocates one new
    link and leaves a well-formed ring in which the new cell comes right
    after [link]: after the cell at position [j] when [link] is a cell, and
    as the first cell when [link] is the head. *)
Theorem insert_after_places_the_new_cell
    (h : heap) (hd : nat) (nodes : list nat) (vals : list ascii) (j : nat) (v : ascii) :
  ring h hd nodes vals -> (j <= Datatypes.length nodes)%nat ->
  exists h' nodes',
    insert_after (Some (node_at hd nodes j)) (Some v) h = (Return tt, h') /\
    Datatypes.length h' = S (Datatypes.length h) /\
    ring h' hd nodes'
      (if decide (j < Datatypes.length nodes)%nat
       then take (S j) vals ++ v :: drop (S j) vals
       else v :: vals).
Proof.
  intros Hr Hj.
  destruct (ring_insert_after h hd nodes vals j v Hr Hj) as (h' & Hrun & Hr').
  exists h', (take (succ_pos (Datatypes.length nodes) j) nodes ++ Datatypes.length h
              :: drop (succ_pos (Datatypes.length nodes) j) nodes).
  split; [done|]. split; [by eapply insert_after_length|].
  case_decide as Hlt.
  - rewrite succ_pos_lt in * by done. exact Hr'.
  - assert (j = Datatypes.length nodes) as -> by lia.
    unfold succ_pos in *. rewrite Nat.ltb_irrefl in *. exact Hr'.
Qed.

Lemma insert_after_places_the_new_cell_witness :
  exists h' nodes',
    insert_after (Some 1%nat) (Some sym_active)
      (LinkedListGenome.links (LinkedListGenome.init 2)) = (Return tt, h') /\
    Datatypes.length h' = 4%nat /\
    ring h' 0 nodes' [sym_empty; sym_active; sym_empty].
Proof.
  destruct (insert_after_places_the_new_cell _ 0 [1; 2]%nat [sym_empty; sym_empty]
              0 sym_active ring_of_two_cells) as (h' & nodes' & Hrun & Hlen & Hr).
  - simpl. lia.
  - exists h', nodes'. split_and!; [exact Hrun | exact Hlen | exact Hr].
Defined.

(** X2: [remove_link(link)] of a cell of a well-formed ring allocates
    nothing and leaves a well-formed ring without that cell; the cells
    before and after it keep their order and their values. *)
Theorem remove_link_takes_the_cell_out
    (h : heap) (hd : nat) (nodes : list nat) (vals : list ascii) (j : nat) :
  ring h hd nodes vals -> (j < Datatypes.length nodes)%nat ->
  exists h',
    remove_link (Some (node_at hd nodes j)) h = (Return tt, h') /\
    Datatypes.length h' = Datatypes.length h /\
    ring h' hd (delete j nodes) (take j vals ++ drop (S j) vals).
Proof.
  intros Hr Hj.
  destruct (ring_remove_link h hd nodes vals j Hr Hj) as (h' & Hrun & Hr').
  exists h'. split; [done|]. split; [by eapply remove_link_length|].
  by rewrite <- delete_take_drop.
Qed.

Lemma remove_link_takes_the_cell_out_witness :
  exists h',
    remove_link (Some 1%nat) (LinkedListGenome.links (LinkedListGenome.init 2))
      = (Return tt, h') /\
    Datatypes.length h' = 3%nat /\
    ring h' 0 [2]%nat [sym_empty].
Proof.
  destruct (remove_link_takes_the_cell_out _ 0 [1; 2]%nat [sym_empty; sym_empty] 0
              ring_of_two_cells) as (h' & Hrun & Hlen & Hr).
  - simpl. lia.
  - exists h'. split_and!; [exact Hrun | exact Hlen | exact Hr].
Defined.

(** X3: [remove_link] undoes [insert_after]: inserting a value after any
    link of a well-formed ring and then removing the link that was just
    allocated gives back a ring with the same cells, at the same
    addresses and with the same values, in the same order. *)
Theorem remove_link_undoes_insert_after
    (h : heap) (hd : nat) (nodes : list nat) (vals : list ascii) (j : nat) (v : ascii) :
  ring h hd nodes vals -> (j <= Datatypes.length nodes)%nat ->
  exists h1 h2,
    insert_after (Some (node_at hd nodes j)) (Some v) h = (Return tt, h1) /\
    remove_link (Some (Datatypes.length h)) h1 = (Return tt, h2) /\
    ring h2 hd nodes vals.
Proof.
  intros Hr Hj. pose proof (ring_length _ _ _ _ Hr) as Hlen.
  destruct (ring_insert_after h hd nodes vals j v Hr Hj) as (h1 & Hrun1 & Hr1).
  set (s := succ_pos (Datatypes.length nodes) j) in *.
  assert (Hs : (s <= Datatypes.length nodes)%nat) by (by apply succ_pos_le).
  destruct (ring_remove_link h1 hd _ _ s Hr1) as (h2 & Hrun2 & Hr2).
  { rewrite length_insert_at. lia. }
  rewrite node_at_insert in Hrun2 by done.
  rewrite decide_False, decide_True in Hrun2 by lia.
  rewrite !delete_insert_at in Hr2 by lia.
  by exists h1, h2.
Qed.

Lemma remove_link_undoes_insert_after_witness :
  exists h1 h2,
    insert_after (Some 0%nat) (Some sym_active)
      (LinkedListGenome.links (LinkedListGenome.init 2)) = (Return tt, h1) /\
    remove_link (Some 3%nat) h1 = (Return tt, h2) /\
    ring h2 0 [1; 2]%nat [sym_empty; sym_empty].
Proof.
  destruct (remove_link_undoes_insert_after _ 0 [1; 2]%nat [sym_empty; sym_empty]
              2 sym_active ring_of_two_cells) as (h1 & h2 & Hrun1 & Hrun2 & Hr).
  - simpl. lia.
  - exists h1, h2. split_and!; [exact Hrun1 | exact Hrun2 | exact Hr].
Defined.

(** ** Constructors *)
Lemma linked_init_length n : 0 <= n -> LinkedListGenome.length (LinkedListGenome.init n) = n.
Proof.
  intros Hn. rewrite (linked_wf_length _ _ (linked_wf_init n Hn)).
  by apply len_py_repeat.
Qed.

(** X4: a genome constructed with [n >= 0] cells renders [n] times '-',
    has no active TE, has length [n] and has issued no id, in both
    variants. *)
Theorem constructors_give_n_empty_cells (n : Z) :
  0 <= n ->
  observe (ListGenome.init n)
    = (Return (string_of_list_ascii (py_repeat n sym_empty)), [], n) /\
  observe (LinkedListGenome.init n)
    = (Return (string_of_list_ascii (py_repeat n sym_empty)), [], n) /\
  ListGenome.te_count (ListGenome.init n) = 0 /\
  LinkedListGenome.te_count (LinkedListGenome.init n) = 0.
Proof.
  intros Hn. destruct (linked_init_registry n) as [Hd Hc].
  split_and!; [| |done|done].
  - unfold observe. simpl. unfold ListGenome.length. simpl.
    by rewrite len_py_repeat.
  - unfold observe. simpl. rewrite (linked_render_run _ _ (linked_wf_init n Hn)).
    unfold LinkedListGenome.active_tes. by rewrite Hd, linked_init_length.
Qed.

Lemma constructors_give_n_empty_cells_witness :
  observe (ListGenome.init 3) = (Return "---"%string, [], 3) /\
  observe (LinkedListGenome.init 3) = (Return "---"%string, [], 3) /\
  ListGenome.te_count (ListGenome.init 3) = 0 /\
  LinkedListGenome.te_count (LinkedListGenome.init 3) = 0.
Proof. apply (constructors_give_n_empty_cells 3). lia. Defined.

(** ** The empty genome *)

(** X5: a list genome constructed with [n <= 0] has no cell, and no
    script of calls ever changes it: every [insert_te] raises
    ([ValueError] for a positive position, [ZeroDivisionError] otherwise),
    every [disable_te] raises [KeyError] and every [copy_te] returns
    [None]. *)
Theorem empty_list_genome_never_changes (n : Z) (script : list op) (pos l te offset : Z) :
  n <= 0 ->
  run_script script (ListGenome.init n) = ListGenome.init n /\
  ListGenome.length (ListGenome.init n) = 0 /\
  ListGenome.insert_te pos l (ListGenome.init n)
    = (Raise (if pos >? 0 then ValueError else ZeroDivisionError), ListGenome.init n) /\
  ListGenome.disable_te te (ListGenome.init n) = (Raise KeyError, ListGenome.init n) /\
  ListGenome.copy_te te offset (ListGenome.init n) = (Return None, ListGenome.init n).
Proof.
  intros Hn.
  assert (Hinit : ListGenome.init n = ListGenome.mk [] [] 0).
  { unfold ListGenome.init, py_repeat. by replace (Z.to_nat n) with 0%nat by lia. }
  rewrite Hinit.
  assert (Hins : forall pos l, ListGenome.insert_te pos l (ListGenome.mk [] [] 0)
            = (Raise (if pos >? 0 then ValueError else ZeroDivisionError),
               ListGenome.mk [] [] 0)).
  { intros p k. unfold ListGenome.insert_te, py_mod. unfold_m. simpl.
    change (len []) with 0. by destruct (p >? 0). }
  split_and!; try done.
  induction script as [|o script IH]; [done|]. simpl.
  rewrite run_state_list. destruct o as [p k|t off|t]; simpl.
  - by rewrite Hins.
  - exact IH.
  - exact IH.
Qed.

Lemma empty_list_genome_never_changes_witness :
  run_script [InsertTe 0 3; CopyTe 1 2; DisableTe 1; InsertTe 1 1] (ListGenome.init 0)
    = ListGenome.init 0 /\
  ListGenome.insert_te 0 3 (ListGenome.init 0) = (Raise ZeroDivisionError, ListGenome.init 0).
Proof.
  destruct (empty_list_genome_never_changes 0
              [InsertTe 0 3; CopyTe 1 2; DisableTe 1; InsertTe 1 1] 0 3 1 2)
    as (Hrun & _ & Hins & _); [lia|].
  split; [exact Hrun | exact Hins].
Defined.

(** X6: the linked variant does accept an insertion into a genome without
    cells: on [LinkedListGenome(0)], [insert_te(pos, len)] with [pos <= 0]
    and [len >= 0] returns the id 1, registers the range [(pos, pos + len)]
    and leaves a genome that renders [len] times 'A' and has length
    [len]. *)
Theorem linked_insert_into_empty_genome (pos l : Z) :
  pos <= 0 -> 0 <= l ->
  exists g',
    LinkedListGenome.insert_te pos l (LinkedListGenome.init 0) = (Return 1, g') /\
    LinkedListGenome.te_identities g' = [(1, (pos, pos + l))] /\
    LinkedListGenome.length g' = l /\
    LinkedListGenome.render g' = (Return (string_of_list_ascii (py_repeat l sym_active)), g').
Proof.
  intros Hpos Hl. destruct (linked_init_registry 0) as [Hd Hc].
  pose proof (linked_wf_init 0 ltac:(lia)) as Hwf.
  pose proof (linked_init_length 0 ltac:(lia)) as Hlen.
  destruct (linked_insert_te_spec pos l _ _ Hwf) as (g' & Hrun & Hlen' & Hd' & _ & Hwf');
    [lia | done |].
  rewrite Hd, Hc in *. simpl in *.
  exists g'. split_and!; [done | done | lia |].
  by apply linked_render_run in Hwf'.
Qed.

Lemma linked_insert_into_empty_genome_witness :
  exists g',
    LinkedListGenome.insert_te 0 2 (LinkedListGenome.init 0) = (Return 1, g') /\
    LinkedListGenome.te_identities g' = [(1, (0, 0 + 2))] /\
    LinkedListGenome.length g' = 2 /\
    LinkedListGenome.render g' = (Return "AA"%string, g').
Proof. apply (linked_insert_into_empty_genome 0 2); lia. Defined.

(** ** Disabling an active TE *)

(** X7: in the list variant [disable_te] of an active TE with range
    [[s, e)] returns, takes that id (and no other) out of the registry,
    leaves the ranges of the other TEs and [length()] as they are, and
    turns exactly the cells of [[s, e)] into 'x'. *)
Theorem list_disable_te_of_an_active_te (g : ListGenome.t) (te s e : Z) :
  list_wf g -> dict_get te (ListGenome.te_identities g) = Some (s, e) ->
  exists g',
    ListGenome.disable_te te g = (Return tt, g') /\
    ListGenome.length g' = ListGenome.length g /\
    ListGenome.te_count g' = ListGenome.te_count g /\
    (forall te', dict_get te' (ListGenome.te_identities g') =
                 if te =? te' then None else dict_get te' (ListGenome.te_identities g)) /\
    (forall i, char_at (ListGenome.render g') i =
               if decide (s <= i < e) then Some sym_disabled
               else char_at (ListGenome.render g) i).
Proof.
  intros Hwf Hget. rewrite list_disable_te_run, Hget.
  pose proof (list_wf_ranges _ Hwf) as Hr. rewrite Forall_forall in Hr.
  destruct (Hr _ (dict_get_elem _ _ _ Hget)) as (Hid & Hse & He). simpl in *.
  eexists. split; [done|]. unfold ListGenome.length, ListGenome.render. simpl.
  split_and!.
  - by rewrite len_slice_assign_fill by lia.
  - done.
  - intros te'. apply dict_get_remove, Hwf.
  - intros i. destruct (decide (0 <= i)) as [Hi|Hi].
    + rewrite !char_at_string_of_list by done.
      rewrite lookup_slice_assign_fill by lia.
      repeat case_decide; (done || lia).
    + unfold char_at. destruct (Z.ltb_spec i 0); [|lia]. case_decide; [lia | done].
Qed.

Lemma list_disable_te_of_an_active_te_witness :
  let g := run_script [InsertTe 2 3] (ListGenome.init 7) in
  exists g',
    ListGenome.disable_te 1 g = (Return tt, g') /\
    ListGenome.length g' = ListGenome.length g /\
    dict_get 1 (ListGenome.te_identities g') = None /\
    char_at (ListGenome.render g') 2 = Some sym_disabled.
Proof.
  intros g.
  destruct (list_disable_te_of_an_active_te g 1 2 5)
    as (g' & Hrun & Hlen & _ & Hd & Hc).
  - apply list_wf_reachable. repeat constructor. simpl. lia.
  - by vm_compute.
  - exists g'. split_and!; [exact Hrun | exact Hlen | apply (Hd 1) |].
    rewrite (Hc 2). by rewrite decide_True by lia.
Defined.

(** X8: the same in the linked variant, for a TE whose registered range
    starts at a non-negative index. *)
Theorem linked_disable_te_of_an_active_te
    (g : LinkedListGenome.t) (vals : list ascii) (te s e : Z) :
  linked_wf g vals -> dict_get te (LinkedListGenome.te_identities g) = Some (s, e) ->
  0 <= s ->
  exists g' str str',
    LinkedListGenome.disable_te te g = (Return tt, g') /\
    LinkedListGenome.length g' = LinkedListGenome.length g /\
    LinkedListGenome.te_count g' = LinkedListGenome.te_count g /\
    (forall te', dict_get te' (LinkedListGenome.te_identities g') =
                 if te =? te' then None
                 else dict_get te' (LinkedListGenome.te_identities g)) /\
    LinkedListGenome.render g = (Return str, g) /\
    LinkedListGenome.render g' = (Return str', g') /\
    (forall i, char_at str' i =
               if decide (s <= i < e) then Some sym_disabled else char_at str i).
Proof.
  intros Hwf Hget Hs.
  destruct (linked_disable_te_spec te g vals s e Hwf Hget)
    as (g' & Hrun & Hlen & Hd & Hc & Hwf').
  pose proof (linked_wf_ranges _ _ Hwf) as Hr. rewrite Forall_forall in Hr.
  pose proof (linked_range_fits _ _ _ _ _ vals (Hr _ (dict_get_elem _ _ _ Hget))
                (linked_wf_length _ _ Hwf)) as Hfit.
  destruct (Hr _ (dict_get_elem _ _ _ Hget)) as (Hid & Hse & He & _). simpl in *.
  exists g', (string_of_list_ascii vals), (string_of_list_ascii (linked_fill s e vals)).
  split_and!; try done.
  - intros te'. rewrite Hd. apply dict_get_remove, Hwf.
  - by apply linked_render_run.
  - by apply linked_render_run.
  - intros i. destruct (decide (0 <= i)) as [Hi|Hi].
    + rewrite !char_at_string_of_list by done.
      rewrite lookup_linked_fill by done.
      repeat case_decide; (done || lia).
    + unfold char_at. destruct (Z.ltb_spec i 0); [|lia]. case_decide; [lia | done].
Qed.

Lemma linked_disable_te_of_an_active_te_witness :
  let g := run_script [InsertTe 2 3] (LinkedListGenome.init 7) in
  exists g' str',
    LinkedListGenome.disable_te 1 g = (Return tt, g') /\
    LinkedListGenome.length g' = LinkedListGenome.length g /\
    dict_get 1 (LinkedListGenome.te_identities g') = None /\
    LinkedListGenome.render g' = (Return str', g') /\
    char_at str' 2 = Some sym_disabled.
Proof.
  intros g.
  destruct (linked_wf_reachable 7 [InsertTe 2 3] ltac:(lia)) as [vals Hwf].
  { repeat constructor. simpl. lia. }
  destruct (linked_disable_te_of_an_active_te g vals 1 2 5 Hwf)
    as (g' & str & str' & Hrun & Hlen & _ & Hd & _ & Hrender & Hc).
  - by vm_compute.
  - lia.
  - exists g', str'. split_and!; [exact Hrun | exact Hlen | apply (Hd 1) | exact Hrender |].
    rewrite (Hc 2). by rewrite decide_True by lia.
Defined.

(** ** Calls that raise *)
Lemma run_outcome {S A B} (c : M S A) (f : A -> B) (s : S) :
  (x ← c; mret (f x)) s =
  match c s with
  | (Return a, s') => (Return (f a), s')
  | (Raise e, s') => (Raise e, s')
  end.
Proof. unfold mbind, M_bind, mret, M_ret. by destruct (c s) as [[a|e] s']. Qed.

Lemma list_insert_te_cases pos l g :
  list_wf g ->
  (pos > ListGenome.length g /\ ListGenome.insert_te pos l g = (Raise ValueError, g)) \/
  (pos <= ListGenome.length g /\ ListGenome.length g = 0 /\
   ListGenome.insert_te pos l g = (Raise ZeroDivisionError, g)) \/
  (pos <= ListGenome.length g /\ ListGenome.length g <> 0 /\
   exists g', ListGenome.insert_te pos l g = (Return (ListGenome.te_count g + 1), g') /\
              ListGenome.te_count g' = ListGenome.te_count g + 1 /\
              (ListGenome.te_count g + 1 ∈ ListGenome.active_tes g')).
Proof.
  intros Hwf. unfold ListGenome.length.
  destruct (Z.gtb_spec pos (len (ListGenome.genome g))).
  { left. split; [lia|]. apply list_insert_te_out_of_range; lia. }
  destruct (Z.eqb_spec (len (ListGenome.genome g)) 0).
  { right; left. split_and!; [lia | done |]. apply list_insert_te_empty; lia. }
  right; right. split_and!; [lia | done |].
  rewrite list_insert_te_run by (apply Hwf || lia).
  eexists. split; [done|]. simpl. split; [done|].
  unfold ListGenome.active_tes. simpl. apply dict_get_keys.
  rewrite dict_get_set, Z.eqb_refl. eauto.
Qed.

Lemma linked_insert_te_cases pos l g vals :
  linked_wf g vals -> 0 <= l ->
  (pos > LinkedListGenome.length g /\
   LinkedListGenome.insert_te pos l g = (Raise ValueError, g)) \/
  (pos <= LinkedListGenome.length g /\
   exists g', LinkedListGenome.insert_te pos l g
                = (Return (LinkedListGenome.te_count g + 1), g') /\
              LinkedListGenome.te_count g' = LinkedListGenome.te_count g + 1 /\
              (LinkedListGenome.te_count g + 1 ∈ LinkedListGenome.active_tes g')).
Proof.
  intros Hwf Hl. destruct (Z.gtb_spec pos (LinkedListGenome.length g)).
  { left. split; [lia|]. apply linked_insert_te_out_of_range; lia. }
  right. split; [lia|].
  destruct (linked_insert_te_spec pos l g vals Hwf) as (g' & Hrun & _ & Hd & Hc & _);
    [lia | done |].
  exists g'. split_and!; [done | done |].
  unfold LinkedListGenome.active_tes. rewrite Hd. apply dict_get_keys.
  rewrite dict_get_set, Z.eqb_refl. eauto.
Qed.

(** X9: a call that raises leaves the genome exactly as it was, in both
    variants, and in a well-formed state the only exceptions are
    [KeyError] from [disable_te] and [ValueError] from [insert_te] and
    [copy_te] (in the list variant also [ZeroDivisionError], on a genome
    without cells); no call fails half-way through its mutations. *)
Theorem a_call_that_raises_changes_nothing
    (gl : ListGenome.t) (gk : LinkedListGenome.t) (vals : list ascii) (o : op) :
  list_wf gl -> linked_wf gk vals -> op_ok o ->
  (forall e g', run o gl = (Raise e, g') ->
     g' = gl /\
     match o with
     | DisableTe _ => e = KeyError
     | _ => e = ValueError \/ e = ZeroDivisionError
     end) /\
  (forall e g', run o gk = (Raise e, g') ->
     g' = gk /\
     match o with
     | DisableTe _ => e = KeyError
     | _ => e = ValueError
     end).
Proof.
  intros Hwfl Hwfk Hok. split.
  - intros e g'. unfold run. destruct o as [pos l|te offset|te]; simpl.
    + rewrite run_outcome.
      destruct (list_insert_te_cases pos l gl Hwfl)
        as [[_ ->]|[(_ & _ & ->)|(_ & _ & g1 & -> & _)]];
        intros [= <- <-] || discriminate; auto.
    + rewrite run_outcome, list_copy_te_run.
      destruct (dict_get te (ListGenome.te_identities gl)) as [[s e0]|]; [|discriminate].
      destruct (list_insert_te_cases (s + offset) (e0 - s) gl Hwfl)
        as [[_ ->]|[(_ & _ & ->)|(_ & _ & g1 & -> & _)]];
        intros [= <- <-] || discriminate; auto.
    + rewrite (run_outcome _ (fun _ => VUnit)), list_disable_te_run.
      destruct (dict_get te (ListGenome.te_identities gl)) as [[s e0]|]; [discriminate|].
      by intros [= <- <-].
  - intros e g'. unfold run. destruct o as [pos l|te offset|te]; simpl in *.
    + rewrite run_outcome.
      destruct (linked_insert_te_cases pos l gk vals Hwfk Hok)
        as [[_ ->]|(_ & g1 & -> & _)]; intros [= <- <-] || discriminate; auto.
    + rewrite run_outcome, linked_copy_te_run.
      destruct (dict_get te (LinkedListGenome.te_identities gk)) as [[s e0]|] eqn:Hget;
        [|discriminate].
      assert (0 <= e0 - s).
      { pose proof (linked_wf_ranges _ _ Hwfk) as Hr. rewrite Forall_forall in Hr.
        destruct (Hr _ (dict_get_elem _ _ _ Hget)) as (? & ? & ?). simpl in *. lia. }
      cbv zeta.
      match goal with |- context [LinkedListGenome.insert_te ?p ?len gk] =>
        destruct (linked_insert_te_cases p len gk vals Hwfk ltac:(lia))
          as [[_ ->]|(_ & g1 & -> & _)] end;
        intros [= <- <-] || discriminate; auto.
    + rewrite (run_outcome _ (fun _ => VUnit)).
      destruct (dict_get te (LinkedListGenome.te_identities gk)) as [[s e0]|] eqn:Hget.
      * destruct (linked_disable_te_spec te gk vals s e0 Hwfk Hget) as (g1 & -> & _).
        discriminate.
      * rewrite linked_disable_te_unknown by done. by intros [= <- <-].
Qed.

Lemma a_call_that_raises_changes_nothing_witness :
  let gl := run_script [InsertTe 1 2] (ListGenome.init 8) in
  let gk := run_script [InsertTe 1 2] (LinkedListGenome.init 8) in
  (forall e g', run (CopyTe 1 10) gl = (Raise e, g') ->
     g' = gl /\ (e = ValueError \/ e = ZeroDivisionError)) /\
  (forall e g', run (CopyTe 1 10) gk = (Raise e, g') -> g' = gk /\ e = ValueError).
Proof.
  intros gl gk.
  assert (Hok : Forall op_ok [InsertTe 1 2]) by (repeat constructor; simpl; lia).
  destruct (linked_wf_reachable 8 _ ltac:(lia) Hok) as [vals Hwfk].
  apply (a_call_that_raises_changes_nothing gl gk vals (CopyTe 1 10)).
  - by apply list_wf_reachable.
  - exact Hwfk.
  - exact I.
Defined.

(** ** Ids *)

(** X10: ids are issued in sequence and never reused.  In a well-formed
    state of either variant every active id lies in [1 .. te_count] and
    occurs once in [active_tes()]; a call that returns an id returns
    [te_count + 1], which was not active before and is active afterwards,
    and advances [te_count] to it; every other call (a [disable_te], a
    [copy_te] that returns [None], a call that raises) leaves [te_count] as
    it is. *)
Theorem ids_are_issued_in_sequence
    (gl : ListGenome.t) (gk : LinkedListGenome.t) (vals : list ascii) (o : op) :
  list_wf gl -> linked_wf gk vals -> op_ok o ->
  (NoDup (ListGenome.active_tes gl) /\
   (forall te, te ∈ ListGenome.active_tes gl -> 1 <= te <= ListGenome.te_count gl) /\
   match run o gl with
   | (Return (VInt id), g') =>
       id = ListGenome.te_count gl + 1 /\ ListGenome.te_count g' = id /\
       (id ∉ ListGenome.active_tes gl) /\ (id ∈ ListGenome.active_tes g')
   | (_, g') => ListGenome.te_count g' = ListGenome.te_count gl
   end) /\
  (NoDup (LinkedListGenome.active_tes gk) /\
   (forall te, te ∈ LinkedListGenome.active_tes gk ->
               1 <= te <= LinkedListGenome.te_count gk) /\
   match run o gk with
   | (Return (VInt id), g') =>
       id = LinkedListGenome.te_count gk + 1 /\ LinkedListGenome.te_count g' = id /\
       (id ∉ LinkedListGenome.active_tes gk) /\ (id ∈ LinkedListGenome.active_tes g')
   | (_, g') => LinkedListGenome.te_count g' = LinkedListGenome.te_count gk
   end).
Proof.
  intros Hwfl Hwfk Hok.
  assert (Hfl : ListGenome.te_count gl + 1 ∉ ListGenome.active_tes gl).
  { intros Hin%(list_active_issued _ _ Hwfl). lia. }
  assert (Hfk : LinkedListGenome.te_count gk + 1 ∉ LinkedListGenome.active_tes gk).
  { intros Hin%(linked_active_issued _ _ _ Hwfk). lia. }
  split.
  - split; [apply Hwfl|]. split; [intros te0; by apply list_active_issued|].
    unfold run. destruct o as [pos l|te offset|te]; simpl.
    + rewrite run_outcome.
      by destruct (list_insert_te_cases pos l gl Hwfl)
        as [[_ ->]|[(_ & _ & ->)|(_ & _ & g1 & -> & Hc & Hin)]].
    + rewrite run_outcome, list_copy_te_run.
      destruct (dict_get te (ListGenome.te_identities gl)) as [[s e0]|]; [|done].
      by destruct (list_insert_te_cases (s + offset) (e0 - s) gl Hwfl)
        as [[_ ->]|[(_ & _ & ->)|(_ & _ & g1 & -> & Hc & Hin)]].
    + rewrite (run_outcome _ (fun _ => VUnit)), list_disable_te_run.
      by destruct (dict_get te (ListGenome.te_identities gl)) as [[s e0]|].
  - split; [apply Hwfk|]. split; [intros te0; by eapply linked_active_issued|].
    unfold run. destruct o as [pos l|te offset|te]; simpl in *.
    + rewrite run_outcome.
      by destruct (linked_insert_te_cases pos l gk vals Hwfk Hok)
        as [[_ ->]|(_ & g1 & -> & Hc & Hin)].
    + rewrite run_outcome, linked_copy_te_run.
      destruct (dict_get te (LinkedListGenome.te_identities gk)) as [[s e0]|] eqn:Hget;
        [|done].
      assert (0 <= e0 - s).
      { pose proof (linked_wf_ranges _ _ Hwfk) as Hr. rewrite Forall_forall in Hr.
        destruct (Hr _ (dict_get_elem _ _ _ Hget)) as (? & ? & ?). simpl in *. lia. }
      cbv zeta.
      match goal with |- context [LinkedListGenome.insert_te ?p ?len gk] =>
        by destruct (linked_insert_te_cases p len gk vals Hwfk ltac:(lia))
          as [[_ ->]|(_ & g1 & -> & Hc & Hin)] end.
    + rewrite (run_outcome _ (fun _ => VUnit)).
      destruct (dict_get te (LinkedListGenome.te_identities gk)) as [[s e0]|] eqn:Hget.
      * by destruct (linked_disable_te_spec te gk vals s e0 Hwfk Hget)
          as (g1 & -> & _ & _ & Hc & _).
      * by rewrite linked_disable_te_unknown.
Qed.

Lemma ids_are_issued_in_sequence_witness :
  let gl := run_script [InsertTe 1 2; DisableTe 1] (ListGenome.init 8) in
  let gk := run_script [InsertTe 1 2; DisableTe 1] (LinkedListGenome.init 8) in
  (run (InsertTe 3 1) gl).1 = Return (VInt 2) /\
  (run (InsertTe 3 1) gk).1 = Return (VInt 2) /\
  (match run (InsertTe 3 1) gl with
   | (Return (VInt id), g') => id = ListGenome.te_count gl + 1
   | _ => True
   end) /\
  (match run (InsertTe 3 1) gk with
   | (Return (VInt id), g') => id = LinkedListGenome.te_count gk + 1
   | _ => True
   end).
Proof.
  intros gl gk.
  assert (Hok : Forall op_ok [InsertTe 1 2; DisableTe 1]) by (repeat constructor; simpl; lia).
  destruct (linked_wf_reachable 8 _ ltac:(lia) Hok) as [vals Hwfk].
  destruct (ids_are_issued_in_sequence gl gk vals (InsertTe 3 1))
    as [(_ & _ & Hl) (_ & _ & Hk)].
  - by apply list_wf_reachable.
  - exact Hwfk.
  - simpl. lia.
  - split_and!; [by vm_compute | by vm_compute | |].
    + destruct (run (InsertTe 3 1) gl) as [[[id| |]|e] g']; [apply Hl | done..].
    + destruct (run (InsertTe 3 1) gk) as [[[id| |]|e] g']; [apply Hk | done..].
Defined.

(** ** Scripts on which the two variants agree *)
Lemma list_insert_te_mod pos l g :
  list_wf g -> pos <= ListGenome.length g -> ListGenome.length g <> 0 ->
  ListGenome.insert_te pos l g =
  ListGenome.insert_te (pos mod ListGenome.length g) l g.
Proof.
  intros Hwf Hpos Hlen. unfold ListGenome.length in *.
  pose proof (len_nonneg (ListGenome.genome g)).
  assert (0 <= pos mod len (ListGenome.genome g) < len (ListGenome.genome g))
    by (apply Z.mod_pos_bound; lia).
  rewrite !list_insert_te_run by (apply Hwf || lia).
  by rewrite Z.mod_mod by done.
Qed.

Lemma variants_agree_on_copy gl gk te offset :
  same_genome gl gk -> interior_op (CopyTe te offset) gl ->
  (ListGenome.copy_te te offset gl).1 = (LinkedListGenome.copy_te te offset gk).1 /\
  same_genome (ListGenome.copy_te te offset gl).2 (LinkedListGenome.copy_te te offset gk).2.
Proof.
  intros Hsame Hint. pose proof Hsame as (Hwfl & Hwfk & Hd & Hc).
  simpl in Hint. rewrite list_copy_te_run, linked_copy_te_run, <- Hd.
  destruct (dict_get te (ListGenome.te_identities gl)) as [[s e]|] eqn:Hget; [|done].
  pose proof (list_wf_ranges _ Hwfl) as Hr. rewrite Forall_forall in Hr.
  destruct (Hr _ (dict_get_elem _ _ _ Hget)) as (Hid & Hse & He). simpl in *.
  assert (Hlen : LinkedListGenome.length gk = ListGenome.length gl)
    by apply (linked_wf_length _ _ Hwfk).
  cbv zeta. rewrite Hlen.
  set (L := ListGenome.length gl) in *.
  (* the position the linked variant inserts at *)
  set (p := if offset >? 0 then s + offset
            else if s + offset <? 0 then L + s + offset else s + offset).
  assert (Hp : 1 <= p < L /\ p = (s + offset) mod L).
  { unfold p. destruct Hint as [Ht|Ht].
    - rewrite Z.mod_small by lia.
      destruct (Z.gtb_spec offset 0), (Z.ltb_spec (s + offset) 0); lia.
    - destruct (Z.gtb_spec offset 0); [lia|].
      destruct (Z.ltb_spec (s + offset) 0); [|lia]. split; [lia|].
      rewrite <- (Z_mod_plus_full (s + offset) 1 L).
      rewrite Z.mod_small by lia. lia. }
  destruct Hp as [Hp Hmod].
  rewrite (list_insert_te_mod (s + offset)) by (done || unfold L in *; lia).
  fold L. rewrite <- Hmod.
  destruct (variants_agree_on_interior_insert gl gk p (e - s) Hsame)
    as (id & gl' & gk' & -> & -> & Hsame'); [done | lia |].
  done.
Qed.

Lemma variants_agree_on_interior_op gl gk o :
  same_genome gl gk -> interior_op o gl ->
  (run o gl).1 = (run o gk).1 /\ same_genome (run o gl).2 (run o gk).2.
Proof.
  intros Hsame Hint. unfold run. destruct o as [pos l|te offset|te]; simpl.
  - rewrite !run_outcome. destruct Hint as [Hpos Hl].
    by destruct (variants_agree_on_interior_insert gl gk pos l Hsame Hpos Hl)
      as (id & gl' & gk' & -> & -> & Hsame').
  - rewrite !run_outcome.
    destruct (variants_agree_on_copy gl gk te offset Hsame Hint) as [Hres Hst].
    destruct (ListGenome.copy_te te offset gl) as [[r|e] gl'],
      (LinkedListGenome.copy_te te offset gk) as [[r'|e'] gk']; simpl in *;
      by simplify_eq.
  - rewrite !(run_outcome _ (fun _ => VUnit)).
    destruct (variants_agree_on_disable gl gk te Hsame) as [Hres Hst].
    destruct (ListGenome.disable_te te gl) as [[r|e] gl'],
      (LinkedListGenome.disable_te te gk) as [[r'|e'] gk']; simpl in *;
      by simplify_eq.
Qed.

Lemma interior_app pre post : forall g,
  interior (pre ++ post) g -> interior pre g /\ interior post (run_script pre g).
Proof.
  induction pre as [|o pre IH]; intros g; simpl; [done|].
  intros [Ho Hrest]. destruct (IH _ Hrest) as [Hpre Hpost]. done.
Qed.

Lemma same_genome_run_script ops : forall gl gk,
  same_genome gl gk -> interior ops gl ->
  same_genome (run_script ops gl) (run_script ops gk).
Proof.
  induction ops as [|o ops IH]; intros gl gk Hsame Hint; [done|].
  destruct Hint as [Ho Hrest]. simpl.
  apply IH; [|done]. by apply variants_agree_on_interior_op.
Qed.

(** X11: the two variants agree on every script that stays away from the
    two ends of the genome.  When every [insert_te] of a script is at a
    position [1 <= pos < length()] with a length [>= 0] and every [copy_te]
    of an active TE has such a target (or a negative one that wraps to
    it), then, started from constructors with the same [n >= 0], the two
    variants are in states with the same [render()], [active_tes()] and
    [length()] before each call, the call returns or raises the same in
    both, and the states after it show the same again. *)
Theorem variants_agree_on_interior_scripts (n : Z) (script : list op) (o : op) :
  0 <= n -> interior (script ++ [o]) (ListGenome.init n) ->
  let gl := run_script script (ListGenome.init n) in
  let gk := run_script script (LinkedListGenome.init n) in
  observe gl = observe gk /\
  (run o gl).1 = (run o gk).1 /\
  observe (run o gl).2 = observe (run o gk).2.
Proof.
  intros Hn Hint gl gk.
  destruct (interior_app _ _ _ Hint) as [Hpre [Ho _]].
  assert (Hsame : same_genome gl gk).
  { apply same_genome_run_script; [by apply same_genome_init | done]. }
  destruct (variants_agree_on_interior_op gl gk o Hsame Ho) as [Hres Hsame'].
  split_and!; [by apply same_genome_observe | done | by apply same_genome_observe].
Qed.

Lemma variants_agree_on_interior_scripts_witness :
  let script := [InsertTe 5 3; InsertTe 2 2; CopyTe 1 (-9); DisableTe 2] in
  let gl := run_script script (ListGenome.init 10) in
  let gk := run_script script (LinkedListGenome.init 10) in
  observe gl = observe gk /\
  (run (CopyTe 3 2) gl).1 = (run (CopyTe 3 2) gk).1 /\
  observe (run (CopyTe 3 2) gl).2 = observe (run (CopyTe 3 2) gk).2.
Proof.
  apply (variants_agree_on_interior_scripts 10
           [InsertTe 5 3; InsertTe 2 2; CopyTe 1 (-9); DisableTe 2] (CopyTe 3 2)).
  - lia.
  - vm_compute. repeat split; (discriminate || reflexivity || (left; split; (discriminate || reflexivity))
      || (right; split; reflexivity)).
Defined.

Lemma list_active_cells_are_the_registered_ranges_witness :
  let g := run_script [InsertTe 5 3; InsertTe 6 1; CopyTe 2 (-4); DisableTe 2]
             (ListGenome.init 10) in
  ranges_disjoint (ListGenome.te_identities g) /\
  forall i,
    (char_at (ListGenome.render g) i = Some sym_active <->
     covered (ListGenome.te_identities g) i) /\
    (forall c, char_at (ListGenome.render g) i = Some c ->
       ~ covered (ListGenome.te_identities g) i ->
       c = sym_empty \/ c = sym_disabled).
Proof.
  apply (list_active_cells_are_the_registered_ranges 10
           [InsertTe 5 3; InsertTe 6 1; CopyTe 2 (-4); DisableTe 2]).
  repeat constructor; simpl; lia.
Defined.

(** ** The order of [active_tes()] *)
Lemma increasing_sublist (l1 l2 : list Z) :
  l1 `sublist_of` l2 -> increasing l2 -> increasing l1.
Proof.
  induction 1 as [|x l1 l2 Hsub IH|x l1 l2 Hsub IH]; simpl; [done| |].
  - intros [Hx Hinc]. split; [|auto].
    rewrite Forall_forall in *. intros y Hy. apply Hx. by eapply elem_of_sublist.
  - intros [_ Hinc]. auto.
Qed.

Lemma increasing_snoc (l : list Z) (x : Z) :
  increasing l -> Forall (fun y => y < x) l -> increasing (l ++ [x]).
Proof.
  induction l as [|y l IH]; simpl; [done|].
  intros [Hy Hinc] [Hyx Hlx]%Forall_cons. split; [|auto].
  apply Forall_app. split; [done|]. by apply Forall_singleton.
Qed.

Lemma sweep_registry_keys_sublist pos l (d : dict te_range) :
  dict_keys (sweep_registry pos l d) `sublist_of` dict_keys d.
Proof.
  induction d as [|[id [s e]] d IH]; simpl; [constructor|].
  destruct ((s <=? pos) && (pos <? e)); [|destruct (s >? pos)]; simpl;
    by constructor.
Qed.

Lemma dict_remove_keys_sublist {V} k (d : dict V) :
  dict_keys (dict_remove k d) `sublist_of` dict_keys d.
Proof.
  induction d as [|[k' v] d IH]; simpl; [constructor|].
  destruct (k' =? k); simpl; by constructor.
Qed.

Lemma increasing_after_insert (d : dict te_range) (c p l : Z) (v : te_range) :
  Forall (fun k => k <= c) (dict_keys d) -> increasing (dict_keys d) ->
  increasing (dict_keys (dict_set (c + 1) v (sweep_registry p l d))).
Proof.
  intros Hc Hinc.
  assert (Hsub := sweep_registry_keys_sublist p l d).
  rewrite dict_set_fresh.
  - rewrite dict_keys_app. apply increasing_snoc; [by eapply increasing_sublist|].
    rewrite Forall_forall in *. intros y Hy. simpl.
    assert (y <= c) by (apply (Hc y); by eapply elem_of_sublist). lia.
  - intros Hin. rewrite Forall_forall in Hc.
    assert (c + 1 <= c) by (apply (Hc (c + 1)); by eapply elem_of_sublist). lia.
Qed.

Lemma list_keys_issued g :
  list_wf g -> Forall (fun k => k <= ListGenome.te_count g)
                      (dict_keys (ListGenome.te_identities g)).
Proof.
  intros Hwf. apply Forall_forall. intros k Hk.
  by destruct (list_active_issued g k Hwf Hk).
Qed.

Lemma linked_keys_issued g vals :
  linked_wf g vals -> Forall (fun k => k <= LinkedListGenome.te_count g)
                             (dict_keys (LinkedListGenome.te_identities g)).
Proof.
  intros Hwf. apply Forall_forall. intros k Hk.
  by destruct (linked_active_issued g vals k Hwf Hk).
Qed.

Lemma list_increasing_run o g :
  list_wf g -> increasing (ListGenome.active_tes g) ->
  increasing (ListGenome.active_tes (run o g).2).
Proof.
  intros Hwf Hinc. unfold ListGenome.active_tes in *. rewrite run_state_list.
  assert (Hins : forall pos l,
    increasing (dict_keys (ListGenome.te_identities (ListGenome.insert_te pos l g).2))).
  { intros pos l.
    destruct (Z.gtb_spec pos (len (ListGenome.genome g))).
    { by rewrite list_insert_te_out_of_range by lia. }
    destruct (Z.eqb_spec (len (ListGenome.genome g)) 0).
    { by rewrite list_insert_te_empty by lia. }
    rewrite list_insert_te_run by (apply Hwf || lia). simpl.
    apply increasing_after_insert; [by apply list_keys_issued | done]. }
  destruct o as [pos l|te offset|te].
  - apply Hins.
  - rewrite list_copy_te_run.
    destruct (dict_get te (ListGenome.te_identities g)) as [[s e]|]; [|done].
    specialize (Hins (s + offset) (e - s)).
    by destruct (ListGenome.insert_te (s + offset) (e - s) g) as [[id|ex] g'].
  - rewrite list_disable_te_run.
    destruct (dict_get te (ListGenome.te_identities g)) as [[s e]|]; [|done].
    simpl. eapply increasing_sublist; [apply dict_remove_keys_sublist | done].
Qed.

Lemma linked_increasing_run o g vals :
  linked_wf g vals -> op_ok o -> increasing (LinkedListGenome.active_tes g) ->
  increasing (LinkedListGenome.active_tes (run o g).2).
Proof.
  intros Hwf Hok Hinc. unfold LinkedListGenome.active_tes in *. rewrite run_state_linked.
  assert (Hins : forall pos l, 0 <= l ->
    increasing (dict_keys (LinkedListGenome.te_identities
                             (LinkedListGenome.insert_te pos l g).2))).
  { intros pos l Hl.
    destruct (Z.gtb_spec pos (LinkedListGenome.length g)).
    { by rewrite linked_insert_te_out_of_range by lia. }
    destruct (linked_insert_te_spec pos l g vals Hwf) as (g' & Hrun & _ & Hd & _);
      [lia | done |].
    rewrite Hrun. simpl. rewrite Hd.
    apply increasing_after_insert; [by eapply linked_keys_issued | done]. }
  destruct o as [pos l|te offset|te]; simpl in Hok.
  - by apply Hins.
  - rewrite linked_copy_te_run.
    destruct (dict_get te (LinkedListGenome.te_identities g)) as [[s e]|] eqn:Hget; [|done].
    assert (0 <= e - s).
    { pose proof (linked_wf_ranges _ _ Hwf) as Hr. rewrite Forall_forall in Hr.
      destruct (Hr _ (dict_get_elem _ _ _ Hget)) as (? & ? & ?). simpl in *. lia. }
    cbv zeta.
    match goal with |- context [LinkedListGenome.insert_te ?p ?len g] =>
      specialize (Hins p len ltac:(lia));
      by destruct (LinkedListGenome.insert_te p len g) as [[id|ex] g'] end.
  - destruct (dict_get te (LinkedListGenome.te_identities g)) as [[s e]|] eqn:Hget.
    + destruct (linked_disable_te_spec te g vals s e Hwf Hget) as (g' & Hrun & _ & Hd & _).
      rewrite Hrun. simpl. rewrite Hd.
      eapply increasing_sublist; [apply dict_remove_keys_sublist | done].
    + by rewrite linked_disable_te_unknown.
Qed.

(** X13: [active_tes()] lists the active ids in increasing order, in both
    variants and in every state a script reaches: the registry keeps the
    order in which the ids were issued, also when a TE is shifted or
    disabled. *)
Theorem active_tes_is_increasing (n : Z) (script : list op) :
  0 <= n -> Forall op_ok script ->
  increasing (ListGenome.active_tes (run_script script (ListGenome.init n))) /\
  increasing (LinkedListGenome.active_tes (run_script script (LinkedListGenome.init n))).
Proof.
  intros Hn Hscript. split.
  - assert (Hgen : forall g, list_wf g -> increasing (ListGenome.active_tes g) ->
              increasing (ListGenome.active_tes (run_script script g))).
    { induction script as [|o ops IH]; intros g Hwf Hinc; [done|].
      apply Forall_cons in Hscript as [Ho Hops]. simpl.
      apply IH; [done | by apply list_wf_run | by apply list_increasing_run]. }
    apply Hgen; [apply list_wf_init | done].
  - assert (Hgen : forall g vals, linked_wf g vals ->
              increasing (LinkedListGenome.active_tes g) ->
              increasing (LinkedListGenome.active_tes (run_script script g))).
    { induction script as [|o ops IH]; intros g vals Hwf Hinc; [done|].
      apply Forall_cons in Hscript as [Ho Hops]. simpl.
      destruct (linked_wf_run o g vals Ho Hwf) as [vals' Hwf'].
      eapply IH; [done | done | by eapply linked_increasing_run]. }
    eapply Hgen; [by apply linked_wf_init|].
    unfold LinkedListGenome.active_tes.
    by destruct (linked_init_registry n) as [-> _].
Qed.

Lemma active_tes_is_increasing_witness :
  let script := [InsertTe 5 3; InsertTe 2 2; InsertTe 3 1; InsertTe 9 2; DisableTe 3] in
  increasing (ListGenome.active_tes (run_script script (ListGenome.init 10))) /\
  increasing (LinkedListGenome.active_tes (run_script script (LinkedListGenome.init 10))).
Proof.
  apply (active_tes_is_increasing 10
           [InsertTe 5 3; InsertTe 2 2; InsertTe 3 1; InsertTe 9 2; DisableTe 3]).
  - lia.
  - repeat constructor; simpl; lia.
Defined.

(** ** The empty cells of a ListGenome *)
Lemma empty_cells_app (l1 l2 : list ascii) :
  empty_cells (l1 ++ l2) = (empty_cells l1 + empty_cells l2)%nat.
Proof. apply count_occ_app. Qed.

Lemma empty_cells_none (l : list ascii) :
  (forall i : nat, l !! i <> Some sym_empty) -> empty_cells l = 0%nat.
Proof.
  intros Hl. apply count_occ_not_In. intros Hin%list_elem_of_In.
  apply list_elem_of_lookup in Hin as [i Hi]. by apply (Hl i).
Qed.

Lemma empty_cells_py_repeat (k : Z) (x : ascii) :
  x <> sym_empty -> empty_cells (py_repeat k x) = 0%nat.
Proof.
  intros Hx. apply empty_cells_none. intros i [Heq _]%lookup_replicate.
  congruence.
Qed.

Lemma empty_cells_fill (l : list ascii) (s e : Z) (x : ascii) :
  0 <= s <= e -> e <= len l -> x <> sym_empty ->
  (forall i : nat, s <= Z.of_nat i < e -> l !! i <> Some sym_empty) ->
  empty_cells (slice_assign l s e (py_repeat (e - s) x)) = empty_cells l.
Proof.
  intros Hse He Hx Hl. rewrite slice_assign_in by done.
  rewrite <- (take_drop (Z.to_nat s) l) at 3.
  rewrite <- (take_drop (Z.to_nat (e - s)) (drop (Z.to_nat s) l)), drop_drop.
  replace (Z.to_nat s + Z.to_nat (e - s))%nat with (Z.to_nat e) by lia.
  rewrite !empty_cells_app, empty_cells_py_repeat by done.
  rewrite (empty_cells_none (take _ (drop _ l))); [done|].
  intros i Hi. apply lookup_take_Some in Hi as [Hi Hlt].
  rewrite lookup_drop in Hi. revert Hi. apply Hl. lia.
Qed.

Lemma empty_cells_sweep (pos : Z) (d : dict te_range) : forall cells : list ascii,
  Forall (fun kv : Z * te_range =>
            0 <= kv.2.1 <= kv.2.2 /\ kv.2.2 <= len cells /\
            forall i : nat, kv.2.1 <= Z.of_nat i < kv.2.2 ->
                            cells !! i <> Some sym_empty) d ->
  empty_cells (sweep_cells pos d cells) = empty_cells cells.
Proof.
  induction d as [|[id [s e]] d IH]; intros cells Hd; [done|].
  apply Forall_cons in Hd as [(Hse & He & Hl) Hd]. simpl in *.
  destruct ((s <=? pos) && (pos <? e)); [|by apply IH].
  rewrite IH; [by apply empty_cells_fill|].
  eapply Forall_impl; [exact Hd|]. intros [id' [s' e']] (Hse' & He' & Hl'). simpl in *.
  rewrite len_slice_assign_fill by done. split; [done|]. split; [done|].
  intros i Hi. rewrite lookup_slice_assign_fill by done.
  case_decide; [discriminate | by apply Hl'].
Qed.

Lemma empty_cells_splice (l r : list ascii) (p : Z) :
  0 <= p <= len l -> empty_cells r = 0%nat ->
  empty_cells (slice_to l p ++ r ++ slice_from l p) = empty_cells l.
Proof.
  intros Hp Hr. rewrite slice_to_in, slice_from_in by done.
  rewrite <- (take_drop (Z.to_nat p) l) at 3.
  rewrite !empty_cells_app, Hr. lia.
Qed.

Lemma list_cells_ok_filled g :
  list_cells_ok g ->
  Forall (fun kv : Z * te_range =>
            0 <= kv.2.1 <= kv.2.2 /\ kv.2.2 <= len (ListGenome.genome g) /\
            forall i : nat, kv.2.1 <= Z.of_nat i < kv.2.2 ->
                            ListGenome.genome g !! i <> Some sym_empty)
         (ListGenome.te_identities g).
Proof.
  intros [Hwf _ Hact _]. apply Forall_forall. intros [id [s e]] Hin.
  pose proof (list_wf_ranges _ Hwf) as Hr. rewrite Forall_forall in Hr.
  destruct (Hr _ Hin) as (_ & Hse & He). simpl in *.
  split; [done|]. split; [done|]. intros i Hi.
  assert (Hc : ListGenome.genome g !! i = Some sym_active).
  { apply Hact. by exists id, s, e. }
  rewrite Hc. discriminate.
Qed.

Lemma list_empty_cells_insert_te pos l g :
  list_cells_ok g ->
  empty_cells (ListGenome.genome (ListGenome.insert_te pos l g).2) =
  empty_cells (ListGenome.genome g).
Proof.
  intros Hok. pose proof (list_cells_wf _ Hok) as Hwf.
  destruct (Z.gtb_spec pos (len (ListGenome.genome g))).
  { by rewrite list_insert_te_out_of_range by lia. }
  destruct (Z.eqb_spec (len (ListGenome.genome g)) 0).
  { by rewrite list_insert_te_empty by lia. }
  rewrite list_insert_te_run by (apply Hwf || lia). simpl.
  assert (Hp : 0 <= pos mod len (ListGenome.genome g) < len (ListGenome.genome g)).
  { apply Z.mod_pos_bound. unfold len in *. lia. }
  assert (Hlen : forall d, Forall (range_in (len (ListGenome.genome g))
                                            (ListGenome.te_count g)) d ->
            len (sweep_cells (pos mod len (ListGenome.genome g)) d (ListGenome.genome g))
            = len (ListGenome.genome g)).
  { intros d Hd. by eapply len_sweep_cells. }
  rewrite empty_cells_splice.
  - apply empty_cells_sweep. by apply list_cells_ok_filled.
  - rewrite Hlen by apply Hwf. lia.
  - by apply empty_cells_py_repeat.
Qed.

Lemma list_empty_cells_run o g :
  list_cells_ok g ->
  empty_cells (ListGenome.genome (run o g).2) = empty_cells (ListGenome.genome g).
Proof.
  intros Hok. rewrite run_state_list. destruct o as [pos l|te offset|te].
  - by apply list_empty_cells_insert_te.
  - rewrite list_copy_te_run.
    destruct (dict_get te (ListGenome.te_identities g)) as [[s e]|]; [|done].
    pose proof (list_empty_cells_insert_te (s + offset) (e - s) g Hok) as Hins.
    by destruct (ListGenome.insert_te (s + offset) (e - s) g) as [[id|ex] g'].
  - rewrite list_disable_te_run.
    destruct (dict_get te (ListGenome.te_identities g)) as [[s e]|] eqn:Hget; [|done].
    simpl. pose proof (list_cells_ok_filled g Hok) as Hf. rewrite Forall_forall in Hf.
    destruct (Hf _ (dict_get_elem _ _ _ Hget)) as (Hse & He & Hl). simpl in *.
    by apply empty_cells_fill.
Qed.

(** X14: a ListGenome never loses or gains an empty cell: after any script
    of calls the list [genome] holds as many '-' as the constructor put
    there.  Insertions add only 'A', and [disable_te] and a collision
    overwrite only cells of a registered range, which hold 'A'. *)
Theorem list_empty_cells_are_kept (n : Z) (script : list op) :
  Forall op_ok script ->
  empty_cells (ListGenome.genome (run_script script (ListGenome.init n))) = Z.to_nat n.
Proof.
  intros Hscript.
  assert (Hgen : forall g, list_cells_ok g ->
            empty_cells (ListGenome.genome (run_script script g)) =
            empty_cells (ListGenome.genome g)).
  { induction script as [|o ops IH]; intros g Hok; [done|].
    apply Forall_cons in Hscript as [Ho Hops]. simpl.
    rewrite IH by (done || by apply list_cells_ok_run).
    by apply list_empty_cells_run. }
  rewrite Hgen by apply list_cells_ok_init. simpl.
  unfold empty_cells, py_repeat.
  induction (Z.to_nat n) as [|k IH]; simpl; [done|].
  destruct (ascii_dec sym_empty sym_empty); [by rewrite IH | done].
Qed.

Lemma list_empty_cells_are_kept_witness :
  empty_cells (ListGenome.genome
     (run_script [InsertTe 5 3; InsertTe 6 1; CopyTe 2 (-4); DisableTe 3; InsertTe 0 2]
                 (ListGenome.init 10))) = Z.to_nat 10.
Proof.
  apply (list_empty_cells_are_kept 10
           [InsertTe 5 3; InsertTe 6 1; CopyTe 2 (-4); DisableTe 3; InsertTe 0 2]).
  repeat constructor; simpl; lia.
Defined.

(** ** Copying a TE onto itself *)

(** X15: in a ListGenome a copy whose target lies inside the span of the TE
    that is copied replaces that TE: [copy_te] returns the next id, the
    copy is active at the shifted range, and the original is no longer
    active. *)
Theorem list_copy_te_into_its_own_span (g : ListGenome.t) (te s e offset : Z) :
  list_wf g -> dict_get te (ListGenome.te_identities g) = Some (s, e) ->
  0 <= offset < e - s ->
  exists g',
    ListGenome.copy_te te offset g = (Return (Some (ListGenome.te_count g + 1)), g') /\
    (te ∉ ListGenome.active_tes g') /\
    dict_get (ListGenome.te_count g + 1) (ListGenome.te_identities g') =
      Some (s + offset, e + offset) /\
    ListGenome.length g' = ListGenome.length g + (e - s).
Proof.
  intros Hwf Hget Hoff. rewrite list_copy_te_run, Hget.
  pose proof (list_wf_ranges _ Hwf) as Hr. rewrite Forall_forall in Hr.
  destruct (Hr _ (dict_get_elem _ _ _ Hget)) as (Hid & Hse & He). simpl in *.
  rewrite list_insert_te_run by (apply Hwf || lia).
  rewrite Z.mod_small by lia.
  eexists. split; [done|]. unfold ListGenome.active_tes, ListGenome.length. simpl.
  destruct (registry_after_collision (ListGenome.te_identities g)
              (ListGenome.te_count g) (s + offset) (e - s) te s e)
    as (Hgone & _ & Hnew); [apply Hwf | lia | done | lia |].
  split; [done|]. split.
  - etrans; [exact Hnew|]. do 2 f_equal. lia.
  - rewrite len_splice; [|erewrite len_sweep_cells; [lia | apply Hwf]].
    erewrite len_sweep_cells by apply Hwf. unfold py_repeat, len.
    rewrite length_replicate. lia.
Qed.

Lemma list_copy_te_into_its_own_span_witness :
  let g := run_script [InsertTe 5 3] (ListGenome.init 10) in
  exists g',
    ListGenome.copy_te 1 1 g = (Return (Some (ListGenome.te_count g + 1)), g') /\
    (1 ∉ ListGenome.active_tes g') /\
    dict_get (ListGenome.te_count g + 1) (ListGenome.te_identities g') =
      Some (5 + 1, 8 + 1) /\
    ListGenome.length g' = ListGenome.length g + (8 - 5).
Proof.
  intros g. apply (list_copy_te_into_its_own_span g 1 5 8 1).
  - apply list_wf_reachable. repeat constructor. simpl. lia.
  - by vm_compute.
  - lia.
Defined.

(** X16: the same in a LinkedListGenome, when the target index is not
    negative (a negative one is taken from the end). *)
Theorem linked_copy_te_into_its_own_span (g : LinkedListGenome.t) (vals : list ascii)
    (te s e offset : Z) :
  linked_wf g vals -> dict_get te (LinkedListGenome.te_identities g) = Some (s, e) ->
  0 <= offset < e - s -> 0 <= s + offset ->
  exists g',
    LinkedListGenome.copy_te te offset g =
      (Return (Some (LinkedListGenome.te_count g + 1)), g') /\
    (te ∉ LinkedListGenome.active_tes g') /\
    dict_get (LinkedListGenome.te_count g + 1) (LinkedListGenome.te_identities g') =
      Some (s + offset, e + offset) /\
    LinkedListGenome.length g' = LinkedListGenome.length g + (e - s).
Proof.
  intros Hwf Hget Hoff Hpos. rewrite linked_copy_te_run, Hget. cbv zeta.
  pose proof (linked_wf_ranges _ _ Hwf) as Hr. rewrite Forall_forall in Hr.
  destruct (Hr _ (dict_get_elem _ _ _ Hget)) as (Hid & Hse & He & _). simpl in *.
  assert (Hp : (if offset >? 0 then s + offset
                else if s + offset <? 0 then LinkedListGenome.length g + s + offset
                else s + offset) = s + offset).
  { destruct (Z.gtb_spec offset 0); [done|]. destruct (Z.ltb_spec (s + offset) 0); [lia | done]. }
  rewrite Hp.
  destruct (linked_insert_te_spec (s + offset) (e - s) g vals Hwf)
    as (g' & Hrun & Hlen & Hd & _); [lia | lia |].
  rewrite Hrun. exists g'. split; [done|].
  unfold LinkedListGenome.active_tes. rewrite Hd.
  destruct (registry_after_collision (LinkedListGenome.te_identities g)
              (LinkedListGenome.te_count g) (s + offset) (e - s) te s e)
    as (Hgone & _ & Hnew); [apply Hwf | lia | done | lia |].
  split; [done|]. split; [|done].
  etrans; [exact Hnew|]. do 2 f_equal. lia.
Qed.

Lemma linked_copy_te_into_its_own_span_witness :
  let g := run_script [InsertTe 5 3] (LinkedListGenome.init 10) in
  exists g',
    LinkedListGenome.copy_te 1 1 g =
      (Return (Some (LinkedListGenome.te_count g + 1)), g') /\
    (1 ∉ LinkedListGenome.active_tes g') /\
    dict_get (LinkedListGenome.te_count g + 1) (LinkedListGenome.te_identities g') =
      Some (5 + 1, 8 + 1) /\
    LinkedListGenome.length g' = LinkedListGenome.length g + (8 - 5).
Proof.
  intros g.
  destruct (linked_wf_reachable 10 [InsertTe 5 3]) as [vals Hwf];
    [lia | repeat constructor; simpl; lia |].
  apply (linked_copy_te_into_its_own_span g vals 1 5 8 1).
  - exact Hwf.
  - by vm_compute.
  - lia.
  - lia.
Defined.
